(** * Grounding-grid calculation engine (NBR 15751): a shallow embedding

    The TypeScript engine works on JavaScript numbers.  Its formulas are
    embedded over the real numbers of the Standard Library: [Math.sqrt] is
    [sqrt], [Math.log] is [ln], [Math.PI] is [PI], and a comparison used as
    a condition is the decision procedure of the order read as a boolean.
    Each function keeps the name, the guards and the order of operations of
    the source.  Values that are not real numbers (a missing argument,
    [NaN], the infinities) appear only where a guard of the source looks at
    them, as [option R] or as the type [number] below.

    The real [ln] is exact where [Math.log] has a positive argument.  On a
    negative argument [Math.log] answers [NaN], which no real stands for;
    this happens in [calculateKf] and [calculateConductorSection] when
    [ta < 20 - 1 / alpha20 < tm], and in [calculateSchwarzResistance] for
    rods of negative diameter.  The theorems about these functions keep
    the argument of every logarithm positive by their hypotheses, or state
    facts that do not depend on the value of a logarithm.

    The statement about the two ways of computing the minimum conductor
    section speaks of identical bits, so that pair of functions is embedded
    a second time over binary64 (module [Binary64]), with the host's
    [Math.log] taken as a parameter. *)

From Stdlib Require Import Reals Lra Lia List Bool Arith.
From Stdlib Require String.
From Stdlib Require PrimFloat.
Import ListNotations.

Local Open Scope R_scope.

(** ** JavaScript numbers read as reals *)

Module JS.

(** [x <= y], [x < y] and [x === y] as conditions. *)
Definition leb (x y : R) : bool := if Rle_dec x y then true else false.
Definition ltb (x y : R) : bool := if Rlt_dec x y then true else false.
Definition eqb (x y : R) : bool := if Req_dec_T x y then true else false.

(** [Math.log10]. *)
Definition log10 (x : R) : R := ln x / ln 10.

(** [Math.pow(10, y)], and [Math.pow] with a positive base in general. *)
Definition pow (x y : R) : R := Rpower x y.

(** A number as a guard of the source sees it: [Number.isFinite] and the
    order distinguish the reals from [NaN] and the two infinities. *)
Inductive number : Type :=
| Finite (x : R)
| PosInfinity
| NegInfinity
| NaN.

Definition Number_isFinite (t : number) : bool :=
  match t with
  | Finite _ => true
  | _ => false
  end.

(** [t <= c] for a real constant [c]: false on [NaN] and [+Infinity]. *)
Definition number_leb (t : number) (c : R) : bool :=
  match t with
  | Finite x => leb x c
  | NegInfinity => true
  | PosInfinity | NaN => false
  end.

(** The real value of a finite number (read only after [Number_isFinite]). *)
Definition value (t : number) : R :=
  match t with
  | Finite x => x
  | _ => 0
  end.

End JS.

Infix "<=?" := JS.leb (at level 70, no associativity) : R_scope.
Infix "<?" := JS.ltb (at level 70, no associativity) : R_scope.
Infix "=?" := JS.eqb (at level 70, no associativity) : R_scope.
Notation "x >? y" := (JS.ltb y x) (at level 70, no associativity) : R_scope.
Notation "x >=? y" := (JS.leb y x) (at level 70, no associativity) : R_scope.

(** ** groundingMath *)

Module GroundingMath.

(** *** Conductor sizing (Onderdonk) *)

(** In both functions the logarithm is taken of [(Ko + tm) / (Ko + ta)].
    Past the first guard this ratio is positive unless
    [Ko + ta < 0 < Ko + tm], where [Math.log] answers [NaN] and so does the
    function; [ln] is exact outside that strip. *)
Definition calculateConductorSection (If t alpha20 rho20 tcap tm ta : R) : R :=
  if (If <=? 0) || (t <=? 0) || (alpha20 <=? 0) || (rho20 <=? 0)
     || (tcap <=? 0) || (tm <=? ta)
  then 0
  else
    let Ko := (1 / alpha20) - 20 in
    let numerator := t * alpha20 * rho20 * 10000 in
    let denominator := tcap * ln ((Ko + tm) / (Ko + ta)) in
    if denominator <=? 0 then 0
    else
      let section := If * sqrt (numerator / denominator) in
      section.

Definition calculateKf (alpha20 rho20 tcap tm ta : R) : R :=
  if (alpha20 <=? 0) || (rho20 <=? 0) || (tcap <=? 0) || (tm <=? ta)
  then 0
  else
    let Ko := (1 / alpha20) - 20 in
    let numerator := alpha20 * rho20 * 10000 in
    let denominator := tcap * ln ((Ko + tm) / (Ko + ta)) in
    if denominator <=? 0 then 0
    else sqrt (numerator / denominator).

(** *** Permissible voltages *)

(** The type ['50' | '70']. *)
Inductive BodyWeight : Type := W50 | W70.

Definition BodyWeight_eqb (a b : BodyWeight) : bool :=
  match a, b with
  | W50, W50 | W70, W70 => true
  | _, _ => false
  end.

Definition calculateMaxTouchVoltage (t cs rho_s : R) (bodyWeight : BodyWeight) : R :=
  if t <=? 0 then 0
  else
    let k := if BodyWeight_eqb bodyWeight W50 then 0.116 else 0.157 in
    (1000 + 1.5 * cs * rho_s) * (k / sqrt t).

Definition calculateMaxStepVoltage (t cs rho_s : R) (bodyWeight : BodyWeight) : R :=
  if t <=? 0 then 0
  else
    let k := if BodyWeight_eqb bodyWeight W50 then 0.116 else 0.157 in
    (1000 + 6 * cs * rho_s) * (k / sqrt t).

Definition LONG_DURATION_THRESHOLD : R := 3.
Definition LONG_DURATION_BODY_CURRENT : R := 0.006.

Inductive VoltageDuration : Type := curta | longa.

Record PermissibleVoltagesResult : Type := {
  vPasso : R;
  vToque : R;
  duration : VoltageDuration
}.

Definition calculatePermissibleVoltages (t cs rho_s : R) (bodyWeight : BodyWeight)
  : PermissibleVoltagesResult :=
  if t <=? 0 then {| vPasso := 0; vToque := 0; duration := curta |}
  else if t <=? LONG_DURATION_THRESHOLD then
    let vToque := calculateMaxTouchVoltage t cs rho_s bodyWeight in
    let vPasso := calculateMaxStepVoltage t cs rho_s bodyWeight in
    {| vPasso := vPasso; vToque := vToque; duration := curta |}
  else
    let baseTouchResistance := 1000 + 1.5 * cs * rho_s in
    let baseStepResistance := 1000 + 6 * cs * rho_s in
    let vToqueLong := LONG_DURATION_BODY_CURRENT * baseTouchResistance in
    let vPassoLong := LONG_DURATION_BODY_CURRENT * baseStepResistance in
    {| vPasso := vPassoLong; vToque := vToqueLong; duration := longa |}.

(** *** Geometric factors *)

Definition calculateKi (n : R) : R := 0.656 + 0.172 * n.

Definition calculateKm (D h d n : R) (hasRods : bool) : R :=
  if (D <=? 0) || (h <=? 0) || (d <=? 0) || (n <=? 0) then 0
  else
    let Kii := if hasRods then 1 else 1 / JS.pow (2 * n) (2 / n) in
    let Kh := sqrt (1 + h) in
    let term1 := (D * D) / (16 * h * d) in
    let term2 := (D + 2 * h) ^ 2 / (8 * D * d) in
    let term3 := h / (4 * d) in
    let ln1 := ln (term1 + term2 - term3) in
    let term4 := Kii / Kh in
    let ln2 := ln (8 / (PI * (2 * n - 1))) in
    (1 / (2 * PI)) * (ln1 + term4 * ln2).

Definition calculateKs (D h n : R) : R :=
  if (D <=? 0) || (h <=? 0) || (n <=? 0) then 0
  else
    let term1 := 1 / (2 * h) in
    let term2 := 1 / (D + h) in
    let term3 := (1 / D) * (1 - JS.pow 0.5 (n - 2)) in
    (1 / PI) * (term1 + term2 + term3).

(** *** Schwarz equations: grid and rods *)

Record Rods : Type := {
  count : R;
  length : R;
  diameter_mm : R
}.

(** The result object; [r1], [r2] and [r12] are optional properties. *)
Record SchwarzResult : Type := {
  resistance : R;
  k1 : R;
  k2 : R;
  r1 : option R;
  r2 : option R;
  r12 : option R
}.

(** A reference curve: slope [m] and intercept [b] of k1 and of k2. *)
Record Line : Type := { m : R; b : R }.
Record Curve : Type := { h_ref : R; curve_k1 : Line; curve_k2 : Line }.

Definition curves : list Curve :=
  [ {| h_ref := 0;
       curve_k1 := {| m := -0.04; b := 1.41 |};
       curve_k2 := {| m := 0.15; b := 5.50 |} |};
    {| h_ref := 0.1;
       curve_k1 := {| m := -0.05; b := 1.20 |};
       curve_k2 := {| m := 0.10; b := 4.68 |} |};
    {| h_ref := 1 / 6;
       curve_k1 := {| m := -0.05; b := 1.13 |};
       curve_k2 := {| m := -0.05; b := 4.40 |} |} ].

(** [curves[i]]; the default is never read, the indices being 0, 1 and 2. *)
Definition curve (i : nat) : Curve :=
  nth i curves
    {| h_ref := 0; curve_k1 := {| m := 0; b := 0 |}; curve_k2 := {| m := 0; b := 0 |} |}.

(** Past the first guard the logarithms of the grid term and of the mutual
    term have positive arguments.  That of the rods' term, [(4 * Lr) / b],
    is positive for a positive rod diameter; for a negative one [Math.log]
    answers [NaN] and so do [r2] and the combined resistance. *)
Definition calculateSchwarzResistance
  (rho A Lx Ly Lc h d_mm : R) (rods : option Rods) : SchwarzResult :=
  if (rho <=? 0) || (A <=? 0) || (Lc <=? 0) || (h <=? 0) || (d_mm <=? 0)
  then Build_SchwarzResult 0 0 0 None None None
  else
    let r_m := (d_mm / 1000) / 2 in
    let a_prime := sqrt (r_m * 2 * h) in
    let L := Rmax Lx Ly in
    let W := Rmin Lx Ly in
    let lwRatio := if W >? 0 then L / W else 1 in
    let h_sqrtA := h / sqrt A in
    let '(k1_m, k1_b, k2_m, k2_b) :=
      if h_sqrtA <=? 0 then
        (m (curve_k1 (curve 0)), b (curve_k1 (curve 0)),
         m (curve_k2 (curve 0)), b (curve_k2 (curve 0)))
      else if h_sqrtA >=? h_ref (curve 2) then
        (m (curve_k1 (curve 2)), b (curve_k1 (curve 2)),
         m (curve_k2 (curve 2)), b (curve_k2 (curve 2)))
      else if h_sqrtA <=? 0.1 then
        let factor := (h_sqrtA - 0) / (0.1 - 0) in
        (m (curve_k1 (curve 0)) + (m (curve_k1 (curve 1)) - m (curve_k1 (curve 0))) * factor,
         b (curve_k1 (curve 0)) + (b (curve_k1 (curve 1)) - b (curve_k1 (curve 0))) * factor,
         m (curve_k2 (curve 0)) + (m (curve_k2 (curve 1)) - m (curve_k2 (curve 0))) * factor,
         b (curve_k2 (curve 0)) + (b (curve_k2 (curve 1)) - b (curve_k2 (curve 0))) * factor)
      else
        let factor := (h_sqrtA - 0.1) / (h_ref (curve 2) - 0.1) in
        (m (curve_k1 (curve 1)) + (m (curve_k1 (curve 2)) - m (curve_k1 (curve 1))) * factor,
         b (curve_k1 (curve 1)) + (b (curve_k1 (curve 2)) - b (curve_k1 (curve 1))) * factor,
         m (curve_k2 (curve 1)) + (m (curve_k2 (curve 2)) - m (curve_k2 (curve 1))) * factor,
         b (curve_k2 (curve 1)) + (b (curve_k2 (curve 2)) - b (curve_k2 (curve 1))) * factor)
    in
    let k1 := k1_m * lwRatio + k1_b in
    let k2 := k2_m * lwRatio + k2_b in
    (* R1: the grid alone *)
    let term1 := ln ((2 * Lc) / a_prime) in
    let term2 := (k1 * Lc) / sqrt A in
    let term3 := k2 in
    let r1 := (rho / (PI * Lc)) * (term1 + term2 - term3) in
    match rods with
    | None => Build_SchwarzResult r1 k1 k2 (Some r1) (Some 0) (Some 0)
    | Some rods =>
      if (count rods <=? 0) || (length rods <=? 0)
      then Build_SchwarzResult r1 k1 k2 (Some r1) (Some 0) (Some 0)
      else
        (* R2: the rods alone *)
        let nr := count rods in
        let Lr := length rods in
        let b := (diameter_mm rods / 1000) / 2 in
        if (nr =? 0) || (Lr =? 0) || (b =? 0)
        then Build_SchwarzResult r1 k1 k2 (Some r1) (Some 0) (Some 0)
        else
          let r2_term1 := ln ((4 * Lr) / b) in
          let r2_term2 := 1 in
          let r2_term3 := (2 * k1 * Lr) / sqrt A * (sqrt nr - 1) ^ 2 in
          let r2 := (rho / (2 * PI * nr * Lr)) * (r2_term1 - r2_term2 + r2_term3) in
          (* R12: the mutual resistance *)
          let r12_term1 := ln ((2 * Lc) / Lr) in
          let r12_term2 := (k1 * Lc) / sqrt A in
          let r12_term3 := k2 in
          let r12_term4 := 1 in
          let r12 := (rho / (PI * Lc)) * (r12_term1 + r12_term2 - r12_term3 + r12_term4) in
          (* Rg: the combination *)
          let numerator := (r1 * r2) - (r12 * r12) in
          let denominator := r1 + r2 - (2 * r12) in
          let rg := if negb (denominator =? 0) then numerator / denominator else r1 in
          Build_SchwarzResult rg k1 k2 (Some r1) (Some r2) (Some r12)
    end.

(** *** Presumed touch voltage (NBR 14039 curves) *)

Inductive NBR14039Area : Type := interna | externa.

Record NBR14039Point : Type := { t : R; v : R }.

Definition nbr14039InternalCurve : list NBR14039Point :=
  [ {| t := 0.01; v := 1000 |};
    {| t := 0.03; v := 700 |};
    {| t := 0.1; v := 480 |};
    {| t := 0.3; v := 330 |};
    {| t := 1; v := 230 |};
    {| t := 3; v := 170 |};
    {| t := 10; v := 120 |} ].

Definition nbr14039ExternalCurve : list NBR14039Point :=
  [ {| t := 0.01; v := 800 |};
    {| t := 0.03; v := 550 |};
    {| t := 0.1; v := 380 |};
    {| t := 0.3; v := 260 |};
    {| t := 1; v := 180 |};
    {| t := 3; v := 130 |};
    {| t := 10; v := 90 |} ].

(** The value on the bracket [p1, p2]: linear in log10 t and log10 v. *)
Definition interpolateSegment (p1 p2 : NBR14039Point) (x : R) : R :=
  let logT := JS.log10 x in
  let logT1 := JS.log10 (t p1) in
  let logT2 := JS.log10 (t p2) in
  let logV1 := JS.log10 (v p1) in
  let logV2 := JS.log10 (v p2) in
  let ratio := (logT - logT1) / (logT2 - logT1) in
  let logV := logV1 + (logV2 - logV1) * ratio in
  JS.pow 10 logV.

(** The [for] loop over the brackets [points[i], points[i + 1]]: the first
    bracket that holds [x] answers, and 0 is left when none does. *)
Fixpoint interpolateBrackets (points : list NBR14039Point) (x : R) : R :=
  match points with
  | p1 :: (p2 :: _) as rest =>
    if (x >=? t p1) && (x <=? t p2) then interpolateSegment p1 p2 x
    else interpolateBrackets rest x
  | _ => 0
  end.

Definition interpolateLogLog (points : list NBR14039Point) (x : R) : R :=
  match points with
  | [] => 0
  | first :: _ =>
    if x <=? t first then v first
    else
      let last := nth (List.length points - 1) points first in
      if x >=? t last then v last
      else interpolateBrackets points x
  end.

(** [area === 'interna' ? nbr14039InternalCurve : nbr14039ExternalCurve]. *)
Definition nbr14039Curve (area : NBR14039Area) : list NBR14039Point :=
  match area with
  | interna => nbr14039InternalCurve
  | externa => nbr14039ExternalCurve
  end.

Definition calculateNBR14039TouchVoltage (x : JS.number) (area : NBR14039Area)
  : option R :=
  if negb (JS.Number_isFinite x) || JS.number_leb x 0 then None
  else
    let clampedT := Rmin (Rmax (JS.value x) 0.01) 10 in
    let curve := nbr14039Curve area in
    Some (interpolateLogLog curve clampedT).

(** *** Preliminary resistances (equations a and b) *)

Definition calculatePreliminaryResistanceA (rhoA A Lt : R) : R :=
  if (rhoA <=? 0) || (A <=? 0) || (Lt <=? 0) then 0
  else
    let r := sqrt (A / PI) in
    rhoA / (4 * r) + rhoA / Lt.

Definition calculatePreliminaryResistanceB (rhoA A Lt h : R) : R :=
  if (rhoA <=? 0) || (A <=? 0) || (Lt <=? 0) || (h <=? 0) then 0
  else
    let sqrt20A := sqrt (20 * A) in
    let term1 := 1 / Lt in
    let term2Part := 1 + 1 / (1 + h * sqrt (20 / A)) in
    let term2 := (1 / sqrt20A) * term2Part in
    rhoA * (term1 + term2).

(** *** Surface layer *)

Definition calculateReflectionFactor (rho rho_s : R) : R :=
  if rho + rho_s =? 0 then 0
  else (rho - rho_s) / (rho + rho_s).

Definition calculateDeratingFactor (rho rho_s hs : R) : R :=
  if (hs <=? 0) || (rho_s <=? 0) then 1
  else if Rabs (rho - rho_s) <? 0.001 then 1
  else
    let term := (0.09 * (1 - rho / rho_s)) / (2 * hs + 0.09) in
    1 - term.

(** *** Tolerable body current *)

(** The result object [{ ib, duration }]; [ib] is [null] as [None]. *)
Module BodyCurrent.
Record Result : Type := {
  ib : option R;
  duration : VoltageDuration
}.
End BodyCurrent.

Definition calculateTolerableBodyCurrent (x : JS.number) (bodyWeight : BodyWeight)
  : BodyCurrent.Result :=
  if negb (JS.Number_isFinite x) || JS.number_leb x 0
  then {| BodyCurrent.ib := None; BodyCurrent.duration := curta |}
  else if JS.value x <=? LONG_DURATION_THRESHOLD then
    let k := if BodyWeight_eqb bodyWeight W50 then 0.116 else 0.157 in
    {| BodyCurrent.ib := Some (k / sqrt (JS.value x)); BodyCurrent.duration := curta |}
  else
    {| BodyCurrent.ib := Some LONG_DURATION_BODY_CURRENT; BodyCurrent.duration := longa |}.

(** *** Mesh voltages *)

Definition calculateMeshTouchVoltage (rho Im Km Ki Lt : R) : R :=
  if Lt <=? 0 then 0
  else (rho * Im * Km * Ki) / Lt.

Definition calculateMeshStepVoltage (rho Im Ks Ki Lt : R) : R :=
  if Lt <=? 0 then 0
  else (rho * Im * Ks * Ki) / Lt.

End GroundingMath.

(** ** soilMath *)

Module SoilMath.

Definition calculateReflectionK (rho1 rho2 : R) : R :=
  if rho1 + rho2 =? 0 then 0
  else (rho2 - rho1) / (rho2 + rho1).

Definition tolerance : R := 1e-6.
Definition maxIterations : nat := Z.to_nat 10000.

(** The variables the loop of [calculateN] updates. *)
Record LoopState : Type := {
  sum : R;
  n : nat;
  term : R
}.

Definition initial : LoopState := {| sum := 0; n := 1; term := 1 |}.

(** The loop condition [Math.abs(term) > tolerance && n < maxIterations]. *)
Definition loopCondition (s : LoopState) : bool :=
  (Rabs (term s) >? tolerance) && (n s <? maxIterations)%nat.

(** One pass through the loop body. *)
Definition loopBody (k alpha : R) (s : LoopState) : LoopState :=
  let kn := k ^ n s in
  let denominator := sqrt (1 + (2 * INR (n s) / alpha) ^ 2) in
  let term := kn / denominator in
  {| sum := sum s + term; n := S (n s); term := term |}.

(** The [while] loop; [None] when the fuel ends before the loop does. *)
Fixpoint while (fuel : nat) (k alpha : R) (s : LoopState) : option LoopState :=
  match fuel with
  | O => None
  | S fuel' =>
    if loopCondition s then while fuel' k alpha (loopBody k alpha s)
    else Some s
  end.

Definition calculateN_fuel (fuel : nat) (k alpha : R) : option R :=
  if alpha =? 0 then Some 1
  else
    match while fuel k alpha initial with
    | Some s => Some (1 + 2 * sum s)
    | None => None
    end.

(** The iteration cap is fuel enough (theorem [calculateN_terminates]). *)
Definition calculateN (k alpha : R) : R :=
  match calculateN_fuel maxIterations k alpha with
  | Some N => N
  | None => 0
  end.

(** The loop as a relation: [iterates k alpha j s s'] when the loop started
    in [s] leaves in [s'] after [j] passes through its body. *)
Inductive iterates (k alpha : R) : nat -> LoopState -> LoopState -> Prop :=
| iterates_exit s :
    loopCondition s = false -> iterates k alpha 0 s s
| iterates_pass j s s' :
    loopCondition s = true ->
    iterates k alpha j (loopBody k alpha s) s' ->
    iterates k alpha (S j) s s'.

(** [rho2] is [None] when no number was given ([undefined], [NaN]); [!rho2]
    holds then, and for the number 0.  [!h1] is [h1 === 0] on a real. *)
Definition calculateApparentResistivity (rho1 : R) (rho2 : option R) (h1 r : R) : R :=
  match rho2 with
  | None => rho1
  | Some rho2 =>
    if (rho2 =? 0) || (rho2 =? rho1) || (h1 =? 0) || (h1 <=? 0) then rho1
    else
      let alpha := r / h1 in
      let k := calculateReflectionK rho1 rho2 in
      let N := calculateN k alpha in
      N * rho1
  end.

Definition calculateEquivalentRadius (area : R) : R :=
  if area <=? 0 then 0
  else sqrt (area / PI).

End SoilMath.

(** ** potentialField *)

Module PotentialField.

(** [potentialMatrix[r][c]] (read inside the matrix only). *)
Definition cell (potentialMatrix : list (list R)) (r c : nat) : R :=
  nth c (nth r potentialMatrix []) 0.

(** The local gradient of the cell [(r, c)], as the first loop computes it. *)
Definition gradient (potentialMatrix : list (list R)) (rows cols r c : nat) : R :=
  let v := cell potentialMatrix r c in
  let v_right := if (c <? cols - 1)%nat then cell potentialMatrix r (c + 1) else v in
  let v_down := if (r <? rows - 1)%nat then cell potentialMatrix (r + 1) c else v in
  let dx := Rabs (v - v_right) in
  let dy := Rabs (v - v_down) in
  let grad := sqrt (dx * dx + dy * dy) in
  grad.

(** [if (grad > maxStep) maxStep = grad], cell after cell in row order. *)
Definition updateMax (maxStep grad : R) : R :=
  if grad >? maxStep then grad else maxStep.

(** [potentialMatrix[0].length] throws on the empty matrix: [None]. *)
Definition calculateStepMatrix (potentialMatrix : list (list R))
  : option (list (list R)) :=
  match potentialMatrix with
  | [] => None
  | row0 :: _ =>
    let rows := List.length potentialMatrix in
    let cols := List.length row0 in
    let stepMatrix :=
      map (fun r => map (fun c => gradient potentialMatrix rows cols r c) (seq 0 cols))
          (seq 0 rows) in
    let maxStep := fold_left updateMax (concat stepMatrix) 0 in
    Some (if maxStep >? 0
          then map (fun row => map (fun grad => grad / maxStep) row) stepMatrix
          else stepMatrix)
  end.

Definition calculateTouchMatrix (potentialMatrix : list (list R)) : list (list R) :=
  map (fun row => map (fun val => 1 - val) row) potentialMatrix.

(** A rod at the grid node [(i, j)] (the objects [{i, j}]). *)
Record Rod : Type := { i : nat; j : nat }.

(** A point source [{x, y, z, weight}]. *)
Record Source : Type := { x : R; y : R; z : R; weight : R }.

(** The result object [{matrix, width, height, offset}]. *)
Record Field : Type := {
  matrix : list (list R);
  width : R;
  height : R;
  offset : R
}.

(** [Math.max(5, Math.floor(len / 1.5))]. *)
Definition pointsAlong (len : R) : Z := Z.max 5 (Int_part (len / 1.5)).

(** The sources pushed by the three loops, in their order: the horizontal
    conductors, the vertical ones, then three points along each rod. *)
Definition fieldSources (lx ly : R) (nx ny : nat) (depth : R)
  (rods : list Rod) (rodLength : R) : list Source :=
  let stepX := lx / (INR nx - 1) in
  let stepY := ly / (INR ny - 1) in
  flat_map
    (fun j =>
       let y := INR j * stepY in
       let pointsInLine := pointsAlong lx in
       map (fun k =>
              let x := (INR k / IZR pointsInLine) * lx in
              {| x := x; y := y; z := - depth; weight := 1.0 |})
           (seq 0 (S (Z.to_nat pointsInLine))))
    (seq 0 ny)
  ++ flat_map
       (fun i =>
          let x := INR i * stepX in
          let pointsInLine := pointsAlong ly in
          map (fun k =>
                 let y := (INR k / IZR pointsInLine) * ly in
                 {| x := x; y := y; z := - depth; weight := 1.0 |})
              (seq 0 (S (Z.to_nat pointsInLine))))
       (seq 0 nx)
  ++ flat_map
       (fun rod =>
          let x := INR (i rod) * stepX in
          let y := INR (j rod) * stepY in
          let pointsInRod := 3%nat in
          map (fun k =>
                 let z := - depth - (INR k / INR pointsInRod) * rodLength in
                 {| x := x; y := y; z := z; weight := 1.5 |})
              (seq 1 pointsInRod))
       rods.

(** The potential of the surface pixel [(r, c)]: the sum over the sources of
    [weight / distance]. *)
Definition pixelPotential (sources : list Source) (resolution : nat)
  (width height offset : R) (r c : nat) : R :=
  let px := - offset + (INR c / (INR resolution - 1)) * width in
  let py := - offset + (INR r / (INR resolution - 1)) * height in
  fold_left
    (fun potential src =>
       let dx := px - x src in
       let dy := py - y src in
       let dz := 0 - z src in
       let distSq := dx * dx + dy * dy + dz * dz in
       potential + weight src / sqrt distSq)
    sources 0.

Definition calculatePotentialField (lx ly : R) (nx ny : nat) (depth : R)
  (rods : list Rod) (rodLength : R) (resolution : nat) (offset : R) : Field :=
  let width := lx + 2 * offset in
  let height := ly + 2 * offset in
  let sources := fieldSources lx ly nx ny depth rods rodLength in
  let field :=
    map (fun r =>
           map (fun c => pixelPotential sources resolution width height offset r c)
               (seq 0 resolution))
        (seq 0 resolution) in
  let maxPotential := fold_left updateMax (concat field) 0 in
  let field :=
    if maxPotential >? 0
    then map (fun row => map (fun potential => potential / maxPotential) row) field
    else field in
  Build_Field field width height offset.

End PotentialField.

(** ** conductorData *)

Module ConductorData.

Import String.
Local Open Scope string_scope.

Record ConductorMaterial : Type := {
  id : string;
  name : string;
  alpha20 : R;
  tFusion : R;
  rho20 : R;
  tcap : R
}.

Definition conductorMaterials : list ConductorMaterial :=
  [ {| id := "copper_soft"; name := "Cobre (macio)";
       alpha20 := 0.00393; tFusion := 1083; rho20 := 1.724; tcap := 3.422 |};
    {| id := "copper_hard"; name := "Cobre (duro)";
       alpha20 := 0.00381; tFusion := 1084; rho20 := 1.777; tcap := 3.422 |};
    {| id := "copper_clad_steel_40"; name := "Aço cobreado 40%";
       alpha20 := 0.00378; tFusion := 1084; rho20 := 4.397; tcap := 3.846 |};
    {| id := "copper_clad_steel_30"; name := "Aço cobreado 30%";
       alpha20 := 0.00378; tFusion := 1084; rho20 := 5.862; tcap := 3.846 |};
    {| id := "copper_clad_steel_rod"; name := "Haste de aço cobreado (20%)";
       alpha20 := 0.00378; tFusion := 1084; rho20 := 8.62; tcap := 3.846 |};
    {| id := "aluminum_wire"; name := "Fio de alumínio (EC grade)";
       alpha20 := 0.00403; tFusion := 657; rho20 := 2.862; tcap := 2.556 |};
    {| id := "aluminum_alloy_5005"; name := "Liga de alumínio 5005";
       alpha20 := 0.00353; tFusion := 660; rho20 := 3.222; tcap := 2.598 |};
    {| id := "aluminum_alloy_6201"; name := "Liga de alumínio 6201";
       alpha20 := 0.00347; tFusion := 660; rho20 := 3.284; tcap := 2.598 |};
    {| id := "steel_aluminum"; name := "Aço-alumínio";
       alpha20 := 0.00360; tFusion := 660; rho20 := 8.480; tcap := 2.670 |};
    {| id := "steel_1020"; name := "Aço 1020";
       alpha20 := 0.00160; tFusion := 1510; rho20 := 15.90; tcap := 3.28 |};
    {| id := "zinc_coated_steel"; name := "Aço zincado";
       alpha20 := 0.00320; tFusion := 419; rho20 := 20.1; tcap := 3.931 |};
    {| id := "stainless_steel_304"; name := "Aço inoxidável 304";
       alpha20 := 0.00130; tFusion := 1400; rho20 := 72.0; tcap := 4.032 |} ].

Record ConnectionType : Type := {
  connection_id : string;
  connection_name : string;
  maxTemp : R
}.

Definition connectionTypes : list ConnectionType :=
  [ {| connection_id := "mechanical";
       connection_name := "Mecânica (aparafusada ou por pressão)"; maxTemp := 250 |};
    {| connection_id := "oxyacetylene";
       connection_name := "Emenda tipo solda oxiacetilênica"; maxTemp := 450 |};
    {| connection_id := "exothermic";
       connection_name := "Emenda com solda exotérmica"; maxTemp := 850 |};
    {| connection_id := "compression_hydraulic";
       connection_name := "Emenda a compressão"; maxTemp := 850 |} ].

End ConductorData.

(** ** App: the rods placed on the grid *)

Module App.

(** [r.i === i && r.j === j] on the rods [{i, j}] of the state. *)
Definition sameNode (i0 j0 : nat) (r : PotentialField.Rod) : bool :=
  (PotentialField.i r =? i0)%nat && (PotentialField.j r =? j0)%nat.

(** The update [toggleRod] applies to the list of rods: a node that holds a
    rod loses it, a free node gets one at the end of the list. *)
Definition toggleRod (i0 j0 : nat) (prev : list PotentialField.Rod)
  : list PotentialField.Rod :=
  let exists_ := existsb (sameNode i0 j0) prev in
  if exists_ then filter (fun r => negb (sameNode i0 j0 r)) prev
  else prev ++ [ {| PotentialField.i := i0; PotentialField.j := j0 |} ].

(** The minimum section of the sizing step: 0 unless the material and the
    connection were found and [t > 0], [ta < connection.maxTemp] and
    [currentForSizing > 0]; then
    [currentForSizing * calculatedKf * Math.sqrt(t)] with
    [tm = Math.min(connection.maxTemp, material.tFusion)]. *)
Definition minSection (material : option ConductorData.ConductorMaterial)
  (connection : option ConductorData.ConnectionType) (currentForSizing t ta : R) : R :=
  match material, connection with
  | Some material, Some connection =>
    if (t >? 0) && (ta <? ConductorData.maxTemp connection) && (currentForSizing >? 0)
    then
      let tm := Rmin (ConductorData.maxTemp connection) (ConductorData.tFusion material) in
      let calculatedKf :=
        GroundingMath.calculateKf (ConductorData.alpha20 material)
          (ConductorData.rho20 material) (ConductorData.tcap material) tm ta in
      currentForSizing * calculatedKf * sqrt t
    else 0
  | _, _ => 0
  end.

End App.

(** ** Conductor sizing over binary64 *)

Module Binary64.

Import PrimFloat.
Local Open Scope float_scope.

Section Host.

(** The host's [Math.log]; ECMAScript leaves its rounding to the engine. *)
Variable Math_log : float -> float.

Definition calculateConductorSection (If t alpha20 rho20 tcap tm ta : float) : float :=
  if (If <=? 0) || (t <=? 0) || (alpha20 <=? 0) || (rho20 <=? 0)
     || (tcap <=? 0) || (tm <=? ta)
  then 0
  else
    let Ko := (1 / alpha20) - 20 in
    let numerator := t * alpha20 * rho20 * 10000 in
    let denominator := tcap * Math_log ((Ko + tm) / (Ko + ta)) in
    if denominator <=? 0 then 0
    else
      let section := If * sqrt (numerator / denominator) in
      section.

Definition calculateKf (alpha20 rho20 tcap tm ta : float) : float :=
  if (alpha20 <=? 0) || (rho20 <=? 0) || (tcap <=? 0) || (tm <=? ta)
  then 0
  else
    let Ko := (1 / alpha20) - 20 in
    let numerator := alpha20 * rho20 * 10000 in
    let denominator := tcap * Math_log ((Ko + tm) / (Ko + ta)) in
    if denominator <=? 0 then 0
    else sqrt (numerator / denominator).

(** The caller's path (App.tsx): [If * calculateKf(...) * Math.sqrt(t)]. *)
Definition sectionViaKf (If t alpha20 rho20 tcap tm ta : float) : float :=
  If * calculateKf alpha20 rho20 tcap tm ta * sqrt t.

End Host.

End Binary64.

(** ** Reading the conditions *)

Lemma leb_true (x y : R) : (x <=? y) = true <-> x <= y.
Proof. unfold JS.leb. destruct (Rle_dec x y); split; intros; try discriminate; tauto. Qed.

Lemma leb_false (x y : R) : (x <=? y) = false <-> y < x.
Proof.
  unfold JS.leb. destruct (Rle_dec x y); split; intros; try discriminate; try lra;
    reflexivity.
Qed.

Lemma ltb_true (x y : R) : (x <? y) = true <-> x < y.
Proof. unfold JS.ltb. destruct (Rlt_dec x y); split; intros; try discriminate; tauto. Qed.

Lemma ltb_false (x y : R) : (x <? y) = false <-> y <= x.
Proof.
  unfold JS.ltb. destruct (Rlt_dec x y); split; intros; try discriminate; try lra;
    reflexivity.
Qed.

Lemma eqb_true (x y : R) : (x =? y) = true <-> x = y.
Proof. unfold JS.eqb. destruct (Req_dec_T x y); split; intros; try discriminate; tauto. Qed.

Lemma eqb_false (x y : R) : (x =? y) = false <-> x <> y.
Proof.
  unfold JS.eqb. destruct (Req_dec_T x y); split; intros; try discriminate; try tauto.
Qed.

(** [guard_le_true x y] and [guard_le_false x y] settle the guard [x <= y] of
    the goal, the side condition being closed by linear arithmetic. *)
Ltac guard_le_true x y := replace (x <=? y) with true by (symmetry; apply leb_true; lra).
Ltac guard_le_false x y := replace (x <=? y) with false by (symmetry; apply leb_false; lra).

(** ** C10: the irregularity factor *)

(** C10.  [calculateKi] validates nothing: for every real [n] it is
    [0.656 + 0.172 n]; for [n <= 0], where [calculateKm] and [calculateKs]
    answer the neutral 0, it still follows the formula (0.656 at [n = 0]),
    and below [-0.656 / 0.172] its value is negative. *)
Theorem calculateKi_no_validation :
  (forall n : R, GroundingMath.calculateKi n = 0.656 + 0.172 * n)
  /\ (forall D h d n hasRods, n <= 0 -> GroundingMath.calculateKm D h d n hasRods = 0)
  /\ (forall D h n, n <= 0 -> GroundingMath.calculateKs D h n = 0)
  /\ GroundingMath.calculateKi 0 = 0.656
  /\ (forall n : R, n <= 0 -> n <> - 0.656 / 0.172 -> GroundingMath.calculateKi n <> 0)
  /\ (forall n : R, n < - 0.656 / 0.172 -> GroundingMath.calculateKi n < 0).
Proof.
  repeat split.
  - intros D h d n hasRods Hn. unfold GroundingMath.calculateKm.
    guard_le_true n 0. now rewrite !orb_true_r.
  - intros D h n Hn. unfold GroundingMath.calculateKs.
    guard_le_true n 0. now rewrite !orb_true_r.
  - unfold GroundingMath.calculateKi. lra.
  - intros n _ Hn. unfold GroundingMath.calculateKi. intro E. apply Hn. lra.
  - intros n Hn. unfold GroundingMath.calculateKi. lra.
Qed.

(** ** C1: the two paths to the minimum conductor section *)

(** Both functions share the guard on the material data and the same
    denominator; past the guards the root of a product splits. *)
Lemma section_splits (If t alpha20 rho20 den : R) :
  0 <= t -> 0 < alpha20 -> 0 < rho20 -> 0 < den ->
  If * sqrt (t * alpha20 * rho20 * 10000 / den)
  = If * sqrt (alpha20 * rho20 * 10000 / den) * sqrt t.
Proof.
  intros Ht Ha Hr Hd.
  replace (t * alpha20 * rho20 * 10000 / den)
    with (alpha20 * rho20 * 10000 / den * t) by (field; lra).
  rewrite sqrt_mult; [ ring | | exact Ht ].
  apply Rlt_le, Rdiv_lt_0_compat; [ | exact Hd ].
  repeat apply Rmult_lt_0_compat; lra.
Qed.

(** The logarithm of the temperature ratio is positive when the ratio
    exceeds 1. *)
Lemma ln_ratio_pos (a b : R) : 0 < b -> b < a -> 0 < ln (a / b).
Proof.
  intros Hb Hab. rewrite <- ln_1. apply ln_increasing; [ lra | ].
  apply Rmult_lt_reg_r with b; [ exact Hb | ].
  unfold Rdiv. rewrite Rmult_assoc, Rinv_l by lra. lra.
Qed.

(** C1 (as amended).  Over the reals, for every valid input the direct
    formula and the path through [calculateKf] give the same section. *)
Theorem calculateConductorSection_via_Kf (If t alpha20 rho20 tcap tm ta : R) :
  0 < If -> 0 < t -> 0 < alpha20 -> 0 < rho20 -> 0 < tcap -> ta < tm ->
  0 < tcap * ln ((1 / alpha20 - 20 + tm) / (1 / alpha20 - 20 + ta)) ->
  GroundingMath.calculateConductorSection If t alpha20 rho20 tcap tm ta
  = If * GroundingMath.calculateKf alpha20 rho20 tcap tm ta * sqrt t.
Proof.
  intros HIf Ht Ha Hr Hc Htm Hden.
  unfold GroundingMath.calculateConductorSection, GroundingMath.calculateKf.
  guard_le_false If 0. guard_le_false t 0. guard_le_false alpha20 0.
  guard_le_false rho20 0. guard_le_false tcap 0. guard_le_false tm ta.
  cbn [orb]. cbv zeta.
  guard_le_false (tcap * ln ((1 / alpha20 - 20 + tm) / (1 / alpha20 - 20 + ta))) 0.
  apply section_splits; lra.
Qed.

(** A copper conductor: 10 kA for half a second, from 40 to 1083 degrees. *)
Lemma calculateConductorSection_via_Kf_witness :
  GroundingMath.calculateConductorSection 10 0.5 0.00393 1.72 3.42 1083 40
  = 10 * GroundingMath.calculateKf 0.00393 1.72 3.42 1083 40 * sqrt 0.5.
Proof.
  apply (calculateConductorSection_via_Kf 10 0.5 0.00393 1.72 3.42 1083 40); try lra.
  apply Rmult_lt_0_compat; [ lra | apply ln_ratio_pos; lra ].
Defined.

Section Binary64Paths.

Import PrimFloat.
Local Open Scope float_scope.

(** Two binary64 numbers that [===] tells apart are different numbers. *)
Lemma float_eqb_false_neq (x y : float) :
  (x =? y) = false -> (x =? x) = true -> x <> y.
Proof. intros Hxy Hxx E. rewrite <- E in Hxy. congruence. Qed.

(** C1, counterexample.  In binary64 the two paths round differently.  At
    [If = 3], [t = 3], [alpha20 = 0.5], [rho20 = 1], [tcap = 2], [tm = 20],
    [ta = 19] every guard passes and the argument of the logarithm is
    exactly 2.  With the double nearest to ln 2 for [Math.log(2)] the direct
    section is [0x1.380f8dafd2c7ep+8] and [If * Kf * sqrt t] is
    [0x1.380f8dafd2c7dp+8], one unit in the last place apart; and for every
    host logarithm that returns ln 2 to within one unit in the last place
    the two results are different numbers. *)
Lemma conductor_section_paths_differ_in_binary64 :
  (1 / 0.5 - 20 + 20) / (1 / 0.5 - 20 + 19) = 2
  /\ (forall Math_log : float -> float,
        Math_log 2 = 0x1.62e42fefa39efp-1 ->
        Binary64.calculateConductorSection Math_log 3 3 0.5 1 2 20 19
        = 0x1.380f8dafd2c7ep+8
        /\ Binary64.sectionViaKf Math_log 3 3 0.5 1 2 20 19
           = 0x1.380f8dafd2c7dp+8)
  /\ (forall Math_log : float -> float,
        In (Math_log 2)
           [0x1.62e42fefa39eep-1; 0x1.62e42fefa39efp-1; 0x1.62e42fefa39f0p-1] ->
        (0 <? 2 * Math_log 2) = true
        /\ (Binary64.calculateConductorSection Math_log 3 3 0.5 1 2 20 19
            =? Binary64.sectionViaKf Math_log 3 3 0.5 1 2 20 19) = false
        /\ Binary64.calculateConductorSection Math_log 3 3 0.5 1 2 20 19
           <> Binary64.sectionViaKf Math_log 3 3 0.5 1 2 20 19).
Proof.
  assert (E : forall (Math_log : float -> float) (L : float), Math_log 2 = L ->
            Binary64.calculateConductorSection Math_log 3 3 0.5 1 2 20 19
            = Binary64.calculateConductorSection (fun _ => L) 3 3 0.5 1 2 20 19
            /\ Binary64.sectionViaKf Math_log 3 3 0.5 1 2 20 19
               = Binary64.sectionViaKf (fun _ => L) 3 3 0.5 1 2 20 19).
  { intros Math_log L HL. unfold Binary64.sectionViaKf,
      Binary64.calculateConductorSection, Binary64.calculateKf. cbv zeta.
    change ((1 / 0.5 - 20 + 20) / (1 / 0.5 - 20 + 19)) with 2.
    rewrite HL. split; reflexivity. }
  split; [ reflexivity | split ].
  - intros Math_log H. destruct (E Math_log _ H) as [E1 E2].
    rewrite E1, E2. split; reflexivity.
  - intros Math_log H. simpl in H.
    destruct H as [H | [H | [H | []]]]; symmetry in H;
      destruct (E Math_log _ H) as [E1 E2]; rewrite E1, E2, H;
      (split; [ reflexivity | split; [ reflexivity | ] ]);
      apply float_eqb_false_neq; reflexivity.
Qed.

End Binary64Paths.

(** ** C2: permissible voltages by duration class *)

(** C2.  [calculatePermissibleVoltages] answers the short-duration limits of
    [calculateMaxTouchVoltage] and [calculateMaxStepVoltage] for
    [0 < t <= 3], the long-duration limits [0.006 * (1000 + 1.5 cs rho_s)]
    and [0.006 * (1000 + 6 cs rho_s)] for [t > 3], and zeros with the short
    class for [t <= 0]; the class is long exactly when [t > 3]. *)
Theorem calculatePermissibleVoltages_by_duration
  (t cs rho_s : R) (bodyWeight : GroundingMath.BodyWeight) :
  (0 < t <= 3 ->
     GroundingMath.calculatePermissibleVoltages t cs rho_s bodyWeight
     = {| GroundingMath.vPasso := GroundingMath.calculateMaxStepVoltage t cs rho_s bodyWeight;
          GroundingMath.vToque := GroundingMath.calculateMaxTouchVoltage t cs rho_s bodyWeight;
          GroundingMath.duration := GroundingMath.curta |})
  /\ (3 < t ->
     GroundingMath.calculatePermissibleVoltages t cs rho_s bodyWeight
     = {| GroundingMath.vPasso := 0.006 * (1000 + 6 * cs * rho_s);
          GroundingMath.vToque := 0.006 * (1000 + 1.5 * cs * rho_s);
          GroundingMath.duration := GroundingMath.longa |})
  /\ (t <= 0 ->
     GroundingMath.calculatePermissibleVoltages t cs rho_s bodyWeight
     = {| GroundingMath.vPasso := 0;
          GroundingMath.vToque := 0;
          GroundingMath.duration := GroundingMath.curta |})
  /\ (GroundingMath.duration
        (GroundingMath.calculatePermissibleVoltages t cs rho_s bodyWeight)
      = GroundingMath.longa <-> 3 < t).
Proof.
  unfold GroundingMath.calculatePermissibleVoltages,
    GroundingMath.LONG_DURATION_THRESHOLD, GroundingMath.LONG_DURATION_BODY_CURRENT.
  repeat split.
  - intros [H0 H3]. guard_le_false t 0. guard_le_true t 3. reflexivity.
  - intros H3. guard_le_false t 0. guard_le_false t 3. reflexivity.
  - intros H0. guard_le_true t 0. reflexivity.
  - destruct (Rle_dec t 0) as [H0 | H0].
    + guard_le_true t 0. discriminate.
    + guard_le_false t 0. destruct (Rle_dec t 3) as [H3 | H3].
      * guard_le_true t 3. discriminate.
      * intros _. lra.
  - intros H3. guard_le_false t 0. guard_le_false t 3. reflexivity.
Qed.

(** ** C9: the step limit dominates the touch limit *)

(** C9.  For [t > 0], either body weight and [cs * rho_s >= 0], the
    permissible step voltage is at least the permissible touch voltage. *)
Theorem calculateMaxStepVoltage_ge_touch
  (t cs rho_s : R) (bodyWeight : GroundingMath.BodyWeight) :
  0 < t -> 0 <= cs * rho_s ->
  GroundingMath.calculateMaxStepVoltage t cs rho_s bodyWeight
  >= GroundingMath.calculateMaxTouchVoltage t cs rho_s bodyWeight.
Proof.
  intros Ht Hx.
  unfold GroundingMath.calculateMaxStepVoltage, GroundingMath.calculateMaxTouchVoltage.
  guard_le_false t 0. cbv zeta.
  set (k := if GroundingMath.BodyWeight_eqb bodyWeight GroundingMath.W50
            then 0.116 else 0.157).
  assert (Hk : 0 < k) by (subst k; destruct bodyWeight; simpl; lra).
  assert (Hs : 0 < sqrt t) by (apply sqrt_lt_R0; exact Ht).
  assert (Hq : 0 < k / sqrt t) by (apply Rdiv_lt_0_compat; assumption).
  apply Rle_ge, Rmult_le_compat_r; [ lra | nra ].
Qed.

(** A 70 kg body, half a second, crushed stone of 3000 ohm.m with cs = 0.7. *)
Lemma calculateMaxStepVoltage_ge_touch_witness :
  GroundingMath.calculateMaxStepVoltage 0.5 0.7 3000 GroundingMath.W70
  >= GroundingMath.calculateMaxTouchVoltage 0.5 0.7 3000 GroundingMath.W70.
Proof.
  apply (calculateMaxStepVoltage_ge_touch 0.5 0.7 3000 GroundingMath.W70); lra.
Defined.

(** ** C3 and C4: the Schwarz equations *)

(** Past its first guard the function computes the coefficient lines
    [(k1_m, k1_b, k2_m, k2_b)] by cases on [h / sqrt A]; the statements below
    hold whatever the case, so the proofs name the four numbers. *)
Ltac name_coefficients :=
  match goal with
  | |- context [if ?c then (?a1, ?a2, ?a3, ?a4) else ?e] =>
    destruct (if c then (a1, a2, a3, a4) else e) as [[[k1_m k1_b] k2_m] k2_b]
  end.

Ltac pass_first_guard rho A Lc h d_mm :=
  unfold GroundingMath.calculateSchwarzResistance;
  guard_le_false rho 0; guard_le_false A 0; guard_le_false Lc 0;
  guard_le_false h 0; guard_le_false d_mm 0;
  cbn [orb]; cbv zeta; name_coefficients.

(** C3.  With positive [rho], [A], [Lc], [h] and [d_mm], when no valid rods
    are given (no rods, or a count or a length that is not positive) the
    resistance returned is the grid value [r1] of the record, which is the
    Schwarz formula of the grid alone, and [r2] and [r12] are reported 0. *)
Theorem calculateSchwarzResistance_without_rods
  (rho A Lx Ly Lc h d_mm : R) (rods : option GroundingMath.Rods) :
  0 < rho -> 0 < A -> 0 < Lc -> 0 < h -> 0 < d_mm ->
  (rods = None
   \/ exists rd, rods = Some rd
        /\ (GroundingMath.count rd <= 0 \/ GroundingMath.length rd <= 0)) ->
  let res := GroundingMath.calculateSchwarzResistance rho A Lx Ly Lc h d_mm rods in
  GroundingMath.r1 res = Some (GroundingMath.resistance res)
  /\ GroundingMath.r2 res = Some 0
  /\ GroundingMath.r12 res = Some 0
  /\ GroundingMath.resistance res
     = (rho / (PI * Lc))
       * (ln ((2 * Lc) / sqrt ((d_mm / 1000) / 2 * 2 * h))
          + (GroundingMath.k1 res * Lc) / sqrt A - GroundingMath.k2 res).
Proof.
  intros Hrho HA HLc Hh Hd Hrods res. subst res.
  pass_first_guard rho A Lc h d_mm.
  destruct Hrods as [-> | [rd [-> Hrd]]].
  - cbn. repeat split; reflexivity.
  - replace ((GroundingMath.count rd <=? 0) || (GroundingMath.length rd <=? 0))
      with true.
    + cbn. repeat split; reflexivity.
    + symmetry. apply orb_true_iff. destruct Hrd as [Hc | Hl];
        [ left | right ]; apply leb_true; assumption.
Qed.

(** The grid of the end-to-end scenario (50 m by 40 m, 890 m of conductor,
    0.5 m deep, 7.98 mm conductor, 100 ohm.m), with no rods. *)
Lemma calculateSchwarzResistance_without_rods_witness :
  let res := GroundingMath.calculateSchwarzResistance 100 2000 50 40 890 0.5 7.98 None in
  GroundingMath.r1 res = Some (GroundingMath.resistance res)
  /\ GroundingMath.r2 res = Some 0
  /\ GroundingMath.r12 res = Some 0
  /\ GroundingMath.resistance res
     = (100 / (PI * 890))
       * (ln ((2 * 890) / sqrt ((7.98 / 1000) / 2 * 2 * 0.5))
          + (GroundingMath.k1 res * 890) / sqrt 2000 - GroundingMath.k2 res).
Proof.
  apply (calculateSchwarzResistance_without_rods 100 2000 50 40 890 0.5 7.98 None);
    try lra.
  left. reflexivity.
Defined.

(** C4.  With valid rods (positive count, length and diameter) the record
    carries the three Schwarz resistances, and the combined resistance is
    [(r1 r2 - r12^2) / (r1 + r2 - 2 r12)] unless that denominator is exactly
    0, where it is [r1]: the division is never made by zero. *)
Theorem calculateSchwarzResistance_combined
  (rho A Lx Ly Lc h d_mm : R) (rods : GroundingMath.Rods) :
  0 < rho -> 0 < A -> 0 < Lc -> 0 < h -> 0 < d_mm ->
  0 < GroundingMath.count rods -> 0 < GroundingMath.length rods ->
  0 < GroundingMath.diameter_mm rods ->
  let res := GroundingMath.calculateSchwarzResistance rho A Lx Ly Lc h d_mm (Some rods) in
  let nr := GroundingMath.count rods in
  let Lr := GroundingMath.length rods in
  exists R1 R2 R12 : R,
    GroundingMath.r1 res = Some R1
    /\ GroundingMath.r2 res = Some R2
    /\ GroundingMath.r12 res = Some R12
    /\ R1 = (rho / (PI * Lc))
            * (ln ((2 * Lc) / sqrt ((d_mm / 1000) / 2 * 2 * h))
               + (GroundingMath.k1 res * Lc) / sqrt A - GroundingMath.k2 res)
    /\ R2 = (rho / (2 * PI * nr * Lr))
            * (ln ((4 * Lr) / ((GroundingMath.diameter_mm rods / 1000) / 2)) - 1
               + (2 * GroundingMath.k1 res * Lr) / sqrt A * (sqrt nr - 1) ^ 2)
    /\ R12 = (rho / (PI * Lc))
             * (ln ((2 * Lc) / Lr) + (GroundingMath.k1 res * Lc) / sqrt A
                - GroundingMath.k2 res + 1)
    /\ (R1 + R2 - 2 * R12 <> 0 ->
        GroundingMath.resistance res = (R1 * R2 - R12 * R12) / (R1 + R2 - 2 * R12))
    /\ (R1 + R2 - 2 * R12 = 0 -> GroundingMath.resistance res = R1).
Proof.
  intros Hrho HA HLc Hh Hd Hn Hl Hb res nr Lr. subst res nr Lr.
  pass_first_guard rho A Lc h d_mm.
  guard_le_false (GroundingMath.count rods) 0.
  guard_le_false (GroundingMath.length rods) 0.
  replace (GroundingMath.count rods =? 0) with false
    by (symmetry; apply eqb_false; lra).
  replace (GroundingMath.length rods =? 0) with false
    by (symmetry; apply eqb_false; lra).
  replace (GroundingMath.diameter_mm rods / 1000 / 2 =? 0) with false
    by (symmetry; apply eqb_false; lra).
  cbn [orb].
  match goal with
  | |- context [negb (?den =? 0)] => destruct (Req_dec_T den 0) as [Hz | Hz]
  end.
  - do 3 eexists. cbn.
    repeat (split; [ reflexivity | ]).
    split; intros Hden.
    + contradiction.
    + match goal with
      | |- context [negb (?den =? 0)] =>
        replace (den =? 0) with true by (symmetry; apply eqb_true; exact Hz)
      end.
      reflexivity.
  - do 3 eexists. cbn.
    repeat (split; [ reflexivity | ]).
    split; intros Hden.
    + match goal with
      | |- context [negb (?den =? 0)] =>
        replace (den =? 0) with false by (symmetry; apply eqb_false; exact Hz)
      end.
      reflexivity.
    + contradiction.
Qed.

(** The grid above with four rods of 2.4 m and 12.7 mm at its corners. *)
Lemma calculateSchwarzResistance_combined_witness :
  let res := GroundingMath.calculateSchwarzResistance 100 2000 50 40 890 0.5 7.98
               (Some (GroundingMath.Build_Rods 4 2.4 12.7)) in
  exists R1 R2 R12 : R,
    GroundingMath.r1 res = Some R1
    /\ GroundingMath.r2 res = Some R2
    /\ GroundingMath.r12 res = Some R12
    /\ (R1 + R2 - 2 * R12 <> 0 ->
        GroundingMath.resistance res = (R1 * R2 - R12 * R12) / (R1 + R2 - 2 * R12))
    /\ (R1 + R2 - 2 * R12 = 0 -> GroundingMath.resistance res = R1).
Proof.
  destruct (calculateSchwarzResistance_combined 100 2000 50 40 890 0.5 7.98
              (GroundingMath.Build_Rods 4 2.4 12.7))
    as (R1 & R2 & R12 & H1 & H2 & H12 & _ & _ & _ & Hne & Hz);
    try (simpl; lra).
  exists R1, R2, R12. repeat split; assumption.
Defined.

(** ** C6: the image series terminates *)

Lemma maxIterations_value : Z.of_nat SoilMath.maxIterations = 10000%Z.
Proof. unfold SoilMath.maxIterations. lia. Qed.

(** The loop goes on exactly while the last term is above the tolerance and
    the counter is below the cap. *)
Lemma loopCondition_true (s : SoilMath.LoopState) :
  SoilMath.loopCondition s = true
  <-> SoilMath.tolerance < Rabs (SoilMath.term s)
      /\ (SoilMath.n s < SoilMath.maxIterations)%nat.
Proof.
  unfold SoilMath.loopCondition.
  rewrite andb_true_iff, ltb_true, Nat.ltb_lt. tauto.
Qed.

Lemma loopCondition_false (s : SoilMath.LoopState) :
  SoilMath.loopCondition s = false
  <-> Rabs (SoilMath.term s) <= SoilMath.tolerance
      \/ (SoilMath.maxIterations <= SoilMath.n s)%nat.
Proof.
  unfold SoilMath.loopCondition.
  rewrite andb_false_iff, ltb_false, Nat.ltb_ge. tauto.
Qed.

Lemma loopBody_n (k alpha : R) (s : SoilMath.LoopState) :
  SoilMath.n (SoilMath.loopBody k alpha s) = S (SoilMath.n s).
Proof. reflexivity. Qed.

(** Fuel above the distance of the counter to the cap lets the loop end. *)
Lemma while_enough_fuel (k alpha : R) (fuel : nat) :
  forall s : SoilMath.LoopState,
    (SoilMath.maxIterations - SoilMath.n s < fuel)%nat ->
    exists s', SoilMath.while fuel k alpha s = Some s'.
Proof.
  induction fuel as [ | fuel IH]; intros s Hfuel; [ lia | ].
  cbn [SoilMath.while].
  destruct (SoilMath.loopCondition s) eqn:Hc; [ | eauto ].
  apply loopCondition_true in Hc. destruct Hc as [_ Hn].
  apply IH. rewrite loopBody_n. lia.
Qed.

(** More fuel does not change the state the loop ends in. *)
Lemma while_more_fuel (k alpha : R) (fuel : nat) :
  forall (s s' : SoilMath.LoopState) (fuel' : nat),
    SoilMath.while fuel k alpha s = Some s' -> (fuel <= fuel')%nat ->
    SoilMath.while fuel' k alpha s = Some s'.
Proof.
  induction fuel as [ | fuel IH]; intros s s' fuel' Hw Hle; [ discriminate | ].
  destruct fuel' as [ | fuel']; [ lia | ].
  cbn [SoilMath.while] in *.
  destruct (SoilMath.loopCondition s); [ | exact Hw ].
  apply IH; [ exact Hw | lia ].
Qed.

(** A run of the fuelled loop is a run of the loop, and the counter counts
    its passes. *)
Lemma while_iterates (k alpha : R) (fuel : nat) :
  forall s s' : SoilMath.LoopState,
    SoilMath.while fuel k alpha s = Some s' ->
    exists j : nat,
      SoilMath.iterates k alpha j s s' /\ SoilMath.n s' = (SoilMath.n s + j)%nat.
Proof.
  induction fuel as [ | fuel IH]; intros s s' Hw; [ discriminate | ].
  cbn [SoilMath.while] in Hw.
  destruct (SoilMath.loopCondition s) eqn:Hc.
  - destruct (IH _ _ Hw) as (j & Hj & Hn). exists (S j). split.
    + now apply SoilMath.iterates_pass.
    + rewrite Hn, loopBody_n. lia.
  - injection Hw as <-. exists 0%nat. split.
    + now apply SoilMath.iterates_exit.
    + lia.
Qed.

(** The loop never passes the cap: after a pass the counter is at most it. *)
Lemma iterates_bound (k alpha : R) (j : nat) (s s' : SoilMath.LoopState) :
  SoilMath.iterates k alpha j s s' ->
  SoilMath.loopCondition s' = false
  /\ SoilMath.n s' = (SoilMath.n s + j)%nat
  /\ (0 < j -> SoilMath.n s' <= SoilMath.maxIterations)%nat.
Proof.
  induction 1 as [s Hc | j s s' Hc Hrun IH].
  - repeat split; [ exact Hc | lia | lia ].
  - destruct IH as (Hexit & Hn & Hcap). rewrite loopBody_n in Hn.
    apply loopCondition_true in Hc. destruct Hc as [_ Hlt].
    repeat split; [ exact Hexit | lia | ].
    intros _. destruct j as [ | j]; [ | apply Hcap; lia ].
    rewrite Hn. lia.
Qed.

(** The loop is deterministic. *)
Lemma iterates_unique (k alpha : R) (j : nat) (s s1 : SoilMath.LoopState) :
  SoilMath.iterates k alpha j s s1 ->
  forall (j' : nat) (s2 : SoilMath.LoopState),
    SoilMath.iterates k alpha j' s s2 -> j = j' /\ s1 = s2.
Proof.
  induction 1 as [s Hc | j s s1 Hc Hrun IH]; intros j' s2 H2; inversion H2; subst.
  - split; reflexivity.
  - congruence.
  - congruence.
  - match goal with
    | H : SoilMath.iterates _ _ _ (SoilMath.loopBody _ _ _) s2 |- _ =>
      destruct (IH _ _ H) as [-> ->]
    end.
    split; reflexivity.
Qed.

(** With [k = 0] the first term is 0 and the loop leaves after one pass. *)
Lemma while_k_zero (alpha : R) (fuel : nat) :
  alpha <> 0 ->
  SoilMath.while (S (S fuel)) 0 alpha SoilMath.initial
  = Some {| SoilMath.sum := 0; SoilMath.n := 2; SoilMath.term := 0 |}.
Proof.
  intros Ha.
  assert (Hmax : (1 < SoilMath.maxIterations)%nat)
    by (pose proof maxIterations_value; lia).
  assert (Htol : 0 < SoilMath.tolerance) by (unfold SoilMath.tolerance; lra).
  assert (Hbody : SoilMath.loopBody 0 alpha SoilMath.initial
                  = {| SoilMath.sum := 0; SoilMath.n := 2; SoilMath.term := 0 |}).
  { unfold SoilMath.loopBody, SoilMath.initial. cbn.
    f_equal; unfold Rdiv; ring. }
  cbn [SoilMath.while].
  replace (SoilMath.loopCondition SoilMath.initial) with true.
  - rewrite Hbody.
    replace (SoilMath.loopCondition
               {| SoilMath.sum := 0; SoilMath.n := 2; SoilMath.term := 0 |})
      with false; [ reflexivity | ].
    symmetry. apply loopCondition_false. left. cbn. rewrite Rabs_R0. lra.
  - symmetry. apply loopCondition_true. cbn. rewrite Rabs_R1.
    unfold SoilMath.tolerance. split; [ lra | lia ].
Qed.

(** C6.  [calculateN] terminates for every real [k] and [alpha]: it is 1 at
    once for [alpha = 0]; otherwise its loop leaves after fewer than 10000
    passes, in a state where the last term is within the tolerance or the
    counter has reached the cap; that run is the only one, and any fuel from
    the cap on computes the same value.  A term below the tolerance [1e-6] stops the loop, and so
    does a counter at the cap.  For [k = 0] and [alpha > 0] the value is
    exactly 1. *)
Theorem calculateN_terminates (k alpha : R) :
  (alpha = 0 -> SoilMath.calculateN k alpha = 1)
  /\ (alpha <> 0 ->
      exists (j : nat) (s' : SoilMath.LoopState),
        SoilMath.iterates k alpha j SoilMath.initial s'
        /\ (j < SoilMath.maxIterations)%nat
        /\ Z.of_nat SoilMath.maxIterations = 10000%Z
        /\ (Rabs (SoilMath.term s') <= 1e-6 \/ Z.of_nat (SoilMath.n s') = 10000%Z)
        /\ SoilMath.calculateN k alpha = 1 + 2 * SoilMath.sum s'
        /\ (forall (j' : nat) (s'' : SoilMath.LoopState),
              SoilMath.iterates k alpha j' SoilMath.initial s'' -> j' = j /\ s'' = s'))
  /\ (forall fuel : nat, (SoilMath.maxIterations <= fuel)%nat ->
      SoilMath.calculateN_fuel fuel k alpha = Some (SoilMath.calculateN k alpha))
  /\ (forall s : SoilMath.LoopState,
      Rabs (SoilMath.term s) < 1e-6 -> SoilMath.loopCondition s = false)
  /\ (forall s : SoilMath.LoopState,
      (10000 <= Z.of_nat (SoilMath.n s))%Z -> SoilMath.loopCondition s = false)
  /\ (0 < alpha -> SoilMath.calculateN 0 alpha = 1).
Proof.
  pose proof maxIterations_value as Hmax.
  destruct (while_enough_fuel k alpha SoilMath.maxIterations SoilMath.initial)
    as [s' Hrun]; [ cbn; lia | ].
  destruct (while_iterates _ _ _ _ _ Hrun) as (j & Hj & Hn).
  destruct (iterates_bound _ _ _ _ _ Hj) as (Hexit & _ & Hcap).
  cbn in Hn.
  assert (Hvalue : alpha <> 0 -> SoilMath.calculateN k alpha = 1 + 2 * SoilMath.sum s').
  { intros Ha. unfold SoilMath.calculateN, SoilMath.calculateN_fuel.
    replace (alpha =? 0) with false by (symmetry; apply eqb_false; exact Ha).
    rewrite Hrun. reflexivity. }
  split; [ | split; [ | split; [ | split; [ | split ] ] ] ].
  - intros ->. unfold SoilMath.calculateN, SoilMath.calculateN_fuel.
    replace (0 =? 0) with true by (symmetry; apply eqb_true; reflexivity).
    reflexivity.
  - intros Ha. exists j, s'. split; [ exact Hj | ].
    split; [ | split; [ exact Hmax | split; [ | split; [ exact (Hvalue Ha) | ] ] ] ].
    + destruct j as [ | j]; [ lia | ]. specialize (Hcap ltac:(lia)). lia.
    + apply loopCondition_false in Hexit. unfold SoilMath.tolerance in Hexit.
      destruct Hexit as [Hterm | Hn']; [ left; exact Hterm | right ].
      destruct j as [ | j]; [ lia | ]. specialize (Hcap ltac:(lia)). lia.
    + intros j' s'' Hrun'.
      destruct (iterates_unique _ _ _ _ _ Hrun' _ _ Hj) as [-> ->].
      split; reflexivity.
  - intros fuel Hfuel. unfold SoilMath.calculateN, SoilMath.calculateN_fuel.
    destruct (alpha =? 0); [ reflexivity | ].
    rewrite Hrun, (while_more_fuel _ _ _ _ _ _ Hrun Hfuel). reflexivity.
  - intros s Hs. apply loopCondition_false. left.
    unfold SoilMath.tolerance. lra.
  - intros s Hs. apply loopCondition_false. right. lia.
  - intros Ha. unfold SoilMath.calculateN, SoilMath.calculateN_fuel.
    replace (alpha =? 0) with false by (symmetry; apply eqb_false; lra).
    assert (H2 : (2 <= SoilMath.maxIterations)%nat) by lia.
    rewrite (while_more_fuel 0 alpha 2 _ _ _ (while_k_zero alpha 0 ltac:(lra)) H2).
    cbn. ring.
Qed.

(** ** C5: apparent resistivity *)

(** C5.  [calculateApparentResistivity] returns [rho1] itself when the soil
    is homogeneous: no [rho2] (absent, or the falsy number 0), [rho2] equal
    to [rho1], or [h1 <= 0]; so it does at [rho1 = rho2 = 100], [h1 = 2],
    [r = 5].  Otherwise it returns [calculateN k (r / h1) * rho1] with [k]
    the reflection coefficient, which is [(rho2 - rho1) / (rho2 + rho1)]
    whenever that quotient is defined. *)
Theorem calculateApparentResistivity_cases (rho1 h1 r : R) (rho2 : option R) :
  ((rho2 = None \/ rho2 = Some 0 \/ rho2 = Some rho1 \/ h1 <= 0) ->
     SoilMath.calculateApparentResistivity rho1 rho2 h1 r = rho1)
  /\ (forall x : R, 0 < h1 ->
        SoilMath.calculateApparentResistivity x (Some x) h1 r = x)
  /\ SoilMath.calculateApparentResistivity 100 (Some 100) 2 5 = 100
  /\ (forall x : R, rho2 = Some x -> x <> 0 -> x <> rho1 -> 0 < h1 ->
        SoilMath.calculateApparentResistivity rho1 rho2 h1 r
        = SoilMath.calculateN (SoilMath.calculateReflectionK rho1 x) (r / h1) * rho1
        /\ (rho1 + x <> 0 ->
            SoilMath.calculateReflectionK rho1 x = (x - rho1) / (x + rho1))
        /\ (rho1 + x <> 0 ->
            SoilMath.calculateApparentResistivity rho1 rho2 h1 r
            = SoilMath.calculateN ((x - rho1) / (x + rho1)) (r / h1) * rho1)).
Proof.
  assert (Hsame : forall x h r', SoilMath.calculateApparentResistivity x (Some x) h r' = x).
  { intros x h r'. unfold SoilMath.calculateApparentResistivity.
    replace (x =? x) with true by (symmetry; apply eqb_true; reflexivity).
    now rewrite orb_true_r. }
  split; [ | split; [ | split ] ].
  - intros [-> | [-> | [-> | Hh]]].
    + reflexivity.
    + unfold SoilMath.calculateApparentResistivity.
      replace (0 =? 0) with true by (symmetry; apply eqb_true; reflexivity).
      reflexivity.
    + apply Hsame.
    + destruct rho2 as [x | ]; [ | reflexivity ].
      unfold SoilMath.calculateApparentResistivity.
      guard_le_true h1 0. now rewrite !orb_true_r.
  - intros x _. apply Hsame.
  - apply Hsame.
  - intros x -> Hx0 Hx1 Hh.
    assert (Hotherwise :
              SoilMath.calculateApparentResistivity rho1 (Some x) h1 r
              = SoilMath.calculateN (SoilMath.calculateReflectionK rho1 x) (r / h1) * rho1).
    { unfold SoilMath.calculateApparentResistivity.
      replace (x =? 0) with false by (symmetry; apply eqb_false; exact Hx0).
      replace (x =? rho1) with false by (symmetry; apply eqb_false; exact Hx1).
      replace (h1 =? 0) with false by (symmetry; apply eqb_false; lra).
      guard_le_false h1 0. reflexivity. }
    assert (Hk : rho1 + x <> 0 ->
                 SoilMath.calculateReflectionK rho1 x = (x - rho1) / (x + rho1)).
    { intros Hsum. unfold SoilMath.calculateReflectionK.
      replace (rho1 + x =? 0) with false by (symmetry; apply eqb_false; exact Hsum).
      reflexivity. }
    split; [ exact Hotherwise | split; [ exact Hk | ] ].
    intros Hsum. rewrite Hotherwise, (Hk Hsum). reflexivity.
Qed.

(** ** C7: the presumed touch voltage curve *)

(** The last element of a list that has one does not depend on the default. *)
Lemma last_default {A : Type} (l : list A) (d d' : A) :
  l <> [] -> last l d = last l d'.
Proof.
  induction l as [ | a l IH]; intros Hne; [ congruence | ].
  destruct l as [ | b l]; [ reflexivity | ].
  cbn [last] in *. apply IH. discriminate.
Qed.

(** When [x] lies between the first and the last abscissa, the loop finds a
    bracket of consecutive points around [x] and answers on it. *)
Lemma interpolateBrackets_bracket (x : R) (points : list GroundingMath.NBR14039Point) :
  forall p : GroundingMath.NBR14039Point,
    points <> [] ->
    GroundingMath.t p <= x ->
    x <= GroundingMath.t (last (p :: points) p) ->
    exists l1 p1 p2 l2,
      p :: points = l1 ++ p1 :: p2 :: l2
      /\ GroundingMath.t p1 <= x <= GroundingMath.t p2
      /\ GroundingMath.interpolateBrackets (p :: points) x
         = GroundingMath.interpolateSegment p1 p2 x.
Proof.
  induction points as [ | p2 rest IH]; intros p Hne Hlo Hhi; [ congruence | ].
  cbn [GroundingMath.interpolateBrackets].
  destruct (Rle_dec x (GroundingMath.t p2)) as [Hle | Hgt].
  - exists [], p, p2, rest. split; [ reflexivity | ]. split; [ lra | ].
    replace (x >=? GroundingMath.t p) with true by (symmetry; apply leb_true; lra).
    replace (x <=? GroundingMath.t p2) with true by (symmetry; apply leb_true; lra).
    reflexivity.
  - replace (x <=? GroundingMath.t p2) with false by (symmetry; apply leb_false; lra).
    rewrite andb_false_r.
    assert (Hrest : rest <> []).
    { intros ->. cbn in Hhi. lra. }
    destruct (IH p2 Hrest) as (l1 & q1 & q2 & l2 & Hsplit & Hin & Hval).
    + lra.
    + rewrite (last_default (p2 :: rest) p2 p) by discriminate.
      destruct rest as [ | p3 rest']; [ congruence | ]. exact Hhi.
    + exists (p :: l1), q1, q2, l2. split; [ | split; assumption ].
      cbn. now rewrite Hsplit.
Qed.

(** On a bracket the answer is linear in log10 t and log10 v. *)
Lemma interpolateSegment_loglog (p1 p2 : GroundingMath.NBR14039Point) (x : R) :
  JS.log10 (GroundingMath.interpolateSegment p1 p2 x)
  = JS.log10 (GroundingMath.v p1)
    + (JS.log10 (GroundingMath.v p2) - JS.log10 (GroundingMath.v p1))
      * ((JS.log10 x - JS.log10 (GroundingMath.t p1))
         / (JS.log10 (GroundingMath.t p2) - JS.log10 (GroundingMath.t p1))).
Proof.
  unfold GroundingMath.interpolateSegment, JS.pow. cbv zeta.
  unfold JS.log10 at 1. rewrite ln_Rpower.
  assert (Hln : ln 10 <> 0).
  { apply Rgt_not_eq. rewrite <- ln_1. apply ln_increasing; lra. }
  set (logV := JS.log10 (GroundingMath.v p1) + _).
  field. exact Hln.
Qed.

(** A finite positive duration is clamped and looked up on the curve. *)
Lemma calculateNBR14039TouchVoltage_finite (x : R) (area : GroundingMath.NBR14039Area) :
  0 < x ->
  GroundingMath.calculateNBR14039TouchVoltage (JS.Finite x) area
  = Some (GroundingMath.interpolateLogLog (GroundingMath.nbr14039Curve area)
            (Rmin (Rmax x 0.01) 10)).
Proof.
  intros Hx. unfold GroundingMath.calculateNBR14039TouchVoltage.
  cbn [JS.Number_isFinite JS.number_leb JS.value negb orb].
  guard_le_false x 0. destruct area; reflexivity.
Qed.

(** C7.  [calculateNBR14039TouchVoltage] answers [null] for a duration that
    is not finite or not positive.  Any other duration is clamped to
    [0.01, 10] and looked up on the 7 points of the curve: at or below 0.01
    the answer is the first tabulated value and at or above 10 the last one,
    with no interpolation (1000 and 120 on the internal curve); strictly
    between, it is the value on a bracket of consecutive points around the
    duration, linear in log10 t and log10 v. *)
Theorem calculateNBR14039TouchVoltage_curve (area : GroundingMath.NBR14039Area) :
  (forall x : JS.number,
     (JS.Number_isFinite x = false \/ exists r, x = JS.Finite r /\ r <= 0) ->
     GroundingMath.calculateNBR14039TouchVoltage x area = None)
  /\ (forall r : R, 0 < r ->
        0.01 <= Rmin (Rmax r 0.01) 10 <= 10
        /\ GroundingMath.calculateNBR14039TouchVoltage (JS.Finite r) area
           = Some (GroundingMath.interpolateLogLog (GroundingMath.nbr14039Curve area)
                     (Rmin (Rmax r 0.01) 10)))
  /\ List.length (GroundingMath.nbr14039Curve area) = 7%nat
  /\ (forall r : R, 0 < r <= 0.01 ->
        GroundingMath.calculateNBR14039TouchVoltage (JS.Finite r) area
        = Some (match area with
                | GroundingMath.interna => 1000
                | GroundingMath.externa => 800
                end))
  /\ (forall r : R, 10 <= r ->
        GroundingMath.calculateNBR14039TouchVoltage (JS.Finite r) area
        = Some (match area with
                | GroundingMath.interna => 120
                | GroundingMath.externa => 90
                end))
  /\ (forall r : R, 0.01 < r < 10 ->
        exists l1 p1 p2 l2,
          GroundingMath.nbr14039Curve area = l1 ++ p1 :: p2 :: l2
          /\ GroundingMath.t p1 <= r <= GroundingMath.t p2
          /\ GroundingMath.calculateNBR14039TouchVoltage (JS.Finite r) area
             = Some (GroundingMath.interpolateSegment p1 p2 r)
          /\ JS.log10 (GroundingMath.interpolateSegment p1 p2 r)
             = JS.log10 (GroundingMath.v p1)
               + (JS.log10 (GroundingMath.v p2) - JS.log10 (GroundingMath.v p1))
                 * ((JS.log10 r - JS.log10 (GroundingMath.t p1))
                    / (JS.log10 (GroundingMath.t p2) - JS.log10 (GroundingMath.t p1))))
  /\ GroundingMath.calculateNBR14039TouchVoltage (JS.Finite 0.01) GroundingMath.interna
     = Some 1000
  /\ GroundingMath.calculateNBR14039TouchVoltage (JS.Finite 10) GroundingMath.interna
     = Some 120.
Proof.
  assert (Hlow : forall (a : GroundingMath.NBR14039Area) (r : R), 0 < r <= 0.01 ->
            GroundingMath.calculateNBR14039TouchVoltage (JS.Finite r) a
            = Some (match a with
                    | GroundingMath.interna => 1000
                    | GroundingMath.externa => 800
                    end)).
  { intros a r [H0 H1]. rewrite calculateNBR14039TouchVoltage_finite by exact H0.
    rewrite Rmax_right by exact H1. rewrite Rmin_left by lra.
    destruct a; cbn [GroundingMath.nbr14039Curve GroundingMath.nbr14039InternalCurve
                       GroundingMath.nbr14039ExternalCurve
                       GroundingMath.interpolateLogLog GroundingMath.t GroundingMath.v];
      guard_le_true 0.01 0.01; reflexivity. }
  assert (Hhigh : forall (a : GroundingMath.NBR14039Area) (r : R), 10 <= r ->
            GroundingMath.calculateNBR14039TouchVoltage (JS.Finite r) a
            = Some (match a with
                    | GroundingMath.interna => 120
                    | GroundingMath.externa => 90
                    end)).
  { intros a r H10. rewrite calculateNBR14039TouchVoltage_finite by lra.
    rewrite Rmax_left by lra. rewrite Rmin_right by exact H10.
    destruct a; cbn [GroundingMath.nbr14039Curve GroundingMath.nbr14039InternalCurve
                       GroundingMath.nbr14039ExternalCurve
                       GroundingMath.interpolateLogLog GroundingMath.t GroundingMath.v
                       List.length Nat.sub nth];
      guard_le_false 10 0.01; guard_le_true 10 10; reflexivity. }
  split; [ | split; [ | split; [ | split; [ | split; [ | split; [ | split ] ] ] ] ] ].
  - intros x [Hx | [r [-> Hr]]]; unfold GroundingMath.calculateNBR14039TouchVoltage.
    + rewrite Hx. reflexivity.
    + cbn [JS.Number_isFinite JS.number_leb negb orb].
      guard_le_true r 0. reflexivity.
  - intros r Hr. split; [ | apply calculateNBR14039TouchVoltage_finite; exact Hr ].
    unfold Rmin, Rmax.
    destruct (Rle_dec r 0.01); destruct (Rle_dec _ 10); lra.
  - destruct area; reflexivity.
  - intros r Hr. apply Hlow. exact Hr.
  - intros r Hr. apply Hhigh. exact Hr.
  - intros r [H0 H1]. rewrite calculateNBR14039TouchVoltage_finite by lra.
    rewrite Rmax_left by lra. rewrite Rmin_left by lra.
    assert (Hbr : exists l1 p1 p2 l2,
               GroundingMath.nbr14039Curve area = l1 ++ p1 :: p2 :: l2
               /\ GroundingMath.t p1 <= r <= GroundingMath.t p2
               /\ GroundingMath.interpolateBrackets (GroundingMath.nbr14039Curve area) r
                  = GroundingMath.interpolateSegment p1 p2 r).
    { destruct area; apply interpolateBrackets_bracket;
        try discriminate; cbn [last GroundingMath.t]; lra. }
    destruct Hbr as (l1 & p1 & p2 & l2 & Hsplit & Hin & Hval).
    exists l1, p1, p2, l2. split; [ exact Hsplit | ]. split; [ exact Hin | ].
    split; [ | apply interpolateSegment_loglog ].
    rewrite <- Hval. f_equal.
    destruct area; cbn [GroundingMath.nbr14039Curve GroundingMath.nbr14039InternalCurve
                          GroundingMath.nbr14039ExternalCurve
                          GroundingMath.interpolateLogLog GroundingMath.t GroundingMath.v
                          List.length Nat.sub nth];
      guard_le_false r 0.01; guard_le_false 10 r; reflexivity.
  - apply (Hlow GroundingMath.interna). lra.
  - apply (Hhigh GroundingMath.interna). lra.
Qed.

(** ** C8: the step visualisation is normalised *)

Lemma gradient_nonneg (M : list (list R)) (rows cols r c : nat) :
  0 <= PotentialField.gradient M rows cols r c.
Proof. unfold PotentialField.gradient. cbv zeta. apply sqrt_pos. Qed.

(** The running maximum ends at its start or at an element, above both. *)
Lemma fold_updateMax_ge (l : list R) :
  forall a : R,
    a <= fold_left PotentialField.updateMax l a
    /\ (forall x, In x l -> x <= fold_left PotentialField.updateMax l a).
Proof.
  induction l as [ | g l IH]; intros a; cbn [fold_left].
  - split; [ lra | intros x [] ].
  - destruct (IH (PotentialField.updateMax a g)) as [Hstart Hall].
    assert (Hup : a <= PotentialField.updateMax a g /\ g <= PotentialField.updateMax a g).
    { unfold PotentialField.updateMax, JS.ltb. destruct (Rlt_dec a g); lra. }
    split; [ lra | ].
    intros x [<- | Hx]; [ lra | apply Hall; exact Hx ].
Qed.

Lemma fold_updateMax_attained (l : list R) :
  forall a : R,
    fold_left PotentialField.updateMax l a = a
    \/ In (fold_left PotentialField.updateMax l a) l.
Proof.
  induction l as [ | g l IH]; intros a; cbn [fold_left]; [ left; reflexivity | ].
  destruct (IH (PotentialField.updateMax a g)) as [Heq | Hin].
  - rewrite Heq. unfold PotentialField.updateMax.
    destruct (g >? a); [ right; left; reflexivity | left; reflexivity ].
  - right. right. exact Hin.
Qed.

Lemma nth_map_seq {A : Type} (f : nat -> A) (len i : nat) (d : A) :
  (i < len)%nat -> nth i (map f (seq 0 len)) d = f i.
Proof.
  intros Hi. rewrite (nth_indep _ d (f 0%nat)) by (now rewrite length_map, length_seq).
  rewrite map_nth, seq_nth by exact Hi. reflexivity.
Qed.

(** The matrix built row by row over the index ranges, read at a cell. *)
Lemma cell_of_table (f : nat -> nat -> R) (rows cols r c : nat) :
  (r < rows)%nat -> (c < cols)%nat ->
  PotentialField.cell
    (map (fun r => map (fun c => f r c) (seq 0 cols)) (seq 0 rows)) r c
  = f r c.
Proof.
  intros Hr Hc. unfold PotentialField.cell.
  rewrite (nth_map_seq (fun r => map (fun c => f r c) (seq 0 cols))) by exact Hr.
  apply (nth_map_seq (f r)). exact Hc.
Qed.

Lemma in_table (f : nat -> nat -> R) (rows cols : nat) (x : R) :
  In x (concat (map (fun r => map (fun c => f r c) (seq 0 cols)) (seq 0 rows)))
  <-> exists r c, (r < rows)%nat /\ (c < cols)%nat /\ x = f r c.
Proof.
  rewrite in_concat. split.
  - intros (row & Hrow & Hx). apply in_map_iff in Hrow. destruct Hrow as (r & <- & Hr).
    apply in_map_iff in Hx. destruct Hx as (c & <- & Hc).
    apply in_seq in Hr. apply in_seq in Hc. exists r, c. repeat split; lia.
  - intros (r & c & Hr & Hc & ->).
    exists (map (fun c => f r c) (seq 0 cols)). split.
    + apply in_map_iff. exists r. split; [ reflexivity | apply in_seq; lia ].
    + apply in_map_iff. exists c. split; [ reflexivity | apply in_seq; lia ].
Qed.

Lemma table_entries (P : R -> Prop) (f : nat -> nat -> R) (rows cols : nat) :
  (forall r c, (r < rows)%nat -> (c < cols)%nat -> P (f r c)) ->
  Forall (Forall P) (map (fun r => map (fun c => f r c) (seq 0 cols)) (seq 0 rows)).
Proof.
  intros H. apply Forall_map, Forall_forall. intros r Hr.
  apply Forall_map, Forall_forall. intros c Hc.
  apply in_seq in Hr. apply in_seq in Hc. apply H; lia.
Qed.

Lemma table_shape (f : nat -> nat -> R) (rows cols : nat) :
  List.length (map (fun r => map (fun c => f r c) (seq 0 cols)) (seq 0 rows)) = rows
  /\ Forall (fun row => List.length row = cols)
       (map (fun r => map (fun c => f r c) (seq 0 cols)) (seq 0 rows)).
Proof.
  split.
  - now rewrite length_map, length_seq.
  - apply Forall_map, Forall_forall. intros r _. now rewrite length_map, length_seq.
Qed.

(** Normalising the table divides each of its cells. *)
Lemma normalise_table (f : nat -> nat -> R) (rows cols : nat) (maxStep : R) :
  map (fun row => map (fun grad => grad / maxStep) row)
      (map (fun r => map (fun c => f r c) (seq 0 cols)) (seq 0 rows))
  = map (fun r => map (fun c => f r c / maxStep) (seq 0 cols)) (seq 0 rows).
Proof.
  rewrite map_map. apply map_ext. intros r. now rewrite map_map.
Qed.

(** The table of gradients, its running maximum and the normalised output,
    read cell by cell. *)
Lemma calculateStepMatrix_table (potentialMatrix : list (list R)) (cols : nat) :
  potentialMatrix <> [] ->
  Forall (fun row => List.length row = cols) potentialMatrix ->
  let rows := List.length potentialMatrix in
  let grad := PotentialField.gradient potentialMatrix rows cols in
  exists stepMatrix : list (list R),
    PotentialField.calculateStepMatrix potentialMatrix = Some stepMatrix
    /\ List.length stepMatrix = rows
    /\ Forall (fun row => List.length row = cols) stepMatrix
    /\ Forall (Forall (fun x => 0 <= x <= 1)) stepMatrix
    /\ ((exists r c, (r < rows)%nat /\ (c < cols)%nat /\ grad r c <> 0) ->
        exists r c, (r < rows)%nat /\ (c < cols)%nat
          /\ PotentialField.cell stepMatrix r c = 1
          /\ (forall r' c', (r' < rows)%nat -> (c' < cols)%nat -> grad r' c' <= grad r c)
          /\ (forall r' c', (r' < rows)%nat -> (c' < cols)%nat ->
                PotentialField.cell stepMatrix r' c' = grad r' c' / grad r c))
    /\ ((forall r c, (r < rows)%nat -> (c < cols)%nat -> grad r c = 0) ->
        Forall (Forall (fun x => x = 0)) stepMatrix).
Proof.
  intros Hne Hrect rows grad.
  set (table := map (fun r => map (fun c => grad r c) (seq 0 cols)) (seq 0 rows)).
  set (maxStep := fold_left PotentialField.updateMax (concat table) 0).
  assert (Hrun : PotentialField.calculateStepMatrix potentialMatrix
                 = Some (if maxStep >? 0
                         then map (fun row => map (fun g => g / maxStep) row) table
                         else table)).
  { subst maxStep table grad rows.
    destruct potentialMatrix as [ | row0 rest]; [ congruence | ].
    inversion Hrect as [ | ? ? Hcols _ ]. subst cols. reflexivity. }
  rewrite Hrun. clear Hrun.
  assert (Hge : forall r c, (r < rows)%nat -> (c < cols)%nat -> grad r c <= maxStep).
  { intros r c Hr Hc. apply (fold_updateMax_ge (concat table) 0).
    apply in_table. exists r, c. repeat split; assumption. }
  assert (Hpos : forall r c, 0 <= grad r c) by (intros; apply gradient_nonneg).
  assert (Hatt : maxStep = 0
                 \/ exists r c, (r < rows)%nat /\ (c < cols)%nat /\ maxStep = grad r c).
  { destruct (fold_updateMax_attained (concat table) 0) as [H0 | Hin];
      [ left; exact H0 | right ].
    apply in_table in Hin. exact Hin. }
  destruct (Rlt_dec 0 maxStep) as [Hmax | Hmax].
  - replace (maxStep >? 0) with true by (symmetry; apply ltb_true; exact Hmax).
    unfold table. rewrite normalise_table.
    eexists. split; [ reflexivity | ].
    split; [ apply table_shape | ]. split; [ apply table_shape | ].
    split; [ | split ].
    + apply table_entries. intros r c Hr Hc. split.
      * apply Rmult_le_pos; [ apply Hpos | left; apply Rinv_0_lt_compat; exact Hmax ].
      * apply Rmult_le_reg_r with maxStep; [ exact Hmax | ].
        unfold Rdiv. rewrite Rmult_assoc, Rinv_l by lra.
        specialize (Hge r c Hr Hc). lra.
    + intros _. destruct Hatt as [H0 | (r & c & Hr & Hc & Hrc)]; [ lra | ].
      exists r, c. split; [ exact Hr | ]. split; [ exact Hc | ]. split; [ | split ].
      * rewrite (cell_of_table (fun r c => grad r c / maxStep)) by assumption.
        rewrite <- Hrc. unfold Rdiv. apply Rinv_r. lra.
      * intros r' c' Hr' Hc'. rewrite <- Hrc. apply Hge; assumption.
      * intros r' c' Hr' Hc'.
        rewrite (cell_of_table (fun r c => grad r c / maxStep)) by assumption.
        rewrite <- Hrc. reflexivity.
    + intros Hflat. exfalso.
      destruct Hatt as [H0 | (r & c & Hr & Hc & Hrc)]; [ lra | ].
      rewrite (Hflat r c Hr Hc) in Hrc. lra.
  - replace (maxStep >? 0) with false by (symmetry; apply ltb_false; lra).
    assert (Hzero : forall r c, (r < rows)%nat -> (c < cols)%nat -> grad r c = 0).
    { intros r c Hr Hc. specialize (Hge r c Hr Hc). specialize (Hpos r c). lra. }
    eexists. split; [ reflexivity | ].
    split; [ apply table_shape | ]. split; [ apply table_shape | ].
    split; [ | split ].
    + apply table_entries. intros r c Hr Hc. rewrite (Hzero r c Hr Hc). lra.
    + intros (r & c & Hr & Hc & Hrc). exfalso. apply Hrc, Hzero; assumption.
    + intros _. apply table_entries. exact Hzero.
Qed.

(** The magnitude [sqrt(dx*dx + dy*dy)] is 0 exactly when both differences
    are. *)
Lemma magnitude_zero (x y : R) :
  sqrt (Rabs x * Rabs x + Rabs y * Rabs y) = 0 <-> x = 0 /\ y = 0.
Proof.
  pose proof (Rabs_pos x) as Hx. pose proof (Rabs_pos y) as Hy. split.
  - intros H. apply sqrt_eq_0 in H; [ | nra ].
    assert (Hax : Rabs x = 0) by nra. assert (Hay : Rabs y = 0) by nra.
    split; [ revert Hax | revert Hay ]; unfold Rabs; destruct (Rcase_abs _); lra.
  - intros [-> ->]. rewrite Rabs_R0. replace (0 * 0 + 0 * 0) with 0 by ring.
    apply sqrt_0.
Qed.

(** C8.  For a non-empty rectangular potential matrix [calculateStepMatrix]
    returns a matrix of the same shape whose every entry lies in [0, 1].
    Write [v r c] for the entry [potentialMatrix[r][c]], [v_right] and
    [v_down] for its neighbours to the right and below (the entry itself on
    the last column and the last row) and [grad r c] for
    [sqrt(|v - v_right|^2 + |v - v_down|^2)].  Unless the field is flat
    (every entry equals both neighbours, that is every forward-difference
    gradient is 0) there is a cell where [grad] is maximal, the output is
    exactly 1 there and every output cell is [grad] over that maximum; and
    when the field is flat every output entry is 0. *)
Theorem calculateStepMatrix_normalised (potentialMatrix : list (list R)) (cols : nat) :
  potentialMatrix <> [] ->
  Forall (fun row => List.length row = cols) potentialMatrix ->
  let rows := List.length potentialMatrix in
  let v := fun r c : nat => nth c (nth r potentialMatrix []) 0 in
  let v_right := fun r c : nat =>
    if (c <? cols - 1)%nat then v r (c + 1)%nat else v r c in
  let v_down := fun r c : nat =>
    if (r <? rows - 1)%nat then v (r + 1)%nat c else v r c in
  let grad := fun r c : nat =>
    sqrt (Rabs (v r c - v_right r c) * Rabs (v r c - v_right r c)
          + Rabs (v r c - v_down r c) * Rabs (v r c - v_down r c)) in
  exists stepMatrix : list (list R),
    PotentialField.calculateStepMatrix potentialMatrix = Some stepMatrix
    /\ List.length stepMatrix = rows
    /\ Forall (fun row => List.length row = cols) stepMatrix
    /\ Forall (Forall (fun x => 0 <= x <= 1)) stepMatrix
    /\ ((exists r c, (r < rows)%nat /\ (c < cols)%nat
           /\ (v r c <> v_right r c \/ v r c <> v_down r c)) ->
        exists r c, (r < rows)%nat /\ (c < cols)%nat
          /\ nth c (nth r stepMatrix []) 0 = 1
          /\ (forall r' c', (r' < rows)%nat -> (c' < cols)%nat -> grad r' c' <= grad r c)
          /\ (forall r' c', (r' < rows)%nat -> (c' < cols)%nat ->
                nth c' (nth r' stepMatrix []) 0 = grad r' c' / grad r c))
    /\ ((forall r c, (r < rows)%nat -> (c < cols)%nat ->
           v r c = v_right r c /\ v r c = v_down r c) ->
        Forall (Forall (fun x => x = 0)) stepMatrix).
Proof.
  intros Hne Hrect rows v v_right v_down grad.
  assert (Hgrad : forall r c, PotentialField.gradient potentialMatrix rows cols r c = grad r c)
    by reflexivity.
  assert (Hflat : forall r c,
             grad r c = 0 <-> v r c = v_right r c /\ v r c = v_down r c).
  { intros r c. unfold grad. rewrite magnitude_zero. lra. }
  destruct (calculateStepMatrix_table potentialMatrix cols Hne Hrect)
    as (stepMatrix & Hrun & Hrows & Hcols & Hrange & Hone & Hzero).
  fold rows in Hrows, Hone, Hzero.
  exists stepMatrix. split; [ exact Hrun | ]. split; [ exact Hrows | ].
  split; [ exact Hcols | ]. split; [ exact Hrange | ]. split.
  - intros (r & c & Hr & Hc & Hdiff).
    destruct Hone as (r0 & c0 & Hr0 & Hc0 & Hcell & Hmax & Hall).
    { exists r, c. split; [ exact Hr | ]. split; [ exact Hc | ].
      rewrite Hgrad, Hflat. intros [H1 H2]. destruct Hdiff; contradiction. }
    exists r0, c0. split; [ exact Hr0 | ]. split; [ exact Hc0 | ].
    split; [ exact Hcell | ]. split.
    + intros r' c' Hr' Hc'. rewrite <- !Hgrad. apply Hmax; assumption.
    + intros r' c' Hr' Hc'. rewrite <- !Hgrad. apply Hall; assumption.
  - intros Hall. apply Hzero. intros r c Hr Hc.
    rewrite Hgrad. apply Hflat, Hall; assumption.
Qed.

(** A 2 by 2 field with one raised corner: it is not flat, so the output
    lies in [0, 1] and has a cell equal to 1. *)
Lemma calculateStepMatrix_normalised_witness :
  exists stepMatrix : list (list R),
    PotentialField.calculateStepMatrix [[1; 0]; [0; 0]] = Some stepMatrix
    /\ Forall (Forall (fun x => 0 <= x <= 1)) stepMatrix
    /\ exists r c, (r < 2)%nat /\ (c < 2)%nat /\ nth c (nth r stepMatrix []) 0 = 1.
Proof.
  destruct (calculateStepMatrix_normalised [[1; 0]; [0; 0]] 2)
    as (stepMatrix & Hrun & _ & _ & Hrange & Hone & _).
  - discriminate.
  - repeat constructor.
  - exists stepMatrix. split; [ exact Hrun | ]. split; [ exact Hrange | ].
    destruct Hone as (r & c & Hr & Hc & Hcell & _).
    + exists 0%nat, 0%nat. split; [ simpl; lia | ]. split; [ lia | ].
      left. cbn. lra.
    + exists r, c. repeat split; assumption.
Defined.

(** ** Further properties of the guards *)

(** X1.  A non-positive resistivity, area, conductor length, depth or
    conductor diameter yields the zero record, with [k1 = k2 = 0] and no
    [r1], [r2], [r12]. *)
Theorem calculateSchwarzResistance_invalid_inputs
  (rho A Lx Ly Lc h d_mm : R) (rods : option GroundingMath.Rods) :
  rho <= 0 \/ A <= 0 \/ Lc <= 0 \/ h <= 0 \/ d_mm <= 0 ->
  GroundingMath.calculateSchwarzResistance rho A Lx Ly Lc h d_mm rods
  = GroundingMath.Build_SchwarzResult 0 0 0 None None None.
Proof.
  intros H. unfold GroundingMath.calculateSchwarzResistance.
  replace ((rho <=? 0) || (A <=? 0) || (Lc <=? 0) || (h <=? 0) || (d_mm <=? 0))
    with true; [ reflexivity | ].
  symmetry. rewrite !orb_true_iff, !leb_true. tauto.
Qed.

Lemma calculateSchwarzResistance_invalid_inputs_witness :
  GroundingMath.calculateSchwarzResistance 100 2000 50 40 890 0 7.98 None
  = GroundingMath.Build_SchwarzResult 0 0 0 None None None.
Proof.
  apply (calculateSchwarzResistance_invalid_inputs 100 2000 50 40 890 0 7.98 None).
  right. right. right. left. lra.
Defined.

(** X2.  Rods of positive count and length but of diameter 0 are set aside
    by the guard on the rod radius: the grid value [r1] is returned, with
    [r2] and [r12] reported 0. *)
Theorem calculateSchwarzResistance_zero_rod_diameter
  (rho A Lx Ly Lc h d_mm : R) (rods : GroundingMath.Rods) :
  0 < rho -> 0 < A -> 0 < Lc -> 0 < h -> 0 < d_mm ->
  0 < GroundingMath.count rods -> 0 < GroundingMath.length rods ->
  GroundingMath.diameter_mm rods = 0 ->
  let res := GroundingMath.calculateSchwarzResistance rho A Lx Ly Lc h d_mm (Some rods) in
  GroundingMath.r1 res = Some (GroundingMath.resistance res)
  /\ GroundingMath.r2 res = Some 0
  /\ GroundingMath.r12 res = Some 0
  /\ res = GroundingMath.calculateSchwarzResistance rho A Lx Ly Lc h d_mm None.
Proof.
  intros Hrho HA HLc Hh Hd Hn Hl Hb res. subst res.
  pass_first_guard rho A Lc h d_mm.
  guard_le_false (GroundingMath.count rods) 0.
  guard_le_false (GroundingMath.length rods) 0.
  replace (GroundingMath.diameter_mm rods / 1000 / 2 =? 0) with true
    by (symmetry; apply eqb_true; rewrite Hb; lra).
  rewrite !orb_true_r. cbn. repeat split; reflexivity.
Qed.

Lemma calculateSchwarzResistance_zero_rod_diameter_witness :
  let res := GroundingMath.calculateSchwarzResistance 100 2000 50 40 890 0.5 7.98
               (Some (GroundingMath.Build_Rods 4 2.4 0)) in
  GroundingMath.r1 res = Some (GroundingMath.resistance res)
  /\ GroundingMath.r2 res = Some 0
  /\ GroundingMath.r12 res = Some 0
  /\ res = GroundingMath.calculateSchwarzResistance 100 2000 50 40 890 0.5 7.98 None.
Proof.
  apply (calculateSchwarzResistance_zero_rod_diameter 100 2000 50 40 890 0.5 7.98
           (GroundingMath.Build_Rods 4 2.4 0)); simpl; lra.
Defined.

(** X4.  [calculateKf] answers 0 when a material datum is not positive or
    when [tm <= ta].  Past that guard it also answers 0 when both
    temperatures lie below [20 - 1 / alpha20], where the linear resistivity
    law reaches 0: the temperature ratio is then strictly between 0 and 1,
    its logarithm is negative and so is the denominator. *)
Theorem calculateKf_invalid_inputs (alpha20 rho20 tcap tm ta : R) :
  (alpha20 <= 0 \/ rho20 <= 0 \/ tcap <= 0 \/ tm <= ta ->
   GroundingMath.calculateKf alpha20 rho20 tcap tm ta = 0)
  /\ (0 < alpha20 -> 0 < rho20 -> 0 < tcap -> ta < tm -> tm < 20 - 1 / alpha20 ->
      0 < (1 / alpha20 - 20 + tm) / (1 / alpha20 - 20 + ta) < 1
      /\ GroundingMath.calculateKf alpha20 rho20 tcap tm ta = 0).
Proof.
  split.
  - intros H. unfold GroundingMath.calculateKf.
    destruct ((alpha20 <=? 0) || (rho20 <=? 0) || (tcap <=? 0) || (tm <=? ta)) eqn:G;
      [ reflexivity | ].
    rewrite !orb_false_iff, !leb_false in G. lra.
  - intros Ha Hr Hc Htm Hlow.
    set (Ko := 1 / alpha20 - 20).
    assert (Hb : 0 < - (Ko + ta)) by (subst Ko; lra).
    assert (Hratio : 0 < (Ko + tm) / (Ko + ta) < 1).
    { replace ((Ko + tm) / (Ko + ta)) with (- (Ko + tm) / - (Ko + ta))
        by (field; lra).
      split.
      - apply Rdiv_lt_0_compat; subst Ko; lra.
      - apply Rmult_lt_reg_r with (- (Ko + ta)); [ exact Hb | ].
        unfold Rdiv. rewrite Rmult_assoc, Rinv_l by lra. lra. }
    split; [ exact Hratio | ].
    assert (Hln : ln ((Ko + tm) / (Ko + ta)) < 0).
    { rewrite <- ln_1. apply ln_increasing; lra. }
    unfold GroundingMath.calculateKf.
    guard_le_false alpha20 0. guard_le_false rho20 0. guard_le_false tcap 0.
    guard_le_false tm ta. cbn [orb]. cbv zeta. fold Ko.
    replace (tcap * ln ((Ko + tm) / (Ko + ta)) <=? 0) with true; [ reflexivity | ].
    symmetry. apply leb_true. nra.
Qed.

(** In exact arithmetic the interpolation passes through the tabulated
    points inside the range: one second on the internal curve gives 230 (the
    bracket from 0.3 s to 1 s, read at its upper end). *)
Example calculateNBR14039TouchVoltage_at_one_second :
  GroundingMath.calculateNBR14039TouchVoltage (JS.Finite 1) GroundingMath.interna
  = Some 230.
Proof.
  rewrite calculateNBR14039TouchVoltage_finite by lra.
  rewrite Rmax_left by lra. rewrite Rmin_left by lra.
  cbn [GroundingMath.nbr14039Curve GroundingMath.nbr14039InternalCurve
         GroundingMath.interpolateLogLog GroundingMath.interpolateBrackets
         GroundingMath.t GroundingMath.v List.length Nat.sub nth].
  guard_le_false 1 0.01. guard_le_false 10 1.
  replace (1 >=? 0.01) with true by (symmetry; apply leb_true; lra).
  guard_le_false 1 0.03. replace (1 >=? 0.03) with true by (symmetry; apply leb_true; lra).
  guard_le_false 1 0.1. replace (1 >=? 0.1) with true by (symmetry; apply leb_true; lra).
  guard_le_false 1 0.3. replace (1 >=? 0.3) with true by (symmetry; apply leb_true; lra).
  guard_le_true 1 1. cbn [andb].
  f_equal. unfold GroundingMath.interpolateSegment, JS.pow, JS.log10, Rpower.
  cbn [GroundingMath.t GroundingMath.v].
  assert (Hln10 : ln 10 <> 0).
  { apply Rgt_not_eq. rewrite <- ln_1. apply ln_increasing; lra. }
  assert (Hln03 : ln 1 - ln 0.3 <> 0).
  { rewrite ln_1. assert (ln 0.3 < 0) by (rewrite <- ln_1; apply ln_increasing; lra).
    lra. }
  replace ((ln 330 / ln 10
            + (ln 230 / ln 10 - ln 330 / ln 10)
              * ((ln 1 / ln 10 - ln 0.3 / ln 10) / (ln 1 / ln 10 - ln 0.3 / ln 10)))
           * ln 10)
    with (ln 230) by (field; split; assumption).
  apply exp_ln. lra.
Qed.

(** ** Further properties: radius and preliminary resistances *)

Lemma orb3_leb_false (a b c : R) :
  0 < a -> 0 < b -> 0 < c -> (a <=? 0) || (b <=? 0) || (c <=? 0) = false.
Proof.
  intros Ha Hb Hc. rewrite !orb_false_iff, !leb_false. tauto.
Qed.

(** X5.  The equivalent radius is 0 for a non-positive area; for a positive
    area it is the positive radius of the circle of that area:
    [PI * r * r = area]. *)
Theorem calculateEquivalentRadius_circle (area : R) :
  (area <= 0 -> SoilMath.calculateEquivalentRadius area = 0)
  /\ (0 < area ->
      0 < SoilMath.calculateEquivalentRadius area
      /\ PI * (SoilMath.calculateEquivalentRadius area
               * SoilMath.calculateEquivalentRadius area) = area).
Proof.
  unfold SoilMath.calculateEquivalentRadius. split; intros Ha.
  - guard_le_true area 0. reflexivity.
  - guard_le_false area 0.
    assert (Hq : 0 < area / PI) by (apply Rdiv_lt_0_compat; [ exact Ha | apply PI_RGT_0 ]).
    split; [ apply sqrt_lt_R0; exact Hq | ].
    rewrite sqrt_sqrt by lra. field. apply Rgt_not_eq, PI_RGT_0.
Qed.

(** X6.  Equation (a) returns a positive resistance exactly when the
    resistivity, the area and the conductor length are all positive, and 0
    otherwise; when positive it is [rho / (4 r) + rho / Lt] with [r] the
    equivalent radius of the mesh area. *)
Theorem calculatePreliminaryResistanceA_positive (rhoA A Lt : R) :
  (0 < GroundingMath.calculatePreliminaryResistanceA rhoA A Lt
   <-> 0 < rhoA /\ 0 < A /\ 0 < Lt)
  /\ (rhoA <= 0 \/ A <= 0 \/ Lt <= 0 ->
      GroundingMath.calculatePreliminaryResistanceA rhoA A Lt = 0)
  /\ (0 < rhoA -> 0 < A -> 0 < Lt ->
      GroundingMath.calculatePreliminaryResistanceA rhoA A Lt
      = rhoA / (4 * SoilMath.calculateEquivalentRadius A) + rhoA / Lt).
Proof.
  assert (Hinvalid : rhoA <= 0 \/ A <= 0 \/ Lt <= 0 ->
            GroundingMath.calculatePreliminaryResistanceA rhoA A Lt = 0).
  { intros H. unfold GroundingMath.calculatePreliminaryResistanceA.
    replace ((rhoA <=? 0) || (A <=? 0) || (Lt <=? 0)) with true; [ reflexivity | ].
    symmetry. rewrite !orb_true_iff, !leb_true. tauto. }
  assert (Hvalid : 0 < rhoA -> 0 < A -> 0 < Lt ->
            GroundingMath.calculatePreliminaryResistanceA rhoA A Lt
            = rhoA / (4 * sqrt (A / PI)) + rhoA / Lt
            /\ 0 < rhoA / (4 * sqrt (A / PI)) + rhoA / Lt).
  { intros Hr HA HL. unfold GroundingMath.calculatePreliminaryResistanceA.
    rewrite orb3_leb_false by assumption. split; [ reflexivity | ].
    assert (Hs : 0 < sqrt (A / PI)).
    { apply sqrt_lt_R0, Rdiv_lt_0_compat; [ exact HA | apply PI_RGT_0 ]. }
    apply Rplus_lt_0_compat; apply Rdiv_lt_0_compat; lra. }
  split; [ | split; [ exact Hinvalid | ] ].
  - split.
    + intros Hpos.
      destruct (Rlt_dec 0 rhoA) as [Hr | Hr];
        [ | rewrite Hinvalid in Hpos by lra; lra ].
      destruct (Rlt_dec 0 A) as [HA | HA];
        [ | rewrite Hinvalid in Hpos by lra; lra ].
      destruct (Rlt_dec 0 Lt) as [HL | HL];
        [ | rewrite Hinvalid in Hpos by lra; lra ].
      tauto.
    + intros (Hr & HA & HL). destruct (Hvalid Hr HA HL) as [-> Hpos]. exact Hpos.
  - intros Hr HA HL. destruct (Hvalid Hr HA HL) as [-> _].
    unfold SoilMath.calculateEquivalentRadius. guard_le_false A 0. reflexivity.
Qed.

(** X7.  Equation (b) returns a positive resistance exactly when the
    resistivity, the area, the conductor length and the depth are all
    positive, and 0 otherwise. *)
Theorem calculatePreliminaryResistanceB_positive (rhoA A Lt h : R) :
  (0 < GroundingMath.calculatePreliminaryResistanceB rhoA A Lt h
   <-> 0 < rhoA /\ 0 < A /\ 0 < Lt /\ 0 < h)
  /\ (rhoA <= 0 \/ A <= 0 \/ Lt <= 0 \/ h <= 0 ->
      GroundingMath.calculatePreliminaryResistanceB rhoA A Lt h = 0).
Proof.
  assert (Hinvalid : rhoA <= 0 \/ A <= 0 \/ Lt <= 0 \/ h <= 0 ->
            GroundingMath.calculatePreliminaryResistanceB rhoA A Lt h = 0).
  { intros H. unfold GroundingMath.calculatePreliminaryResistanceB.
    replace ((rhoA <=? 0) || (A <=? 0) || (Lt <=? 0) || (h <=? 0)) with true;
      [ reflexivity | ].
    symmetry. rewrite !orb_true_iff, !leb_true. tauto. }
  split; [ | exact Hinvalid ].
  split.
  - intros Hpos.
    destruct (Rlt_dec 0 rhoA) as [Hr | Hr];
      [ | rewrite Hinvalid in Hpos by lra; lra ].
    destruct (Rlt_dec 0 A) as [HA | HA];
      [ | rewrite Hinvalid in Hpos by lra; lra ].
    destruct (Rlt_dec 0 Lt) as [HL | HL];
      [ | rewrite Hinvalid in Hpos by lra; lra ].
    destruct (Rlt_dec 0 h) as [Hh | Hh];
      [ | rewrite Hinvalid in Hpos by lra; lra ].
    tauto.
  - intros (Hr & HA & HL & Hh). unfold GroundingMath.calculatePreliminaryResistanceB.
    replace ((rhoA <=? 0) || (A <=? 0) || (Lt <=? 0) || (h <=? 0)) with false
      by (symmetry; rewrite !orb_false_iff, !leb_false; tauto).
    cbv zeta.
    assert (Hs1 : 0 < sqrt (20 * A)) by (apply sqrt_lt_R0; lra).
    assert (Hs2 : 0 < sqrt (20 / A)) by (apply sqrt_lt_R0, Rdiv_lt_0_compat; lra).
    assert (Hd : 0 < 1 + h * sqrt (20 / A)).
    { apply Rplus_lt_0_compat; [ lra | apply Rmult_lt_0_compat; assumption ]. }
    assert (H1 : 0 < 1 / Lt) by (apply Rdiv_lt_0_compat; lra).
    assert (H2 : 0 < 1 / sqrt (20 * A)) by (apply Rdiv_lt_0_compat; lra).
    assert (H3 : 0 < 1 / (1 + h * sqrt (20 / A))) by (apply Rdiv_lt_0_compat; lra).
    apply Rmult_lt_0_compat; [ exact Hr | ].
    apply Rplus_lt_0_compat; [ exact H1 | ].
    apply Rmult_lt_0_compat; lra.
Qed.

(** A quotient of positive numbers rises with its numerator and falls with
    its denominator. *)
Lemma quotient_monotone (x1 x2 y1 y2 : R) :
  0 <= x1 -> x1 <= x2 -> 0 < y1 -> y1 <= y2 -> x1 / y2 <= x2 / y1.
Proof.
  intros Hx1 Hx Hy1 Hy. unfold Rdiv.
  assert (Hi : / y2 <= / y1) by (apply Rinv_le_contravar; lra).
  assert (Hp : 0 < / y2) by (apply Rinv_0_lt_compat; lra).
  apply Rmult_le_compat; lra.
Qed.

(** [1 / sqrt(20 A)] is [sqrt(20 / A) / 20]. *)
Lemma depth_term_scale (A : R) :
  0 < A -> 0 < sqrt (20 / A) /\ 1 / sqrt (20 * A) = sqrt (20 / A) / 20.
Proof.
  intros HA.
  assert (Hq : 0 < 20 / A) by (apply Rdiv_lt_0_compat; lra).
  assert (Hs : 0 < sqrt (20 / A)) by (apply sqrt_lt_R0; exact Hq).
  assert (Hp : 0 < sqrt (20 * A)) by (apply sqrt_lt_R0; lra).
  split; [ exact Hs | ].
  assert (Hprod : sqrt (20 / A) * sqrt (20 * A) = 20).
  { rewrite <- sqrt_mult by lra.
    replace (20 / A * (20 * A)) with (20 * 20) by (field; lra).
    apply sqrt_square. lra. }
  set (s := sqrt (20 / A)) in *. set (p := sqrt (20 * A)) in *.
  apply Rmult_eq_reg_r with (20 * p); [ | lra ].
  replace (1 / p * (20 * p)) with 20 by (field; lra).
  replace (s / 20 * (20 * p)) with (s * p) by field.
  lra.
Qed.

(** X8.  The preliminary resistances follow the data the way a grid does:
    with positive data, a lower resistivity, a larger area, more buried
    conductor and, for equation (b), a deeper grid never raise the
    result. *)
Theorem preliminary_resistances_monotone (rho1 rho2 A1 A2 Lt1 Lt2 h1 h2 : R) :
  0 < rho1 -> rho1 <= rho2 -> 0 < A1 -> A1 <= A2 -> 0 < Lt1 -> Lt1 <= Lt2 ->
  0 < h1 -> h1 <= h2 ->
  GroundingMath.calculatePreliminaryResistanceA rho1 A2 Lt2
  <= GroundingMath.calculatePreliminaryResistanceA rho2 A1 Lt1
  /\ GroundingMath.calculatePreliminaryResistanceB rho1 A2 Lt2 h2
     <= GroundingMath.calculatePreliminaryResistanceB rho2 A1 Lt1 h1.
Proof.
  intros Hr1 Hr HA1 HA HL1 HL Hh1 Hh.
  unfold GroundingMath.calculatePreliminaryResistanceA,
    GroundingMath.calculatePreliminaryResistanceB.
  guard_le_false rho1 0. guard_le_false rho2 0. guard_le_false A1 0.
  guard_le_false A2 0. guard_le_false Lt1 0. guard_le_false Lt2 0.
  guard_le_false h1 0. guard_le_false h2 0. cbn [orb]. cbv zeta.
  assert (Hpi : 0 < / PI) by (apply Rinv_0_lt_compat, PI_RGT_0).
  split.
  - assert (Hrad1 : 0 < sqrt (A1 / PI))
      by (apply sqrt_lt_R0; unfold Rdiv; apply Rmult_lt_0_compat; lra).
    assert (Hrad : sqrt (A1 / PI) <= sqrt (A2 / PI)).
    { apply sqrt_le_1_alt. unfold Rdiv. apply Rmult_le_compat_r; lra. }
    apply Rplus_le_compat; apply quotient_monotone; lra.
  - destruct (depth_term_scale A1 HA1) as [Hs1 ->].
    destruct (depth_term_scale A2 ltac:(lra)) as [Hs2 ->].
    assert (Hs : sqrt (20 / A2) <= sqrt (20 / A1)).
    { apply sqrt_le_1_alt. apply quotient_monotone; lra. }
    set (s1 := sqrt (20 / A1)) in *. set (s2 := sqrt (20 / A2)) in *.
    assert (Hd11 : 0 < 1 + h1 * s1) by nra.
    assert (Hd12 : 0 < 1 + h1 * s2) by nra.
    assert (Hd22 : 0 < 1 + h2 * s2) by nra.
    assert (Hdepth : s2 / (1 + h2 * s2) <= s2 / (1 + h1 * s2))
      by (apply quotient_monotone; nra).
    assert (Harea : s2 / (1 + h1 * s2) <= s1 / (1 + h1 * s1)).
    { apply Rmult_le_reg_r with ((1 + h1 * s2) * (1 + h1 * s1)); [ nra | ].
      replace (s2 / (1 + h1 * s2) * ((1 + h1 * s2) * (1 + h1 * s1)))
        with (s2 * (1 + h1 * s1)) by (field; lra).
      replace (s1 / (1 + h1 * s1) * ((1 + h1 * s2) * (1 + h1 * s1)))
        with (s1 * (1 + h1 * s2)) by (field; lra).
      nra. }
    assert (Hterm1 : 0 < 1 / Lt2 <= 1 / Lt1).
    { split; [ apply Rdiv_lt_0_compat; lra | apply quotient_monotone; lra ]. }
    assert (Hpos2 : 0 < s2 / (1 + h2 * s2)) by (apply Rdiv_lt_0_compat; lra).
    replace (s2 / 20 * (1 + 1 / (1 + h2 * s2)))
      with ((s2 + s2 / (1 + h2 * s2)) / 20) by (field; lra).
    replace (s1 / 20 * (1 + 1 / (1 + h1 * s1)))
      with ((s1 + s1 / (1 + h1 * s1)) / 20) by (field; lra).
    apply Rmult_le_compat; lra.
Qed.

Lemma preliminary_resistances_monotone_witness :
  GroundingMath.calculatePreliminaryResistanceA 100 2500 890
  <= GroundingMath.calculatePreliminaryResistanceA 150 2000 800
  /\ GroundingMath.calculatePreliminaryResistanceB 100 2500 890 0.6
     <= GroundingMath.calculatePreliminaryResistanceB 150 2000 800 0.5.
Proof.
  apply (preliminary_resistances_monotone 100 150 2000 2500 800 890 0.5 0.6); lra.
Defined.

(** ** Further properties: the Schwarz equations *)

(** X9.  The result does not depend on which side of the grid is called
    [Lx] and which [Ly]. *)
Theorem calculateSchwarzResistance_sides_swap
  (rho A Lx Ly Lc h d_mm : R) (rods : option GroundingMath.Rods) :
  GroundingMath.calculateSchwarzResistance rho A Lx Ly Lc h d_mm rods
  = GroundingMath.calculateSchwarzResistance rho A Ly Lx Lc h d_mm rods.
Proof.
  unfold GroundingMath.calculateSchwarzResistance.
  rewrite (Rmax_comm Lx Ly), (Rmin_comm Lx Ly). reflexivity.
Qed.

(** The coefficients are computed before the rods are looked at. *)
Lemma calculateSchwarzResistance_k_without_rods
  (rho A Lx Ly Lc h d_mm : R) (rods : option GroundingMath.Rods) :
  GroundingMath.k1 (GroundingMath.calculateSchwarzResistance rho A Lx Ly Lc h d_mm rods)
  = GroundingMath.k1 (GroundingMath.calculateSchwarzResistance rho A Lx Ly Lc h d_mm None)
  /\ GroundingMath.k2 (GroundingMath.calculateSchwarzResistance rho A Lx Ly Lc h d_mm rods)
     = GroundingMath.k2 (GroundingMath.calculateSchwarzResistance rho A Lx Ly Lc h d_mm None).
Proof.
  unfold GroundingMath.calculateSchwarzResistance.
  destruct ((rho <=? 0) || (A <=? 0) || (Lc <=? 0) || (h <=? 0) || (d_mm <=? 0)).
  { split; reflexivity. }
  cbv zeta. name_coefficients.
  destruct rods as [rods | ]; [ | split; reflexivity ].
  destruct ((GroundingMath.count rods <=? 0) || (GroundingMath.length rods <=? 0));
    [ split; reflexivity | ].
  destruct ((GroundingMath.count rods =? 0) || (GroundingMath.length rods =? 0)
            || (GroundingMath.diameter_mm rods / 1000 / 2 =? 0));
    split; reflexivity.
Qed.

Lemma side_ratio_ge_1 (Lx Ly : R) :
  0 < Lx -> 0 < Ly -> 0 < Rmin Lx Ly /\ 1 <= Rmax Lx Ly / Rmin Lx Ly.
Proof.
  intros Hx Hy.
  assert (Hmin : 0 < Rmin Lx Ly) by (apply Rmin_glb_lt; assumption).
  split; [ exact Hmin | ].
  apply Rmult_le_reg_r with (Rmin Lx Ly); [ exact Hmin | ].
  unfold Rdiv. rewrite Rmult_assoc, Rinv_l by lra.
  pose proof (Rmin_l Lx Ly). pose proof (Rmax_l Lx Ly). lra.
Qed.

(** X11.  For valid inputs with positive sides the coefficients stay inside
    the envelope of the reference curves: with [q] the ratio of the longer
    to the shorter side, [k1] lies between curve C and curve A and so does
    [k2]; curve A itself is never attained (the relative depth
    [h / sqrt A] of a valid input is positive), and from [h / sqrt A = 1/6]
    on the coefficients are those of curve C. *)
Theorem calculateSchwarzResistance_coefficients_envelope
  (rho A Lx Ly Lc h d_mm : R) (rods : option GroundingMath.Rods) :
  0 < rho -> 0 < A -> 0 < Lc -> 0 < h -> 0 < d_mm -> 0 < Lx -> 0 < Ly ->
  let res := GroundingMath.calculateSchwarzResistance rho A Lx Ly Lc h d_mm rods in
  let q := Rmax Lx Ly / Rmin Lx Ly in
  1 <= q
  /\ - 0.05 * q + 1.13 <= GroundingMath.k1 res < - 0.04 * q + 1.41
  /\ - 0.05 * q + 4.40 <= GroundingMath.k2 res < 0.15 * q + 5.50
  /\ (1 / 6 <= h / sqrt A ->
      GroundingMath.k1 res = - 0.05 * q + 1.13
      /\ GroundingMath.k2 res = - 0.05 * q + 4.40).
Proof.
  intros Hrho HA HLc Hh Hd HLx HLy res q. subst res.
  destruct (side_ratio_ge_1 Lx Ly HLx HLy) as [Hmin Hq]. fold q in Hq.
  destruct (calculateSchwarzResistance_k_without_rods rho A Lx Ly Lc h d_mm rods)
    as [-> ->].
  assert (Hx : 0 < h / sqrt A).
  { apply Rdiv_lt_0_compat; [ exact Hh | apply sqrt_lt_R0; exact HA ]. }
  unfold GroundingMath.calculateSchwarzResistance.
  guard_le_false rho 0. guard_le_false A 0. guard_le_false Lc 0.
  guard_le_false h 0. guard_le_false d_mm 0.
  cbn [orb]. cbv zeta.
  replace (Rmin Lx Ly >? 0) with true by (symmetry; apply ltb_true; exact Hmin).
  fold q. set (x := h / sqrt A) in *.
  guard_le_false x 0.
  cbn [GroundingMath.curve GroundingMath.curves nth GroundingMath.m GroundingMath.b
         GroundingMath.h_ref GroundingMath.curve_k1 GroundingMath.curve_k2].
  split; [ exact Hq | ].
  destruct (Rle_dec (1 / 6) x) as [H6 | H6].
  - replace (x >=? 1 / 6) with true by (symmetry; apply leb_true; exact H6).
    cbn [GroundingMath.k1 GroundingMath.k2].
    repeat split; lra.
  - replace (x >=? 1 / 6) with false by (symmetry; apply leb_false; lra).
    destruct (Rle_dec x 0.1) as [H1 | H1].
    + guard_le_true x 0.1.
      cbn [GroundingMath.k1 GroundingMath.k2].
      replace ((x - 0) / (0.1 - 0)) with (10 * x)
        by (unfold Rdiv; replace (0.1 - 0) with (/ 10) by lra; rewrite Rinv_inv; lra).
      repeat split; try nra; intros; lra.
    + guard_le_false x 0.1.
      cbn [GroundingMath.k1 GroundingMath.k2].
      replace ((x - 0.1) / (1 / 6 - 0.1)) with (15 * (x - 0.1))
        by (unfold Rdiv at 1; replace (1 / 6 - 0.1) with (/ 15) by lra;
            rewrite Rinv_inv; lra).
      repeat split; try nra; intros; lra.
Qed.

Lemma calculateSchwarzResistance_coefficients_envelope_witness :
  let res := GroundingMath.calculateSchwarzResistance 100 2000 50 40 890 0.5 7.98 None in
  let q := Rmax 50 40 / Rmin 50 40 in
  1 <= q
  /\ - 0.05 * q + 1.13 <= GroundingMath.k1 res < - 0.04 * q + 1.41
  /\ - 0.05 * q + 4.40 <= GroundingMath.k2 res < 0.15 * q + 5.50
  /\ (1 / 6 <= 0.5 / sqrt 2000 ->
      GroundingMath.k1 res = - 0.05 * q + 1.13
      /\ GroundingMath.k2 res = - 0.05 * q + 4.40).
Proof.
  apply (calculateSchwarzResistance_coefficients_envelope 100 2000 50 40 890 0.5 7.98 None);
    lra.
Defined.

(** ** Further properties: surface layer and permissible voltages *)

(** X12.  The surface reflection factor is antisymmetric in its two
    resistivities, it is the soil reflection coefficient [calculateReflectionK]
    with the arguments exchanged, and for positive resistivities it lies
    strictly between -1 and 1. *)
Theorem calculateReflectionFactor_properties (rho rho_s : R) :
  GroundingMath.calculateReflectionFactor rho rho_s
  = - GroundingMath.calculateReflectionFactor rho_s rho
  /\ SoilMath.calculateReflectionK rho rho_s
     = GroundingMath.calculateReflectionFactor rho_s rho
  /\ (0 < rho -> 0 < rho_s ->
      -1 < GroundingMath.calculateReflectionFactor rho rho_s < 1).
Proof.
  unfold GroundingMath.calculateReflectionFactor, SoilMath.calculateReflectionK.
  destruct (Req_dec_T (rho + rho_s) 0) as [Hz | Hz].
  - replace (rho + rho_s =? 0) with true by (symmetry; apply eqb_true; exact Hz).
    replace (rho_s + rho =? 0) with true by (symmetry; apply eqb_true; lra).
    repeat split; try lra.
  - replace (rho + rho_s =? 0) with false by (symmetry; apply eqb_false; exact Hz).
    replace (rho_s + rho =? 0) with false by (symmetry; apply eqb_false; lra).
    split; [ field; lra | ]. split; [ reflexivity | ].
    intros Hr Hs. split.
    + apply Rmult_lt_reg_r with (rho + rho_s); [ lra | ].
      unfold Rdiv. rewrite Rmult_assoc, Rinv_l by lra. lra.
    + apply Rmult_lt_reg_r with (rho + rho_s); [ lra | ].
      unfold Rdiv. rewrite Rmult_assoc, Rinv_l by lra. lra.
Qed.

(** X13.  The derating factor is exactly 1 without a surface layer
    ([hs <= 0] or [rho_s <= 0]) or when the two resistivities differ by less
    than 0.001.  With a layer at least as resistive as the soil
    ([0 <= rho <= rho_s]) it lies in (0, 1] and the derated surface
    resistivity [Cs * rho_s] stays between [rho] and [rho_s]; with a layer
    less resistive than the soil it is at least 1. *)
Theorem calculateDeratingFactor_range (rho rho_s hs : R) :
  (hs <= 0 \/ rho_s <= 0 \/ Rabs (rho - rho_s) < 0.001 ->
   GroundingMath.calculateDeratingFactor rho rho_s hs = 1)
  /\ (0 < hs -> 0 < rho_s -> 0 <= rho <= rho_s ->
      0 < GroundingMath.calculateDeratingFactor rho rho_s hs <= 1
      /\ rho <= GroundingMath.calculateDeratingFactor rho rho_s hs * rho_s <= rho_s)
  /\ (0 < hs -> 0 < rho_s -> rho_s <= rho ->
      1 <= GroundingMath.calculateDeratingFactor rho rho_s hs).
Proof.
  unfold GroundingMath.calculateDeratingFactor.
  split; [ | split ].
  - intros [H | [H | H]].
    + guard_le_true hs 0. reflexivity.
    + guard_le_true rho_s 0. now rewrite orb_true_r.
    + destruct ((hs <=? 0) || (rho_s <=? 0)); [ reflexivity | ].
      replace (Rabs (rho - rho_s) <? 0.001) with true
        by (symmetry; apply ltb_true; exact H).
      reflexivity.
  - intros Hh Hs [Hr0 Hr1]. guard_le_false hs 0. guard_le_false rho_s 0. cbn [orb].
    destruct (Rabs (rho - rho_s) <? 0.001); [ split; split; nra | ].
    cbv zeta.
    set (u := rho / rho_s).
    assert (Hu : 0 <= u <= 1).
    { subst u. split.
      - apply Rmult_le_pos; [ lra | left; apply Rinv_0_lt_compat; lra ].
      - apply Rmult_le_reg_r with rho_s; [ lra | ].
        unfold Rdiv. rewrite Rmult_assoc, Rinv_l by lra. lra. }
    assert (Hurho : u * rho_s = rho) by (subst u; field; lra).
    set (w := 0.09 * (1 - u) / (2 * hs + 0.09)).
    assert (Hw : 0 <= w <= 1 - u /\ w < 1).
    { assert (Hden : 0 < 2 * hs + 0.09) by lra.
      assert (Hwd : w * (2 * hs + 0.09) = 0.09 * (1 - u)) by (subst w; field; lra).
      assert (H0 : 0 <= w).
      { subst w. apply Rmult_le_pos; [ nra | left; apply Rinv_0_lt_compat; lra ]. }
      repeat split; nra. }
    split; split; nra.
  - intros Hh Hs Hr. guard_le_false hs 0. guard_le_false rho_s 0. cbn [orb].
    destruct (Rabs (rho - rho_s) <? 0.001); [ lra | ].
    cbv zeta.
    assert (Hu : 1 <= rho / rho_s).
    { apply Rmult_le_reg_r with rho_s; [ lra | ].
      unfold Rdiv. rewrite Rmult_assoc, Rinv_l by lra. lra. }
    set (w := 0.09 * (1 - rho / rho_s) / (2 * hs + 0.09)).
    assert (Hwd : w * (2 * hs + 0.09) = 0.09 * (1 - rho / rho_s))
      by (subst w; field; lra).
    destruct (Rle_dec w 0) as [Hw | Hw]; [ lra | nra ].
Qed.

(** The two duration classes of [calculatePermissibleVoltages], unfolded. *)
Lemma permissible_short (t cs rho_s : R) (bodyWeight : GroundingMath.BodyWeight) :
  0 < t <= 3 ->
  let k := if GroundingMath.BodyWeight_eqb bodyWeight GroundingMath.W50
           then 0.116 else 0.157 in
  GroundingMath.calculatePermissibleVoltages t cs rho_s bodyWeight
  = {| GroundingMath.vPasso := (1000 + 6 * cs * rho_s) * (k / sqrt t);
       GroundingMath.vToque := (1000 + 1.5 * cs * rho_s) * (k / sqrt t);
       GroundingMath.duration := GroundingMath.curta |}.
Proof.
  intros [H0 H3] k.
  unfold GroundingMath.calculatePermissibleVoltages,
    GroundingMath.calculateMaxTouchVoltage, GroundingMath.calculateMaxStepVoltage,
    GroundingMath.LONG_DURATION_THRESHOLD.
  guard_le_false t 0. guard_le_true t 3. reflexivity.
Qed.

Lemma permissible_long (t cs rho_s : R) (bodyWeight : GroundingMath.BodyWeight) :
  3 < t ->
  GroundingMath.calculatePermissibleVoltages t cs rho_s bodyWeight
  = {| GroundingMath.vPasso := 0.006 * (1000 + 6 * cs * rho_s);
       GroundingMath.vToque := 0.006 * (1000 + 1.5 * cs * rho_s);
       GroundingMath.duration := GroundingMath.longa |}.
Proof.
  intros H3.
  unfold GroundingMath.calculatePermissibleVoltages,
    GroundingMath.LONG_DURATION_THRESHOLD, GroundingMath.LONG_DURATION_BODY_CURRENT.
  guard_le_false t 0. guard_le_false t 3. reflexivity.
Qed.

Lemma body_weight_constant (bodyWeight : GroundingMath.BodyWeight) :
  0.116 <= (if GroundingMath.BodyWeight_eqb bodyWeight GroundingMath.W50
            then 0.116 else 0.157) <= 0.157.
Proof. destruct bodyWeight; simpl; lra. Qed.

(** Up to three seconds the body current is above 0.058 A. *)
Lemma short_current_bound (t k : R) :
  0 < t <= 3 -> 0.116 <= k -> 0.058 <= k / sqrt t.
Proof.
  intros [H0 H3] Hk.
  assert (Hs : 0 < sqrt t) by (apply sqrt_lt_R0; exact H0).
  assert (Hss : sqrt t * sqrt t = t) by (apply sqrt_sqrt; lra).
  assert (Hs2 : sqrt t < 2) by nra.
  apply Rmult_le_reg_r with (sqrt t); [ exact Hs | ].
  unfold Rdiv. rewrite Rmult_assoc, Rinv_l by lra. nra.
Qed.

(** The body current falls as the duration grows. *)
Lemma current_decreasing (t1 t2 k : R) :
  0 < t1 -> t1 <= t2 -> 0 <= k -> k / sqrt t2 <= k / sqrt t1.
Proof.
  intros H1 H12 Hk.
  assert (Hs1 : 0 < sqrt t1) by (apply sqrt_lt_R0; exact H1).
  assert (Hs12 : sqrt t1 <= sqrt t2) by (apply sqrt_le_1_alt; exact H12).
  unfold Rdiv. apply Rmult_le_compat_l; [ exact Hk | ].
  apply Rinv_le_contravar; assumption.
Qed.

(** X14.  The tolerable body current is [null] for a duration that is not
    finite or not positive.  For a positive duration it is a current of at
    least 0.006 A, and the permissible voltages are that current through the
    body resistance in series with the surface layer:
    [(1000 + 1.5 cs rho_s) ib] for touch and [(1000 + 6 cs rho_s) ib] for
    step, in the same duration class. *)
Theorem calculatePermissibleVoltages_from_body_current
  (t cs rho_s : R) (bodyWeight : GroundingMath.BodyWeight) :
  (forall x : JS.number,
     (JS.Number_isFinite x = false \/ exists r, x = JS.Finite r /\ r <= 0) ->
     GroundingMath.calculateTolerableBodyCurrent x bodyWeight
     = {| GroundingMath.BodyCurrent.ib := None;
          GroundingMath.BodyCurrent.duration := GroundingMath.curta |})
  /\ (0 < t ->
      exists ib : R,
        GroundingMath.BodyCurrent.ib
          (GroundingMath.calculateTolerableBodyCurrent (JS.Finite t) bodyWeight) = Some ib
        /\ 0.006 <= ib
        /\ GroundingMath.vToque
             (GroundingMath.calculatePermissibleVoltages t cs rho_s bodyWeight)
           = (1000 + 1.5 * cs * rho_s) * ib
        /\ GroundingMath.vPasso
             (GroundingMath.calculatePermissibleVoltages t cs rho_s bodyWeight)
           = (1000 + 6 * cs * rho_s) * ib
        /\ GroundingMath.duration
             (GroundingMath.calculatePermissibleVoltages t cs rho_s bodyWeight)
           = GroundingMath.BodyCurrent.duration
               (GroundingMath.calculateTolerableBodyCurrent (JS.Finite t) bodyWeight)).
Proof.
  split.
  - intros x [Hx | [r [-> Hr]]]; unfold GroundingMath.calculateTolerableBodyCurrent.
    + rewrite Hx. reflexivity.
    + cbn [JS.Number_isFinite JS.number_leb negb orb]. guard_le_true r 0. reflexivity.
  - intros Ht. unfold GroundingMath.calculateTolerableBodyCurrent.
    cbn [JS.Number_isFinite JS.number_leb JS.value negb orb].
    guard_le_false t 0. unfold GroundingMath.LONG_DURATION_THRESHOLD.
    destruct (Rle_dec t 3) as [H3 | H3].
    + guard_le_true t 3. rewrite permissible_short by lra. cbv zeta.
      eexists. split; [ reflexivity | ].
      split; [ | repeat split ].
      pose proof (body_weight_constant bodyWeight) as Hk.
      pose proof (short_current_bound t _ (conj Ht H3) (proj1 Hk)). lra.
    + guard_le_false t 3. rewrite permissible_long by lra.
      unfold GroundingMath.LONG_DURATION_BODY_CURRENT.
      eexists. split; [ reflexivity | ].
      split; [ lra | ]. cbn. repeat split; ring.
Qed.

(** X15.  A longer fault never raises the permissible voltages: for
    [0 < t1 <= t2] and [cs * rho_s >= 0] the touch and the step limit at
    [t2] are at most those at [t1], also across the change of class at three
    seconds. *)
Theorem calculatePermissibleVoltages_decreasing
  (t1 t2 cs rho_s : R) (bodyWeight : GroundingMath.BodyWeight) :
  0 < t1 -> t1 <= t2 -> 0 <= cs * rho_s ->
  GroundingMath.vToque (GroundingMath.calculatePermissibleVoltages t2 cs rho_s bodyWeight)
  <= GroundingMath.vToque (GroundingMath.calculatePermissibleVoltages t1 cs rho_s bodyWeight)
  /\ GroundingMath.vPasso (GroundingMath.calculatePermissibleVoltages t2 cs rho_s bodyWeight)
     <= GroundingMath.vPasso (GroundingMath.calculatePermissibleVoltages t1 cs rho_s bodyWeight).
Proof.
  intros H1 H12 Hx.
  pose proof (body_weight_constant bodyWeight) as Hk.
  assert (Ht : 0 <= 1000 + 1.5 * cs * rho_s) by nra.
  assert (Hp : 0 <= 1000 + 6 * cs * rho_s) by nra.
  destruct (Rle_dec t2 3) as [H23 | H23].
  - rewrite (permissible_short t2), (permissible_short t1) by lra.
    cbn [GroundingMath.vToque GroundingMath.vPasso].
    assert (Hc : forall k, 0 <= k -> k / sqrt t2 <= k / sqrt t1)
      by (intros k Hk0; apply current_decreasing; assumption).
    split; apply Rmult_le_compat_l; try assumption; apply Hc; lra.
  - rewrite (permissible_long t2) by lra.
    destruct (Rle_dec t1 3) as [H13 | H13].
    + rewrite (permissible_short t1) by lra.
      cbn [GroundingMath.vToque GroundingMath.vPasso].
      pose proof (short_current_bound t1 _ (conj H1 H13) (proj1 Hk)) as Hc.
      split; nra.
    + rewrite (permissible_long t1) by lra.
      cbn [GroundingMath.vToque GroundingMath.vPasso]. split; lra.
Qed.

Lemma calculatePermissibleVoltages_decreasing_witness :
  GroundingMath.vToque
    (GroundingMath.calculatePermissibleVoltages 5 0.7 3000 GroundingMath.W70)
  <= GroundingMath.vToque
       (GroundingMath.calculatePermissibleVoltages 0.5 0.7 3000 GroundingMath.W70)
  /\ GroundingMath.vPasso
       (GroundingMath.calculatePermissibleVoltages 5 0.7 3000 GroundingMath.W70)
     <= GroundingMath.vPasso
          (GroundingMath.calculatePermissibleVoltages 0.5 0.7 3000 GroundingMath.W70).
Proof.
  apply (calculatePermissibleVoltages_decreasing 0.5 5 0.7 3000 GroundingMath.W70); lra.
Defined.

(** X16.  In every duration class, with [cs * rho_s >= 0], the permissible
    touch voltage is not negative and the permissible step voltage is at
    least the touch voltage. *)
Theorem calculatePermissibleVoltages_step_ge_touch
  (t cs rho_s : R) (bodyWeight : GroundingMath.BodyWeight) :
  0 <= cs * rho_s ->
  0 <= GroundingMath.vToque (GroundingMath.calculatePermissibleVoltages t cs rho_s bodyWeight)
    <= GroundingMath.vPasso (GroundingMath.calculatePermissibleVoltages t cs rho_s bodyWeight).
Proof.
  intros Hx.
  pose proof (body_weight_constant bodyWeight) as Hk.
  destruct (Rle_dec t 0) as [H0 | H0].
  - unfold GroundingMath.calculatePermissibleVoltages. guard_le_true t 0. cbn. lra.
  - destruct (Rle_dec t 3) as [H3 | H3].
    + rewrite permissible_short by lra.
      cbn [GroundingMath.vToque GroundingMath.vPasso].
      assert (Ht0 : 0 < t) by lra.
      pose proof (short_current_bound t _ (conj Ht0 H3) (proj1 Hk)) as Hc.
      split; nra.
    + rewrite permissible_long by lra.
      cbn [GroundingMath.vToque GroundingMath.vPasso]. split; nra.
Qed.

Lemma calculatePermissibleVoltages_step_ge_touch_witness :
  0 <= GroundingMath.vToque
         (GroundingMath.calculatePermissibleVoltages 5 0.7 3000 GroundingMath.W50)
    <= GroundingMath.vPasso
         (GroundingMath.calculatePermissibleVoltages 5 0.7 3000 GroundingMath.W50).
Proof.
  apply (calculatePermissibleVoltages_step_ge_touch 5 0.7 3000 GroundingMath.W50). lra.
Defined.

(** ** Further properties: geometric factor of step, conductor sizing *)

(** A power of one half with a non-negative exponent lies in (0, 1]. *)
Lemma pow_half_range (y : R) : 0 <= y -> 0 < JS.pow 0.5 y <= 1.
Proof.
  intros Hy. unfold JS.pow, Rpower. split; [ apply exp_pos | ].
  assert (Hln : ln 0.5 < 0) by (rewrite <- ln_1; apply ln_increasing; lra).
  destruct Hy as [Hy | <-].
  - left. rewrite <- exp_0. apply exp_increasing. nra.
  - right. rewrite Rmult_0_l. apply exp_0.
Qed.

(** X17.  For a positive spacing and depth and at least two parallel
    conductors the step factor is positive and bounded:
    [(1/PI) (1/(2h) + 1/(D+h)) <= Ks < (1/PI) (1/(2h) + 1/(D+h) + 1/D)]. *)
Theorem calculateKs_bounds (D h n : R) :
  0 < D -> 0 < h -> 2 <= n ->
  0 < (1 / PI) * (1 / (2 * h) + 1 / (D + h))
    <= GroundingMath.calculateKs D h n
  /\ GroundingMath.calculateKs D h n
     < (1 / PI) * (1 / (2 * h) + 1 / (D + h) + 1 / D).
Proof.
  intros HD Hh Hn. unfold GroundingMath.calculateKs.
  rewrite orb3_leb_false by lra. cbv zeta.
  destruct (pow_half_range (n - 2)) as [Hp0 Hp1]; [ lra | ].
  set (p := JS.pow 0.5 (n - 2)) in *.
  assert (HPI : 0 < 1 / PI) by (apply Rdiv_lt_0_compat; [ lra | apply PI_RGT_0 ]).
  assert (H1 : 0 < 1 / (2 * h)) by (apply Rdiv_lt_0_compat; lra).
  assert (H2 : 0 < 1 / (D + h)) by (apply Rdiv_lt_0_compat; lra).
  assert (H3 : 0 < 1 / D) by (apply Rdiv_lt_0_compat; lra).
  assert (H4 : 0 <= 1 / D * (1 - p) < 1 / D) by (split; nra).
  repeat split.
  - apply Rmult_lt_0_compat; lra.
  - apply Rmult_le_compat_l; lra.
  - apply Rmult_lt_compat_l; lra.
Qed.

Lemma calculateKs_bounds_witness :
  0 < (1 / PI) * (1 / (2 * 0.5) + 1 / (5 + 0.5))
    <= GroundingMath.calculateKs 5 0.5 10
  /\ GroundingMath.calculateKs 5 0.5 10
     < (1 / PI) * (1 / (2 * 0.5) + 1 / (5 + 0.5) + 1 / 5).
Proof.
  apply (calculateKs_bounds 5 0.5 10); lra.
Defined.

(** Past its guards [calculateKf] is the root of a positive quotient. *)
Lemma calculateKf_valid (alpha20 rho20 tcap tm ta : R) :
  0 < alpha20 -> 0 < rho20 -> 0 < tcap -> ta < tm -> 20 - 1 / alpha20 < ta ->
  let den := tcap * ln ((1 / alpha20 - 20 + tm) / (1 / alpha20 - 20 + ta)) in
  0 < den
  /\ GroundingMath.calculateKf alpha20 rho20 tcap tm ta
     = sqrt (alpha20 * rho20 * 10000 / den).
Proof.
  intros Ha Hr Hc Htm Hta den.
  assert (Hden : 0 < den).
  { subst den. apply Rmult_lt_0_compat; [ exact Hc | apply ln_ratio_pos; lra ]. }
  split; [ exact Hden | ].
  unfold GroundingMath.calculateKf.
  guard_le_false alpha20 0. guard_le_false rho20 0. guard_le_false tcap 0.
  guard_le_false tm ta. cbn [orb]. cbv zeta. fold den.
  guard_le_false den 0. reflexivity.
Qed.

(** X18.  With valid material data, [tm > ta] and an ambient temperature
    above [20 - 1 / alpha20], [calculateKf] is positive, and it falls
    strictly as the admissible temperature rises: a joint that stands more
    heat needs less section. *)
Theorem calculateKf_positive_decreasing (alpha20 rho20 tcap tm1 tm2 ta : R) :
  0 < alpha20 -> 0 < rho20 -> 0 < tcap -> 20 - 1 / alpha20 < ta ->
  ta < tm1 -> tm1 < tm2 ->
  0 < GroundingMath.calculateKf alpha20 rho20 tcap tm2 ta
    < GroundingMath.calculateKf alpha20 rho20 tcap tm1 ta.
Proof.
  intros Ha Hr Hc Hta H1 H12.
  destruct (calculateKf_valid alpha20 rho20 tcap tm1 ta) as [Hd1 ->]; try lra.
  destruct (calculateKf_valid alpha20 rho20 tcap tm2 ta) as [Hd2 ->]; try lra.
  assert (HKo : 0 < 1 / alpha20 - 20 + ta) by lra.
  set (Ko := 1 / alpha20 - 20) in *.
  assert (Hnum : 0 < alpha20 * rho20 * 10000) by (repeat apply Rmult_lt_0_compat; lra).
  assert (Hln : ln ((Ko + tm1) / (Ko + ta)) < ln ((Ko + tm2) / (Ko + ta))).
  { assert (Hi : 0 < / (Ko + ta)) by (apply Rinv_0_lt_compat; lra).
    apply ln_increasing.
    - apply Rdiv_lt_0_compat; lra.
    - unfold Rdiv. apply Rmult_lt_compat_r; lra. }
  assert (Hden : tcap * ln ((Ko + tm1) / (Ko + ta))
                 < tcap * ln ((Ko + tm2) / (Ko + ta)))
    by (apply Rmult_lt_compat_l; assumption).
  split.
  - apply sqrt_lt_R0, Rdiv_lt_0_compat; assumption.
  - apply sqrt_lt_1_alt. split.
    + left. apply Rdiv_lt_0_compat; assumption.
    + unfold Rdiv. apply Rmult_lt_compat_l; [ exact Hnum | ].
      apply Rinv_lt_contravar; [ apply Rmult_lt_0_compat; assumption | exact Hden ].
Qed.

Lemma calculateKf_positive_decreasing_witness :
  0 < GroundingMath.calculateKf 0.00393 1.724 3.422 850 40
    < GroundingMath.calculateKf 0.00393 1.724 3.422 250 40.
Proof.
  apply (calculateKf_positive_decreasing 0.00393 1.724 3.422 250 850 40); lra.
Defined.

(** With valid material data and an ambient temperature above
    [20 - 1 / alpha20] only the current and the duration can stop the direct
    formula. *)
Lemma calculateConductorSection_valid (If t alpha20 rho20 tcap tm ta : R) :
  0 < alpha20 -> 0 < rho20 -> 0 < tcap -> 20 - 1 / alpha20 < ta -> ta < tm ->
  let den := tcap * ln ((1 / alpha20 - 20 + tm) / (1 / alpha20 - 20 + ta)) in
  0 < den
  /\ GroundingMath.calculateConductorSection If t alpha20 rho20 tcap tm ta
     = if (If <=? 0) || (t <=? 0) then 0
       else If * sqrt (t * alpha20 * rho20 * 10000 / den).
Proof.
  intros Ha Hr Hc Hta Htm den.
  assert (Hden : 0 < den).
  { subst den. apply Rmult_lt_0_compat; [ exact Hc | apply ln_ratio_pos; lra ]. }
  split; [ exact Hden | ].
  unfold GroundingMath.calculateConductorSection.
  guard_le_false alpha20 0. guard_le_false rho20 0. guard_le_false tcap 0.
  guard_le_false tm ta. rewrite !orb_false_r.
  destruct ((If <=? 0) || (t <=? 0)); [ reflexivity | ].
  cbv zeta. fold den. guard_le_false den 0. reflexivity.
Qed.

(** X19.  With valid material data, [tm > ta] and an ambient temperature
    above [20 - 1 / alpha20], the direct section formula is never negative
    and never falls when the fault current or the duration rises, the
    currents and durations that the guard sends to 0 included. *)
Theorem calculateConductorSection_monotone
  (If1 If2 t1 t2 alpha20 rho20 tcap tm ta : R) :
  0 < alpha20 -> 0 < rho20 -> 0 < tcap -> 20 - 1 / alpha20 < ta -> ta < tm ->
  If1 <= If2 -> t1 <= t2 ->
  0 <= GroundingMath.calculateConductorSection If1 t1 alpha20 rho20 tcap tm ta
    <= GroundingMath.calculateConductorSection If2 t2 alpha20 rho20 tcap tm ta.
Proof.
  intros Ha Hr Hc Hta Htm HIf Ht.
  destruct (calculateConductorSection_valid If1 t1 alpha20 rho20 tcap tm ta)
    as [Hden ->]; try assumption.
  destruct (calculateConductorSection_valid If2 t2 alpha20 rho20 tcap tm ta)
    as [_ ->]; try assumption.
  set (den := tcap * ln ((1 / alpha20 - 20 + tm) / (1 / alpha20 - 20 + ta))) in *.
  assert (Hk : 0 < alpha20 * rho20 * 10000 / den).
  { apply Rdiv_lt_0_compat; [ | exact Hden ]. repeat apply Rmult_lt_0_compat; lra. }
  assert (Hroot : forall t, t * alpha20 * rho20 * 10000 / den
                            = t * (alpha20 * rho20 * 10000 / den))
    by (intros; unfold Rdiv; ring).
  rewrite !Hroot.
  assert (Hnonneg : forall If t,
            0 <= (if (If <=? 0) || (t <=? 0) then 0
                  else If * sqrt (t * (alpha20 * rho20 * 10000 / den)))).
  { intros If t.
    destruct (Rle_dec If 0) as [H | H].
    - guard_le_true If 0. cbn [orb]. lra.
    - guard_le_false If 0. cbn [orb]. destruct (t <=? 0); [ lra | ].
      apply Rmult_le_pos; [ lra | apply sqrt_pos ]. }
  split; [ apply Hnonneg | ].
  destruct (Rle_dec If1 0) as [H1 | H1].
  - guard_le_true If1 0. cbn [orb]. apply Hnonneg.
  - guard_le_false If1 0. cbn [orb].
    destruct (Rle_dec t1 0) as [H2 | H2].
    + guard_le_true t1 0. apply Hnonneg.
    + guard_le_false t1 0. guard_le_false If2 0. guard_le_false t2 0. cbn [orb].
      apply Rmult_le_compat; [ lra | apply sqrt_pos | exact HIf | ].
      apply sqrt_le_1_alt. apply Rmult_le_compat_r; lra.
Qed.

Lemma calculateConductorSection_monotone_witness :
  0 <= GroundingMath.calculateConductorSection 10 0.5 0.00393 1.724 3.422 850 40
    <= GroundingMath.calculateConductorSection 20 1 0.00393 1.724 3.422 850 40.
Proof.
  apply (calculateConductorSection_monotone 10 20 0.5 1 0.00393 1.724 3.422 850 40); lra.
Defined.

(** ** Further properties: the catalog and the sizing step *)

Lemma conductorMaterials_ranges :
  Forall (fun material =>
            0 < ConductorData.alpha20 material <= 0.00403
            /\ 0 < ConductorData.rho20 material
            /\ 0 < ConductorData.tcap material)
         ConductorData.conductorMaterials.
Proof. repeat constructor; simpl; lra. Qed.

(** X20.  For every material of the catalog, every connection, a positive
    current and duration and an ambient temperature from -228 degrees up,
    the minimum section of the sizing step is positive exactly when the
    ambient temperature is below both the connection's limit and the
    material's melting point; when the melting point is at or below the
    ambient temperature the section shown is 0, although the step's own
    test [ta < connection.maxTemp] may hold. *)
Theorem minSection_catalog
  (material : ConductorData.ConductorMaterial)
  (connection : ConductorData.ConnectionType) (currentForSizing t ta : R) :
  In material ConductorData.conductorMaterials ->
  0 < currentForSizing -> 0 < t -> -228 <= ta ->
  (ta < Rmin (ConductorData.maxTemp connection) (ConductorData.tFusion material) ->
   0 < App.minSection (Some material) (Some connection) currentForSizing t ta)
  /\ (Rmin (ConductorData.maxTemp connection) (ConductorData.tFusion material) <= ta ->
      App.minSection (Some material) (Some connection) currentForSizing t ta = 0).
Proof.
  intros Hin HI Ht Hta.
  pose proof conductorMaterials_ranges as Hranges.
  rewrite Forall_forall in Hranges.
  destruct (Hranges material Hin) as ((Ha0 & Ha1) & Hr & Hc).
  set (tm := Rmin (ConductorData.maxTemp connection) (ConductorData.tFusion material)).
  split; intros Htm.
  - assert (Hmax : ta < ConductorData.maxTemp connection).
    { pose proof (Rmin_l (ConductorData.maxTemp connection)
                    (ConductorData.tFusion material)). fold tm in H. lra. }
    assert (Hinv : 248 < 1 / ConductorData.alpha20 material).
    { apply Rlt_le_trans with (1 / 0.00403); [ lra | ].
      unfold Rdiv. apply Rmult_le_compat_l; [ lra | ].
      apply Rinv_le_contravar; lra. }
    destruct (calculateKf_valid (ConductorData.alpha20 material)
                (ConductorData.rho20 material) (ConductorData.tcap material) tm ta)
      as [Hden HKf]; try lra.
    unfold App.minSection. fold tm. rewrite HKf.
    replace (t >? 0) with true by (symmetry; apply ltb_true; exact Ht).
    replace (ta <? ConductorData.maxTemp connection) with true
      by (symmetry; apply ltb_true; exact Hmax).
    replace (currentForSizing >? 0) with true by (symmetry; apply ltb_true; exact HI).
    cbn [andb].
    apply Rmult_lt_0_compat; [ apply Rmult_lt_0_compat; [ exact HI | ] | ].
    + apply sqrt_lt_R0, Rdiv_lt_0_compat; [ | exact Hden ].
      repeat apply Rmult_lt_0_compat; lra.
    + apply sqrt_lt_R0. exact Ht.
  - unfold App.minSection. fold tm.
    destruct ((t >? 0) && (ta <? ConductorData.maxTemp connection)
              && (currentForSizing >? 0)); [ | reflexivity ].
    unfold GroundingMath.calculateKf. guard_le_true tm ta.
    rewrite !orb_true_r. ring.
Qed.

Section CatalogEntry.

Import String.
Local Open Scope string_scope.

(** Zinc-coated steel (melting at 419 degrees) with an exothermic joint
    (850 degrees): positive at 40 degrees ambient, 0 at 500 degrees. *)
Lemma minSection_catalog_witness :
  let material :=
    ConductorData.Build_ConductorMaterial "zinc_coated_steel" "Aço zincado"
      0.00320 419 20.1 3.931 in
  let connection :=
    ConductorData.Build_ConnectionType "exothermic" "Emenda com solda exotérmica" 850 in
  0 < App.minSection (Some material) (Some connection) 10 0.5 40
  /\ App.minSection (Some material) (Some connection) 10 0.5 500 = 0.
Proof.
  cbv zeta. split.
  - apply minSection_catalog; try lra.
    + simpl. tauto.
    + simpl. unfold Rmin. destruct (Rle_dec 850 419); lra.
  - apply minSection_catalog; try lra.
    + simpl. tauto.
    + simpl. unfold Rmin. destruct (Rle_dec 850 419); lra.
Defined.

End CatalogEntry.

(** ** Further properties: placing rods *)

Lemma sameNode_true (i0 j0 : nat) (r : PotentialField.Rod) :
  App.sameNode i0 j0 r = true <-> r = {| PotentialField.i := i0; PotentialField.j := j0 |}.
Proof.
  unfold App.sameNode. rewrite andb_true_iff, !Nat.eqb_eq.
  destruct r as [ri rj]. cbn. split.
  - intros [-> ->]. reflexivity.
  - intros E. injection E as -> ->. split; reflexivity.
Qed.

Lemma existsb_sameNode (i0 j0 : nat) (l : list PotentialField.Rod) :
  existsb (App.sameNode i0 j0) l = true <-> In {| PotentialField.i := i0; PotentialField.j := j0 |} l.
Proof.
  rewrite existsb_exists. split.
  - intros (r & Hin & Hr). apply sameNode_true in Hr. now subst r.
  - intros Hin. exists {| PotentialField.i := i0; PotentialField.j := j0 |}. split; [ exact Hin | ].
    now apply sameNode_true.
Qed.

(** X21.  [toggleRod] flips the presence of a rod at the chosen node and at
    no other node, and it keeps a list of rods free of duplicates. *)
Theorem toggleRod_flips_one_node (i0 j0 : nat) (prev : list PotentialField.Rod) :
  (In {| PotentialField.i := i0; PotentialField.j := j0 |} (App.toggleRod i0 j0 prev)
   <-> ~ In {| PotentialField.i := i0; PotentialField.j := j0 |} prev)
  /\ (forall r : PotentialField.Rod, r <> {| PotentialField.i := i0; PotentialField.j := j0 |} ->
      (In r (App.toggleRod i0 j0 prev) <-> In r prev))
  /\ (NoDup prev -> NoDup (App.toggleRod i0 j0 prev)).
Proof.
  unfold App.toggleRod. cbv zeta.
  destruct (existsb (App.sameNode i0 j0) prev) eqn:E.
  - assert (Hin : In {| PotentialField.i := i0; PotentialField.j := j0 |} prev) by now apply existsb_sameNode.
    split; [ | split ].
    + rewrite filter_In. split; [ | tauto ].
      intros [_ H]. exfalso. apply negb_true_iff in H.
      assert (App.sameNode i0 j0 {| PotentialField.i := i0; PotentialField.j := j0 |} = true)
        by now apply sameNode_true.
      congruence.
    + intros r Hr. rewrite filter_In. split; [ tauto | ].
      intros H. split; [ exact H | ]. apply negb_true_iff.
      destruct (App.sameNode i0 j0 r) eqn:Er; [ | reflexivity ].
      apply sameNode_true in Er. contradiction.
    + apply NoDup_filter.
  - assert (Hnin : ~ In {| PotentialField.i := i0; PotentialField.j := j0 |} prev).
    { intros H. apply existsb_sameNode in H. congruence. }
    split; [ | split ].
    + rewrite in_app_iff. split; [ tauto | ]. intros _. right. left. reflexivity.
    + intros r Hr. rewrite in_app_iff. split; [ | tauto ].
      intros [H | [H | []]]; [ exact H | ]. symmetry in H. contradiction.
    + intros Hnd. apply NoDup_app; [ exact Hnd | repeat constructor; intros [] | ].
      intros a Ha [<- | []]. contradiction.
Qed.

(** X22.  Toggling a free node twice gives the list back; toggling an
    occupied node twice gives the rods back as a set, the toggled rod now
    standing last. *)
Theorem toggleRod_twice (i0 j0 : nat) (prev : list PotentialField.Rod) :
  (~ In {| PotentialField.i := i0; PotentialField.j := j0 |} prev ->
   App.toggleRod i0 j0 (App.toggleRod i0 j0 prev) = prev)
  /\ (In {| PotentialField.i := i0; PotentialField.j := j0 |} prev ->
      App.toggleRod i0 j0 (App.toggleRod i0 j0 prev)
      = filter (fun r => negb (App.sameNode i0 j0 r)) prev
        ++ [ {| PotentialField.i := i0; PotentialField.j := j0 |} ])
  /\ (forall r : PotentialField.Rod,
        In r (App.toggleRod i0 j0 (App.toggleRod i0 j0 prev)) <-> In r prev).
Proof.
  assert (Hkeep : forall l : list PotentialField.Rod,
            ~ In {| PotentialField.i := i0; PotentialField.j := j0 |} l ->
            filter (fun r => negb (App.sameNode i0 j0 r)) l = l).
  { induction l as [ | a l IH]; intros Hnin; [ reflexivity | ].
    cbn [filter]. destruct (App.sameNode i0 j0 a) eqn:Ea.
    - apply sameNode_true in Ea. subst a. exfalso. apply Hnin. left. reflexivity.
    - cbn [negb]. rewrite IH; [ reflexivity | ]. intros H. apply Hnin. right. exact H. }
  assert (Hfree : ~ In {| PotentialField.i := i0; PotentialField.j := j0 |} prev ->
            App.toggleRod i0 j0 (App.toggleRod i0 j0 prev) = prev).
  { intros Hnin. unfold App.toggleRod at 2. cbv zeta.
    replace (existsb (App.sameNode i0 j0) prev) with false.
    2: { symmetry. apply not_true_is_false. intros H.
         apply existsb_sameNode in H. contradiction. }
    unfold App.toggleRod. cbv zeta.
    replace (existsb (App.sameNode i0 j0) (prev ++ [{| PotentialField.i := i0; PotentialField.j := j0 |}]))
      with true.
    2: { symmetry. apply existsb_sameNode, in_app_iff. right. left. reflexivity. }
    rewrite filter_app, (Hkeep prev Hnin). cbn [filter].
    replace (App.sameNode i0 j0 {| PotentialField.i := i0; PotentialField.j := j0 |}) with true
      by (symmetry; now apply sameNode_true).
    cbn [negb]. apply app_nil_r. }
  assert (Hheld : In {| PotentialField.i := i0; PotentialField.j := j0 |} prev ->
            App.toggleRod i0 j0 (App.toggleRod i0 j0 prev)
            = filter (fun r => negb (App.sameNode i0 j0 r)) prev
              ++ [ {| PotentialField.i := i0; PotentialField.j := j0 |} ]).
  { intros Hin. unfold App.toggleRod at 2. cbv zeta.
    replace (existsb (App.sameNode i0 j0) prev) with true
      by (symmetry; now apply existsb_sameNode).
    unfold App.toggleRod. cbv zeta.
    replace (existsb (App.sameNode i0 j0)
               (filter (fun r => negb (App.sameNode i0 j0 r)) prev)) with false;
      [ reflexivity | ].
    symmetry. apply not_true_is_false. intros H.
    apply existsb_sameNode, filter_In in H. destruct H as [_ H].
    apply negb_true_iff in H.
    assert (App.sameNode i0 j0 {| PotentialField.i := i0; PotentialField.j := j0 |} = true)
      by now apply sameNode_true.
    congruence. }
  split; [ exact Hfree | split; [ exact Hheld | ] ].
  intros r.
  destruct (in_dec (fun a b : PotentialField.Rod =>
                      ltac:(decide equality; apply Nat.eq_dec) : {a = b} + {a <> b})
              {| PotentialField.i := i0; PotentialField.j := j0 |} prev) as [Hin | Hnin].
  - rewrite (Hheld Hin), in_app_iff, filter_In. split.
    + intros [[H _] | [<- | []]]; assumption.
    + intros H. destruct (App.sameNode i0 j0 r) eqn:Er.
      * apply sameNode_true in Er. right. left. symmetry. exact Er.
      * left. split; [ exact H | reflexivity ].
  - rewrite (Hfree Hnin). tauto.
Qed.

(** ** Further properties: the image series and the apparent resistivity *)

(** A property kept by the loop body holds when the loop is left. *)
Lemma while_invariant (P : SoilMath.LoopState -> Prop) (k alpha : R) :
  (forall s, SoilMath.loopCondition s = true -> P s -> P (SoilMath.loopBody k alpha s)) ->
  forall (fuel : nat) (s s' : SoilMath.LoopState),
    P s -> SoilMath.while fuel k alpha s = Some s' -> P s'.
Proof.
  intros Hbody. induction fuel as [ | fuel IH]; intros s s' Hs Hrun; [ discriminate | ].
  cbn [SoilMath.while] in Hrun.
  destruct (SoilMath.loopCondition s) eqn:Hc.
  - apply (IH _ _ (Hbody s Hc Hs) Hrun).
  - injection Hrun as <-. exact Hs.
Qed.

(** The value of [calculateN] is read off the state the loop leaves in. *)
Lemma calculateN_from_loop (k alpha : R) :
  alpha <> 0 ->
  exists s' : SoilMath.LoopState,
    SoilMath.while SoilMath.maxIterations k alpha SoilMath.initial = Some s'
    /\ SoilMath.calculateN k alpha = 1 + 2 * SoilMath.sum s'.
Proof.
  intros Ha.
  destruct (while_enough_fuel k alpha SoilMath.maxIterations SoilMath.initial)
    as [s' Hrun]; [ cbn; pose proof maxIterations_value; lia | ].
  exists s'. split; [ exact Hrun | ].
  unfold SoilMath.calculateN, SoilMath.calculateN_fuel.
  replace (alpha =? 0) with false by (symmetry; apply eqb_false; exact Ha).
  rewrite Hrun. reflexivity.
Qed.

(** Each term is damped: the root in its denominator is at least 1. *)
Lemma series_denominator_ge_1 (y : R) : 1 <= sqrt (1 + y ^ 2).
Proof.
  rewrite <- sqrt_1 at 1. apply sqrt_le_1_alt.
  assert (0 <= y ^ 2) by (simpl; nra). lra.
Qed.

Lemma series_term_bounds (k y : R) (n : nat) :
  0 <= k -> 0 <= k ^ n / sqrt (1 + y ^ 2) <= k ^ n.
Proof.
  intros Hk.
  assert (Hp : 0 <= k ^ n) by (apply pow_le; exact Hk).
  pose proof (series_denominator_ge_1 y) as Hd.
  assert (Hi : 0 < / sqrt (1 + y ^ 2) <= 1).
  { split; [ apply Rinv_0_lt_compat; lra | ].
    apply Rle_trans with (/ 1); [ apply Rinv_le_contravar; lra | rewrite Rinv_1; lra ]. }
  unfold Rdiv. split; nra.
Qed.

(** For a reflection coefficient [k >= 0] the series factor is at least 1,
    and for [0 <= k < 1] it is at most [(1 + k) / (1 - k)], the sum of the
    undamped geometric series. *)
Lemma series_factor_nonnegative_k (k alpha : R) :
  0 <= k ->
  1 <= SoilMath.calculateN k alpha
  /\ (k < 1 -> SoilMath.calculateN k alpha <= (1 + k) / (1 - k)).
Proof.
  intros Hk.
  destruct (Req_dec_T alpha 0) as [-> | Ha].
  - unfold SoilMath.calculateN, SoilMath.calculateN_fuel.
    replace (0 =? 0) with true by (symmetry; apply eqb_true; reflexivity).
    split; [ lra | ]. intros Hk1.
    apply Rmult_le_reg_r with (1 - k); [ lra | ].
    unfold Rdiv. rewrite Rmult_assoc, Rinv_l by lra. lra.
  - destruct (calculateN_from_loop k alpha Ha) as (s' & Hrun & ->).
    assert (Hinv : 0 <= SoilMath.sum s'
                   /\ (k < 1 -> SoilMath.sum s' * (1 - k) <= k - k ^ SoilMath.n s')).
    { apply (while_invariant
               (fun s => 0 <= SoilMath.sum s
                         /\ (k < 1 -> SoilMath.sum s * (1 - k) <= k - k ^ SoilMath.n s))
               k alpha) with (fuel := SoilMath.maxIterations) (s := SoilMath.initial);
        [ | cbn; lra | exact Hrun ].
      intros s _ [H0 H1]. unfold SoilMath.loopBody. cbn [SoilMath.sum SoilMath.n].
      pose proof (series_term_bounds k (2 * INR (SoilMath.n s) / alpha) (SoilMath.n s) Hk)
        as [Ht0 Ht1].
      set (term := k ^ SoilMath.n s / sqrt (1 + (2 * INR (SoilMath.n s) / alpha) ^ 2)) in *.
      split; [ lra | ].
      intros Hk1. specialize (H1 Hk1). cbn [pow].
      assert (Hprod : 0 <= (k ^ SoilMath.n s - term) * (1 - k))
        by (apply Rmult_le_pos; lra).
      nra. }
    destruct Hinv as [H0 H1].
    split; [ lra | ]. intros Hk1. specialize (H1 Hk1).
    assert (Hp : 0 <= k ^ SoilMath.n s') by (apply pow_le; exact Hk).
    apply Rmult_le_reg_r with (1 - k); [ lra | ].
    unfold Rdiv. rewrite (Rmult_assoc (1 + k)), Rinv_l by lra. nra.
Qed.

(** The root in the denominator grows strictly with the index. *)
Lemma series_denominator_increasing (alpha : R) (m : nat) :
  alpha <> 0 ->
  0 < sqrt (1 + (2 * INR m / alpha) ^ 2)
    < sqrt (1 + (2 * INR (S m) / alpha) ^ 2).
Proof.
  intros Ha.
  pose proof (series_denominator_ge_1 (2 * INR m / alpha)) as Hd.
  split; [ lra | ].
  apply sqrt_lt_1_alt.
  assert (Hm : 0 <= INR m) by apply pos_INR.
  rewrite S_INR.
  assert (Hi : 0 < (/ alpha) ^ 2).
  { simpl. rewrite Rmult_1_r.
    assert (/ alpha <> 0) by (apply Rinv_neq_0_compat; exact Ha).
    destruct (Rlt_dec 0 (/ alpha)); nra. }
  unfold Rdiv. rewrite !Rpow_mult_distr.
  assert (H0 : 0 <= (2 * INR m) ^ 2) by (simpl; nra).
  assert (H1 : (2 * INR m) ^ 2 < (2 * (INR m + 1)) ^ 2) by (simpl; nra).
  split; nra.
Qed.

(** For [-1 <= k < 0] each term is the previous one times a factor strictly
    between -1 and 0. *)
Lemma series_term_alternates (k alpha : R) (m : nat) :
  -1 <= k < 0 -> alpha <> 0 ->
  exists c : R,
    -1 < c < 0
    /\ k ^ S m / sqrt (1 + (2 * INR (S m) / alpha) ^ 2)
       = c * (k ^ m / sqrt (1 + (2 * INR m / alpha) ^ 2)).
Proof.
  intros [Hk1 Hk0] Ha.
  destruct (series_denominator_increasing alpha m Ha) as [Hd0 Hd1].
  set (d := sqrt (1 + (2 * INR m / alpha) ^ 2)) in *.
  set (d' := sqrt (1 + (2 * INR (S m) / alpha) ^ 2)) in *.
  assert (Hq : 0 < d / d' < 1).
  { split; [ apply Rdiv_lt_0_compat; lra | ].
    apply Rmult_lt_reg_r with d'; [ lra | ].
    unfold Rdiv. rewrite Rmult_assoc, Rinv_l by lra. lra. }
  exists (k * (d / d')). split; [ split; nra | ].
  cbn [pow]. field. split; lra.
Qed.

(** For a negative reflection coefficient, [-1 <= k < 0], and [alpha <> 0]
    the series factor is strictly below 1: the alternating, damped terms
    leave a negative sum whenever the loop stops. *)
Lemma series_factor_negative_k (k alpha : R) :
  -1 <= k < 0 -> alpha <> 0 -> SoilMath.calculateN k alpha < 1.
Proof.
  intros Hk Ha.
  destruct (calculateN_from_loop k alpha Ha) as (s' & Hrun & ->).
  set (J := fun s : SoilMath.LoopState =>
              exists m : nat,
                SoilMath.n s = S m
                /\ SoilMath.term s = k ^ m / sqrt (1 + (2 * INR m / alpha) ^ 2)
                /\ SoilMath.term s <> 0
                /\ SoilMath.sum s < 0
                /\ (SoilMath.term s < 0 -> SoilMath.sum s <= SoilMath.term s)).
  assert (Hstep : forall s, SoilMath.loopCondition s = true -> J s ->
                            J (SoilMath.loopBody k alpha s)).
  { intros s _ (m & Hn & Hterm & Hne & Hsum & Hneg).
    destruct (series_term_alternates k alpha m Hk Ha) as (c & Hc & Hnext).
    exists (S m). unfold SoilMath.loopBody. cbn [SoilMath.sum SoilMath.n SoilMath.term].
    rewrite Hn, Hnext, <- Hterm.
    split; [ reflexivity | ]. split; [ reflexivity | ].
    split; [ nra | ].
    destruct (Rlt_dec (SoilMath.term s) 0) as [Hlt | Hge].
    - specialize (Hneg Hlt). split; nra.
    - split; nra. }
  assert (Hfuel : exists fuel, SoilMath.maxIterations = S fuel).
  { destruct SoilMath.maxIterations eqn:E; [ | eauto ].
    pose proof maxIterations_value as Hmax. rewrite E in Hmax. discriminate. }
  destruct Hfuel as [fuel Hfuel]. rewrite Hfuel in Hrun.
  cbn [SoilMath.while] in Hrun.
  replace (SoilMath.loopCondition SoilMath.initial) with true in Hrun.
  2: { symmetry. apply loopCondition_true. cbn. rewrite Rabs_R1.
       unfold SoilMath.tolerance. split; [ lra | ].
       pose proof maxIterations_value. lia. }
  assert (HJ : J s').
  { apply (while_invariant J k alpha Hstep fuel
             (SoilMath.loopBody k alpha SoilMath.initial) s'); [ | exact Hrun ].
    exists 1%nat. unfold SoilMath.loopBody, SoilMath.initial.
    cbn [SoilMath.sum SoilMath.n SoilMath.term].
    assert (Hfirst : k ^ 1 / sqrt (1 + (2 * INR 1 / alpha) ^ 2) < 0).
    { pose proof (series_denominator_ge_1 (2 * INR 1 / alpha)) as Hd.
      assert (Hi : 0 < / sqrt (1 + (2 * INR 1 / alpha) ^ 2))
        by (apply Rinv_0_lt_compat; lra).
      unfold Rdiv. rewrite pow_1. nra. }
    repeat split; lra. }
  destruct HJ as (m & _ & _ & _ & Hsum & _). lra.
Qed.

(** X23.  The series factor lies on the side of the reflection
    coefficient: for [k >= 0] it is at least 1, and at most
    [(1 + k) / (1 - k)] when [k < 1]; for [-1 <= k < 0] and [alpha <> 0] it
    is strictly below 1. *)
Theorem calculateN_range (k alpha : R) :
  (0 <= k ->
   1 <= SoilMath.calculateN k alpha
   /\ (k < 1 -> SoilMath.calculateN k alpha <= (1 + k) / (1 - k)))
  /\ (-1 <= k < 0 -> alpha <> 0 -> SoilMath.calculateN k alpha < 1).
Proof.
  split.
  - intros Hk. apply series_factor_nonnegative_k. exact Hk.
  - intros Hk Ha. apply series_factor_negative_k; assumption.
Qed.

(** X24.  The apparent resistivity of a two-layer soil lies on the side of
    the lower layer: with [0 < rho1 < rho2] it is between [rho1] and
    [rho2]; with [0 < rho2 < rho1], a layer depth [h1 > 0] and a radius
    [r <> 0] it is strictly below [rho1]. *)
Theorem calculateApparentResistivity_side (rho1 rho2 h1 r : R) :
  (0 < rho1 -> rho1 < rho2 ->
   rho1 <= SoilMath.calculateApparentResistivity rho1 (Some rho2) h1 r <= rho2)
  /\ (0 < rho2 -> rho2 < rho1 -> 0 < h1 -> r <> 0 ->
      SoilMath.calculateApparentResistivity rho1 (Some rho2) h1 r < rho1).
Proof.
  split.
  - intros H1 H12. unfold SoilMath.calculateApparentResistivity.
    destruct ((rho2 =? 0) || (rho2 =? rho1) || (h1 =? 0) || (h1 <=? 0)); [ lra | ].
    cbv zeta. unfold SoilMath.calculateReflectionK.
    replace (rho1 + rho2 =? 0) with false by (symmetry; apply eqb_false; lra).
    set (k := (rho2 - rho1) / (rho2 + rho1)).
    assert (Hk : 0 < k < 1).
    { subst k. split.
      - apply Rdiv_lt_0_compat; lra.
      - apply Rmult_lt_reg_r with (rho2 + rho1); [ lra | ].
        unfold Rdiv. rewrite Rmult_assoc, Rinv_l by lra. lra. }
    destruct (series_factor_nonnegative_k k (r / h1)) as [Hlo Hhi]; [ lra | ].
    specialize (Hhi ltac:(lra)).
    assert (Hratio : (1 + k) / (1 - k) = rho2 / rho1) by (subst k; field; lra).
    rewrite Hratio in Hhi.
    split; [ nra | ].
    apply Rmult_le_compat_r with (r := rho1) in Hhi; [ | lra ].
    unfold Rdiv in Hhi. rewrite Rmult_assoc, Rinv_l, Rmult_1_r in Hhi by lra.
    exact Hhi.
  - intros H2 H21 Hh Hr. unfold SoilMath.calculateApparentResistivity.
    replace (rho2 =? 0) with false by (symmetry; apply eqb_false; lra).
    replace (rho2 =? rho1) with false by (symmetry; apply eqb_false; lra).
    replace (h1 =? 0) with false by (symmetry; apply eqb_false; lra).
    guard_le_false h1 0. cbn [orb]. cbv zeta.
    unfold SoilMath.calculateReflectionK.
    replace (rho1 + rho2 =? 0) with false by (symmetry; apply eqb_false; lra).
    set (k := (rho2 - rho1) / (rho2 + rho1)).
    assert (Hk : -1 <= k < 0).
    { subst k. split.
      - apply Rmult_le_reg_r with (rho2 + rho1); [ lra | ].
        unfold Rdiv. rewrite Rmult_assoc, Rinv_l by lra. lra.
      - apply Rmult_lt_reg_r with (rho2 + rho1); [ lra | ].
        unfold Rdiv. rewrite Rmult_assoc, Rinv_l by lra. lra. }
    assert (Halpha : r / h1 <> 0).
    { unfold Rdiv. apply Rmult_integral_contrapositive_currified;
        [ exact Hr | apply Rinv_neq_0_compat; lra ]. }
    pose proof (series_factor_negative_k k (r / h1) Hk Halpha) as HN. nra.
Qed.

(** ** Further properties: the presumed touch voltage curve *)

Lemma ln_10_pos : 0 < ln 10.
Proof. rewrite <- ln_1. apply ln_increasing; lra. Qed.

Lemma log10_le (x y : R) : 0 < x -> x <= y -> JS.log10 x <= JS.log10 y.
Proof.
  intros Hx [Hlt | <-]; [ | lra ].
  unfold JS.log10, Rdiv. apply Rmult_le_compat_r.
  - left. apply Rinv_0_lt_compat, ln_10_pos.
  - left. apply ln_increasing; assumption.
Qed.

Lemma log10_lt (x y : R) : 0 < x -> x < y -> JS.log10 x < JS.log10 y.
Proof.
  intros Hx Hlt. unfold JS.log10, Rdiv. apply Rmult_lt_compat_r.
  - apply Rinv_0_lt_compat, ln_10_pos.
  - apply ln_increasing; assumption.
Qed.

Lemma pow10_log10 (x : R) : 0 < x -> JS.pow 10 (JS.log10 x) = x.
Proof.
  intros Hx. unfold JS.pow, JS.log10, Rpower.
  replace (ln x / ln 10 * ln 10) with (ln x)
    by (field; apply Rgt_not_eq, ln_10_pos).
  apply exp_ln. exact Hx.
Qed.

(** On a bracket of a falling curve the interpolated value starts at the
    left ordinate, ends at the right one and never rises in between. *)
Lemma interpolateSegment_falling (p1 p2 : GroundingMath.NBR14039Point) :
  0 < GroundingMath.t p1 < GroundingMath.t p2 ->
  0 < GroundingMath.v p2 <= GroundingMath.v p1 ->
  GroundingMath.interpolateSegment p1 p2 (GroundingMath.t p1) = GroundingMath.v p1
  /\ GroundingMath.interpolateSegment p1 p2 (GroundingMath.t p2) = GroundingMath.v p2
  /\ (forall x y : R,
        GroundingMath.t p1 <= x -> x <= y -> y <= GroundingMath.t p2 ->
        GroundingMath.interpolateSegment p1 p2 y
        <= GroundingMath.interpolateSegment p1 p2 x).
Proof.
  intros [Ht1 Ht12] [Hv2 Hv21].
  assert (HD : 0 < JS.log10 (GroundingMath.t p2) - JS.log10 (GroundingMath.t p1)).
  { pose proof (log10_lt _ _ Ht1 Ht12). lra. }
  assert (HL : JS.log10 (GroundingMath.v p2) <= JS.log10 (GroundingMath.v p1))
    by (apply log10_le; assumption).
  unfold GroundingMath.interpolateSegment. cbv zeta.
  split; [ | split ].
  - replace (JS.log10 (GroundingMath.t p1) - JS.log10 (GroundingMath.t p1)) with 0 by ring.
    unfold Rdiv at 1. rewrite Rmult_0_l, Rmult_0_r, Rplus_0_r.
    apply pow10_log10. lra.
  - unfold Rdiv at 1. rewrite Rinv_r by lra. rewrite Rmult_1_r.
    replace (JS.log10 (GroundingMath.v p1)
             + (JS.log10 (GroundingMath.v p2) - JS.log10 (GroundingMath.v p1)))
      with (JS.log10 (GroundingMath.v p2)) by ring.
    apply pow10_log10. exact Hv2.
  - intros x y Hx Hxy Hy. unfold JS.pow. apply Rle_Rpower; [ lra | ].
    assert (Hlog : JS.log10 x <= JS.log10 y) by (apply log10_le; lra).
    set (D := JS.log10 (GroundingMath.t p2) - JS.log10 (GroundingMath.t p1)) in *.
    assert (Hratio : (JS.log10 x - JS.log10 (GroundingMath.t p1)) / D
                     <= (JS.log10 y - JS.log10 (GroundingMath.t p1)) / D).
    { unfold Rdiv. apply Rmult_le_compat_r; [ | lra ].
      left. apply Rinv_0_lt_compat. exact HD. }
    nra.
Qed.

(** Two consecutive points of a list are a pair of the list zipped with its
    tail. *)
Lemma in_consecutive {A : Type} (l1 l2 : list A) (p1 p2 : A) :
  In (p1, p2) (combine (l1 ++ p1 :: p2 :: l2) (tl (l1 ++ p1 :: p2 :: l2))).
Proof.
  induction l1 as [ | a l1 IH]; [ left; reflexivity | ].
  cbn [app tl]. destruct (l1 ++ p1 :: p2 :: l2) as [ | b rest] eqn:E.
  - destruct l1; discriminate.
  - cbn [combine]. right. exact IH.
Qed.

(** On the clamped range the value of either curve is an interpolated value
    on a bracket of consecutive tabulated points around the duration. *)
Lemma curve_value_on_bracket (area : GroundingMath.NBR14039Area) (x : R) :
  0.01 <= x <= 10 ->
  exists p1 p2 : GroundingMath.NBR14039Point,
    In (p1, p2) (combine (GroundingMath.nbr14039Curve area)
                         (tl (GroundingMath.nbr14039Curve area)))
    /\ GroundingMath.t p1 <= x <= GroundingMath.t p2
    /\ GroundingMath.interpolateLogLog (GroundingMath.nbr14039Curve area) x
       = GroundingMath.interpolateSegment p1 p2 x.
Proof.
  intros [Hlo Hhi].
  destruct (Rle_dec x 0.01) as [H0 | H0]; [ | destruct (Rle_dec 10 x) as [H1 | H1] ].
  - assert (x = 0.01) by lra. subst x.
    destruct area;
      [ exists {| GroundingMath.t := 0.01; GroundingMath.v := 1000 |},
               {| GroundingMath.t := 0.03; GroundingMath.v := 700 |}
      | exists {| GroundingMath.t := 0.01; GroundingMath.v := 800 |},
               {| GroundingMath.t := 0.03; GroundingMath.v := 550 |} ];
      (split; [ left; reflexivity | ]);
      (split; [ cbn [GroundingMath.t]; lra | ]);
      match goal with
      | |- _ = GroundingMath.interpolateSegment ?p ?q _ =>
        transitivity (GroundingMath.v p);
          [ | symmetry; apply (interpolateSegment_falling p q);
              cbn [GroundingMath.t GroundingMath.v]; lra ]
      end;
      cbn [GroundingMath.nbr14039Curve GroundingMath.nbr14039InternalCurve
             GroundingMath.nbr14039ExternalCurve GroundingMath.interpolateLogLog
             GroundingMath.t GroundingMath.v];
      guard_le_true 0.01 0.01; reflexivity.
  - assert (x = 10) by lra. subst x.
    destruct area;
      [ exists {| GroundingMath.t := 3; GroundingMath.v := 170 |},
               {| GroundingMath.t := 10; GroundingMath.v := 120 |}
      | exists {| GroundingMath.t := 3; GroundingMath.v := 130 |},
               {| GroundingMath.t := 10; GroundingMath.v := 90 |} ];
      (split; [ do 5 right; left; reflexivity | ]);
      (split; [ cbn [GroundingMath.t]; lra | ]);
      match goal with
      | |- _ = GroundingMath.interpolateSegment ?p ?q _ =>
        transitivity (GroundingMath.v q);
          [ | symmetry; apply (interpolateSegment_falling p q);
              cbn [GroundingMath.t GroundingMath.v]; lra ]
      end;
      cbn [GroundingMath.nbr14039Curve GroundingMath.nbr14039InternalCurve
             GroundingMath.nbr14039ExternalCurve GroundingMath.interpolateLogLog
             GroundingMath.t GroundingMath.v List.length Nat.sub nth];
      guard_le_false 10 0.01; guard_le_true 10 10; reflexivity.
  - assert (Hbr : exists l1 p1 p2 l2,
               GroundingMath.nbr14039Curve area = l1 ++ p1 :: p2 :: l2
               /\ GroundingMath.t p1 <= x <= GroundingMath.t p2
               /\ GroundingMath.interpolateBrackets (GroundingMath.nbr14039Curve area) x
                  = GroundingMath.interpolateSegment p1 p2 x).
    { destruct area; apply interpolateBrackets_bracket;
        try discriminate; cbn [last GroundingMath.t]; lra. }
    destruct Hbr as (l1 & p1 & p2 & l2 & Hsplit & Hin & Hval).
    exists p1, p2. split; [ rewrite Hsplit; apply in_consecutive | ].
    split; [ exact Hin | ]. rewrite <- Hval.
    destruct area;
      cbn [GroundingMath.nbr14039Curve GroundingMath.nbr14039InternalCurve
             GroundingMath.nbr14039ExternalCurve GroundingMath.interpolateLogLog
             GroundingMath.t GroundingMath.v List.length Nat.sub nth];
      guard_le_false x 0.01; guard_le_false 10 x; reflexivity.
Qed.

(** Two brackets of a falling curve, each around its own abscissa: the later
    abscissa has the lower value. *)
Lemma brackets_fall (p1 p2 q1 q2 : GroundingMath.NBR14039Point) (a b : R) :
  0 < GroundingMath.t p1 < GroundingMath.t p2 ->
  0 < GroundingMath.v p2 <= GroundingMath.v p1 ->
  0 < GroundingMath.t q1 < GroundingMath.t q2 ->
  0 < GroundingMath.v q2 <= GroundingMath.v q1 ->
  GroundingMath.t p1 <= a <= GroundingMath.t p2 ->
  GroundingMath.t q1 <= b <= GroundingMath.t q2 ->
  a <= b ->
  ((p1, p2) = (q1, q2)
   \/ GroundingMath.v q1 <= GroundingMath.v p2
   \/ (GroundingMath.t q2 <= GroundingMath.t p1
       /\ GroundingMath.v q2 <= GroundingMath.v p1)) ->
  GroundingMath.interpolateSegment q1 q2 b <= GroundingMath.interpolateSegment p1 p2 a
  /\ GroundingMath.v q2 <= GroundingMath.interpolateSegment q1 q2 b
  /\ GroundingMath.interpolateSegment p1 p2 a <= GroundingMath.v p1.
Proof.
  intros Htp Hvp Htq Hvq Ha Hb Hab Hcases.
  destruct (interpolateSegment_falling p1 p2 Htp Hvp) as (Ep1 & Ep2 & Mp).
  destruct (interpolateSegment_falling q1 q2 Htq Hvq) as (Eq1 & Eq2 & Mq).
  assert (HA1 : GroundingMath.interpolateSegment p1 p2 a <= GroundingMath.v p1)
    by (rewrite <- Ep1; apply Mp; lra).
  assert (HA2 : GroundingMath.v p2 <= GroundingMath.interpolateSegment p1 p2 a)
    by (rewrite <- Ep2; apply Mp; lra).
  assert (HB1 : GroundingMath.interpolateSegment q1 q2 b <= GroundingMath.v q1)
    by (rewrite <- Eq1; apply Mq; lra).
  assert (HB2 : GroundingMath.v q2 <= GroundingMath.interpolateSegment q1 q2 b)
    by (rewrite <- Eq2; apply Mq; lra).
  split; [ | split; assumption ].
  destruct Hcases as [E | [Hv | [Ht Hv]]].
  - injection E as <- <-. apply Mp; lra.
  - lra.
  - assert (HA3 : GroundingMath.v p1 <= GroundingMath.interpolateSegment p1 p2 a)
      by (rewrite <- Ep1; apply Mp; lra).
    assert (HB3 : GroundingMath.interpolateSegment q1 q2 b <= GroundingMath.v q2)
      by (rewrite <- Eq2; apply Mq; lra).
    lra.
Qed.

(** On the clamped range the curve falls and stays between its last and its
    first tabulated value. *)
Lemma curve_falls (area : GroundingMath.NBR14039Area) (a b : R) :
  0.01 <= a -> a <= b -> b <= 10 ->
  GroundingMath.interpolateLogLog (GroundingMath.nbr14039Curve area) b
  <= GroundingMath.interpolateLogLog (GroundingMath.nbr14039Curve area) a
  /\ (match area with GroundingMath.interna => 120 | GroundingMath.externa => 90 end)
     <= GroundingMath.interpolateLogLog (GroundingMath.nbr14039Curve area) b
  /\ GroundingMath.interpolateLogLog (GroundingMath.nbr14039Curve area) a
     <= (match area with GroundingMath.interna => 1000 | GroundingMath.externa => 800 end).
Proof.
  intros Ha Hab Hb.
  destruct (curve_value_on_bracket area a) as (p1 & p2 & Hp & Hpa & ->); [ lra | ].
  destruct (curve_value_on_bracket area b) as (q1 & q2 & Hq & Hqb & ->); [ lra | ].
  assert (Hall : GroundingMath.interpolateSegment q1 q2 b
                 <= GroundingMath.interpolateSegment p1 p2 a
                 /\ GroundingMath.v q2 <= GroundingMath.interpolateSegment q1 q2 b
                 /\ GroundingMath.interpolateSegment p1 p2 a <= GroundingMath.v p1
                 /\ (match area with
                     | GroundingMath.interna => 120
                     | GroundingMath.externa => 90
                     end) <= GroundingMath.v q2
                 /\ GroundingMath.v p1
                    <= (match area with
                        | GroundingMath.interna => 1000
                        | GroundingMath.externa => 800
                        end)).
  { destruct area;
      cbn [GroundingMath.nbr14039Curve GroundingMath.nbr14039InternalCurve
             GroundingMath.nbr14039ExternalCurve combine tl In] in Hp, Hq;
      repeat (destruct Hp as [Hp | Hp]; [ injection Hp as <- <- | ]); try contradiction;
      repeat (destruct Hq as [Hq | Hq]; [ injection Hq as <- <- | ]); try contradiction;
      cbn [GroundingMath.t GroundingMath.v] in Hpa, Hqb;
      (rewrite <- !and_assoc; split; [ split | ];
       [ rewrite and_assoc; apply brackets_fall;
         cbn [GroundingMath.t GroundingMath.v]; try lra;
         first [ left; reflexivity
               | right; left; lra
               | right; right; split; lra ]
       | cbn [GroundingMath.v]; lra
       | cbn [GroundingMath.v]; lra ]). }
  destruct Hall as (H1 & H2 & H3 & H4 & H5). repeat split; lra.
Qed.

(** X27.  The presumed touch voltage never rises with the duration: for
    [0 < t1 <= t2] the value at [t2] is at most the value at [t1], on either
    curve, and every value lies between the last and the first tabulated
    voltage (120 to 1000 V inside, 90 to 800 V outside). *)
Theorem calculateNBR14039TouchVoltage_falls
  (area : GroundingMath.NBR14039Area) (t1 t2 : R) :
  0 < t1 -> t1 <= t2 ->
  exists V1 V2 : R,
    GroundingMath.calculateNBR14039TouchVoltage (JS.Finite t1) area = Some V1
    /\ GroundingMath.calculateNBR14039TouchVoltage (JS.Finite t2) area = Some V2
    /\ V2 <= V1
    /\ (match area with GroundingMath.interna => 120 | GroundingMath.externa => 90 end)
       <= V2
    /\ V1 <= (match area with GroundingMath.interna => 1000 | GroundingMath.externa => 800 end).
Proof.
  intros H1 H12.
  rewrite !calculateNBR14039TouchVoltage_finite by lra.
  set (a := Rmin (Rmax t1 0.01) 10). set (b := Rmin (Rmax t2 0.01) 10).
  assert (Hab : 0.01 <= a /\ a <= b /\ b <= 10).
  { subst a b. unfold Rmin, Rmax.
    destruct (Rle_dec t1 0.01); destruct (Rle_dec t2 0.01);
      repeat match goal with |- context [Rle_dec ?x ?y] => destruct (Rle_dec x y) end;
      lra. }
  destruct Hab as (Ha & Hab & Hb).
  destruct (curve_falls area a b Ha Hab Hb) as (Hfall & Hlow & Hhigh).
  eexists. eexists. split; [ reflexivity | ]. split; [ reflexivity | ].
  repeat split; assumption.
Qed.

Lemma calculateNBR14039TouchVoltage_falls_witness :
  exists V1 V2 : R,
    GroundingMath.calculateNBR14039TouchVoltage (JS.Finite 0.5) GroundingMath.interna
    = Some V1
    /\ GroundingMath.calculateNBR14039TouchVoltage (JS.Finite 2) GroundingMath.interna
       = Some V2
    /\ V2 <= V1 /\ 120 <= V2 /\ V1 <= 1000.
Proof.
  apply (calculateNBR14039TouchVoltage_falls GroundingMath.interna 0.5 2); lra.
Defined.

(** ** Further properties: the potential field *)

(** Every source lies below the surface and has a positive weight. *)
Lemma fieldSources_below_surface (lx ly : R) (nx ny : nat) (depth : R)
  (rods : list PotentialField.Rod) (rodLength : R) :
  0 < depth -> 0 <= rodLength ->
  Forall (fun src => 0 < PotentialField.weight src /\ PotentialField.z src < 0)
         (PotentialField.fieldSources lx ly nx ny depth rods rodLength).
Proof.
  intros Hd Hr. unfold PotentialField.fieldSources. cbv zeta.
  repeat rewrite Forall_app. repeat split.
  - apply Forall_flat_map, Forall_forall. intros j _.
    apply Forall_map, Forall_forall. intros k _. cbn. lra.
  - apply Forall_flat_map, Forall_forall. intros i _.
    apply Forall_map, Forall_forall. intros k _. cbn. lra.
  - apply Forall_flat_map, Forall_forall. intros rod _.
    apply Forall_map, Forall_forall. intros k _.
    cbn [PotentialField.weight PotentialField.z]. split; [ lra | ].
    assert (0 <= INR k / INR 3 * rodLength).
    { apply Rmult_le_pos; [ | exact Hr ].
      apply Rmult_le_pos; [ apply pos_INR | ].
      left. apply Rinv_0_lt_compat. simpl. lra. }
    lra.
Qed.

Lemma fieldSources_nonempty (lx ly : R) (nx ny : nat) (depth : R)
  (rods : list PotentialField.Rod) (rodLength : R) :
  (0 < ny)%nat ->
  PotentialField.fieldSources lx ly nx ny depth rods rodLength <> [].
Proof.
  intros Hny. unfold PotentialField.fieldSources. cbv zeta.
  destruct ny as [ | ny]; [ lia | ].
  cbn [seq flat_map map app]. discriminate.
Qed.

(** Sources below the surface give every pixel a positive potential. *)
Lemma pixelPotential_positive (sources : list PotentialField.Source)
  (resolution : nat) (width height offset : R) (r c : nat) :
  Forall (fun src => 0 < PotentialField.weight src /\ PotentialField.z src < 0) sources ->
  sources <> [] ->
  0 < PotentialField.pixelPotential sources resolution width height offset r c.
Proof.
  intros Hall Hne. unfold PotentialField.pixelPotential. cbv zeta.
  set (px := - offset + INR c / (INR resolution - 1) * width).
  set (py := - offset + INR r / (INR resolution - 1) * height).
  set (step := fun potential src => _).
  assert (Hterm : forall src, 0 < PotentialField.weight src /\ PotentialField.z src < 0 ->
            forall acc, acc < step acc src).
  { intros src [Hw Hz] acc. subst step. cbv beta.
    assert (0 < PotentialField.weight src
                / sqrt ((px - PotentialField.x src) * (px - PotentialField.x src)
                        + (py - PotentialField.y src) * (py - PotentialField.y src)
                        + (0 - PotentialField.z src) * (0 - PotentialField.z src))).
    { apply Rdiv_lt_0_compat; [ exact Hw | apply sqrt_lt_R0 ].
      pose proof (Rle_0_sqr (px - PotentialField.x src)) as Hx.
      pose proof (Rle_0_sqr (py - PotentialField.y src)) as Hy.
      unfold Rsqr in Hx, Hy.
      assert (0 < (0 - PotentialField.z src) * (0 - PotentialField.z src))
        by (apply Rmult_lt_0_compat; lra).
      lra. }
    lra. }
  assert (Hfold : forall l, Forall (fun src => 0 < PotentialField.weight src
                                               /\ PotentialField.z src < 0) l ->
            forall acc, acc <= fold_left step l acc
                        /\ (l <> [] -> acc < fold_left step l acc)).
  { induction l as [ | src l IH]; intros Hl acc; cbn [fold_left].
    - split; [ lra | congruence ].
    - inversion Hl as [ | ? ? Hsrc Hl' ]; subst.
      destruct (IH Hl' (step acc src)) as [Hle _].
      pose proof (Hterm src Hsrc acc). split; [ lra | intros _; lra ]. }
  apply (Hfold sources Hall 0). exact Hne.
Qed.

(** The field, its running maximum and the normalised matrix, read cell by
    cell. *)
Lemma calculatePotentialField_matrix
  (lx ly : R) (nx ny : nat) (depth : R) (rods : list PotentialField.Rod)
  (rodLength : R) (resolution : nat) (offset : R) :
  0 < depth -> 0 <= rodLength ->
  (2 <= nx)%nat -> (2 <= ny)%nat -> (2 <= resolution)%nat ->
  let res := PotentialField.calculatePotentialField
               lx ly nx ny depth rods rodLength resolution offset in
  PotentialField.width res = lx + 2 * offset
  /\ PotentialField.height res = ly + 2 * offset
  /\ PotentialField.offset res = offset
  /\ List.length (PotentialField.matrix res) = resolution
  /\ Forall (fun row => List.length row = resolution) (PotentialField.matrix res)
  /\ Forall (Forall (fun v => 0 < v <= 1)) (PotentialField.matrix res)
  /\ exists r c, (r < resolution)%nat /\ (c < resolution)%nat
       /\ PotentialField.cell (PotentialField.matrix res) r c = 1.
Proof.
  intros Hd Hrl Hnx Hny Hres res. subst res.
  unfold PotentialField.calculatePotentialField. cbv zeta.
  cbn [PotentialField.width PotentialField.height PotentialField.offset
         PotentialField.matrix].
  set (sources := PotentialField.fieldSources lx ly nx ny depth rods rodLength).
  set (pot := PotentialField.pixelPotential sources resolution
                (lx + 2 * offset) (ly + 2 * offset) offset).
  set (field := map (fun r => map (fun c => pot r c) (seq 0 resolution))
                    (seq 0 resolution)).
  set (maxPotential := fold_left PotentialField.updateMax (concat field) 0).
  assert (Hpos : forall r c, 0 < pot r c).
  { intros r c. apply pixelPotential_positive.
    - apply fieldSources_below_surface; assumption.
    - apply fieldSources_nonempty. lia. }
  assert (Hge : forall r c, (r < resolution)%nat -> (c < resolution)%nat ->
                            pot r c <= maxPotential).
  { intros r c Hr Hc. apply (fold_updateMax_ge (concat field) 0), in_table.
    exists r, c. repeat split; assumption. }
  assert (Hmax : 0 < maxPotential).
  { apply Rlt_le_trans with (pot 0%nat 0%nat); [ apply Hpos | apply Hge; lia ]. }
  replace (maxPotential >? 0) with true by (symmetry; apply ltb_true; exact Hmax).
  unfold field. rewrite normalise_table.
  split; [ reflexivity | ]. split; [ reflexivity | ]. split; [ reflexivity | ].
  split; [ apply table_shape | ]. split; [ apply table_shape | ]. split.
  - apply table_entries. intros r c Hr Hc. split.
    + apply Rdiv_lt_0_compat; [ apply Hpos | exact Hmax ].
    + apply Rmult_le_reg_r with maxPotential; [ exact Hmax | ].
      unfold Rdiv. rewrite Rmult_assoc, Rinv_l by lra.
      specialize (Hge r c Hr Hc). lra.
  - destruct (fold_updateMax_attained (concat field) 0) as [H0 | Hin];
      [ fold maxPotential in H0; lra | ].
    apply in_table in Hin. destruct Hin as (r & c & Hr & Hc & Hrc).
    exists r, c. split; [ exact Hr | ]. split; [ exact Hc | ].
    rewrite (cell_of_table (fun r c => pot r c / maxPotential)) by assumption.
    fold maxPotential in Hrc. rewrite <- Hrc. unfold Rdiv. apply Rinv_r. lra.
Qed.

(** X28.  With a positive burial depth, a rod length that is not negative
    and at least two conductors each way, the potential field is a square
    matrix of the requested resolution over the mesh plus its margin, every
    entry lies in (0, 1] and some entry is exactly 1. *)
Theorem calculatePotentialField_normalised
  (lx ly : R) (nx ny : nat) (depth : R) (rods : list PotentialField.Rod)
  (rodLength : R) (resolution : nat) (offset : R) :
  0 < depth -> 0 <= rodLength ->
  (2 <= nx)%nat -> (2 <= ny)%nat -> (2 <= resolution)%nat ->
  let res := PotentialField.calculatePotentialField
               lx ly nx ny depth rods rodLength resolution offset in
  PotentialField.width res = lx + 2 * offset
  /\ PotentialField.height res = ly + 2 * offset
  /\ PotentialField.offset res = offset
  /\ List.length (PotentialField.matrix res) = resolution
  /\ Forall (fun row => List.length row = resolution) (PotentialField.matrix res)
  /\ Forall (Forall (fun v => 0 < v <= 1)) (PotentialField.matrix res)
  /\ exists r c, (r < resolution)%nat /\ (c < resolution)%nat
       /\ PotentialField.cell (PotentialField.matrix res) r c = 1.
Proof.
  exact (calculatePotentialField_matrix
           lx ly nx ny depth rods rodLength resolution offset).
Qed.

Lemma calculatePotentialField_normalised_witness :
  let res := PotentialField.calculatePotentialField 50 40 11 9 0.5
               [ {| PotentialField.i := 0; PotentialField.j := 0 |} ] 2.4 60 1.5 in
  PotentialField.width res = 50 + 2 * 1.5
  /\ PotentialField.height res = 40 + 2 * 1.5
  /\ PotentialField.offset res = 1.5
  /\ List.length (PotentialField.matrix res) = 60%nat
  /\ Forall (fun row => List.length row = 60%nat) (PotentialField.matrix res)
  /\ Forall (Forall (fun v => 0 < v <= 1)) (PotentialField.matrix res)
  /\ exists r c, (r < 60)%nat /\ (c < 60)%nat
       /\ PotentialField.cell (PotentialField.matrix res) r c = 1.
Proof.
  apply (calculatePotentialField_normalised 50 40 11 9 0.5
           [ {| PotentialField.i := 0; PotentialField.j := 0 |} ] 2.4 60 1.5);
    try lra; lia.
Defined.

(** ** Further properties: the visualisations of the computed field *)

Lemma cell_map (f : R -> R) (M : list (list R)) (r c : nat) :
  (r < List.length M)%nat -> (c < List.length (nth r M []))%nat ->
  PotentialField.cell (map (fun row => map f row) M) r c
  = f (PotentialField.cell M r c).
Proof.
  intros Hr Hc. unfold PotentialField.cell.
  rewrite (nth_indep _ [] (map f [])) by (now rewrite length_map).
  rewrite (map_nth (fun row => map f row) M [] r).
  rewrite (nth_indep _ 0 (f 0)) by (now rewrite length_map).
  apply map_nth.
Qed.

(** X25.  The touch visualisation drawn from the computed field: under the
    conditions above [calculateTouchMatrix] of the field's matrix is a
    square matrix of the requested resolution, every entry lies in [0, 1)
    and some entry, one where the potential is highest, is exactly 0. *)
Theorem calculateTouchMatrix_of_field
  (lx ly : R) (nx ny : nat) (depth : R) (rods : list PotentialField.Rod)
  (rodLength : R) (resolution : nat) (offset : R) :
  0 < depth -> 0 <= rodLength ->
  (2 <= nx)%nat -> (2 <= ny)%nat -> (2 <= resolution)%nat ->
  let fieldData := PotentialField.calculatePotentialField
                     lx ly nx ny depth rods rodLength resolution offset in
  let touchMatrix := PotentialField.calculateTouchMatrix
                       (PotentialField.matrix fieldData) in
  List.length touchMatrix = resolution
  /\ Forall (fun row => List.length row = resolution) touchMatrix
  /\ Forall (Forall (fun x => 0 <= x < 1)) touchMatrix
  /\ exists r c, (r < resolution)%nat /\ (c < resolution)%nat
       /\ nth c (nth r touchMatrix []) 0 = 0
       /\ nth c (nth r (PotentialField.matrix fieldData) []) 0 = 1.
Proof.
  intros Hd Hrl Hnx Hny Hres fieldData touchMatrix.
  destruct (calculatePotentialField_matrix
              lx ly nx ny depth rods rodLength resolution offset Hd Hrl Hnx Hny Hres)
    as (_ & _ & _ & Hrows & Hcols & Hrange & r & c & Hr & Hc & Hone).
  fold fieldData in Hrows, Hcols, Hrange, Hone.
  subst touchMatrix. unfold PotentialField.calculateTouchMatrix.
  split; [ rewrite length_map; exact Hrows | ]. split; [ | split ].
  - apply Forall_map. revert Hcols. apply Forall_impl. intros row Hrow.
    rewrite length_map. exact Hrow.
  - apply Forall_map. revert Hrange. apply Forall_impl. intros row Hrow.
    apply Forall_map. revert Hrow. apply Forall_impl. intros x Hx. lra.
  - exists r, c. split; [ exact Hr | ]. split; [ exact Hc | ].
    split; [ | exact Hone ].
    change (PotentialField.cell
              (map (fun row => map (fun val => 1 - val) row)
                   (PotentialField.matrix fieldData)) r c = 0).
    rewrite cell_map.
    + rewrite Hone. ring.
    + rewrite Hrows. exact Hr.
    + rewrite Forall_forall in Hcols. rewrite (Hcols (nth r _ [])); [ exact Hc | ].
      apply nth_In. rewrite Hrows. exact Hr.
Qed.

Lemma calculateTouchMatrix_of_field_witness :
  let fieldData := PotentialField.calculatePotentialField 50 40 11 9 0.5
                     [ {| PotentialField.i := 0; PotentialField.j := 0 |} ] 2.4 140 1.5 in
  let touchMatrix := PotentialField.calculateTouchMatrix
                       (PotentialField.matrix fieldData) in
  List.length touchMatrix = 140%nat
  /\ Forall (fun row => List.length row = 140%nat) touchMatrix
  /\ Forall (Forall (fun x => 0 <= x < 1)) touchMatrix
  /\ exists r c, (r < 140)%nat /\ (c < 140)%nat
       /\ nth c (nth r touchMatrix []) 0 = 0
       /\ nth c (nth r (PotentialField.matrix fieldData) []) 0 = 1.
Proof.
  apply (calculateTouchMatrix_of_field 50 40 11 9 0.5
           [ {| PotentialField.i := 0; PotentialField.j := 0 |} ] 2.4 140 1.5);
    try lra; lia.
Defined.

(** X26.  The step visualisation drawn from the computed field: under the
    same conditions [calculateStepMatrix] of the field's matrix does not
    throw, and it is a square matrix of the requested resolution whose
    every entry lies in [0, 1]. *)
Theorem calculateStepMatrix_of_field
  (lx ly : R) (nx ny : nat) (depth : R) (rods : list PotentialField.Rod)
  (rodLength : R) (resolution : nat) (offset : R) :
  0 < depth -> 0 <= rodLength ->
  (2 <= nx)%nat -> (2 <= ny)%nat -> (2 <= resolution)%nat ->
  let fieldData := PotentialField.calculatePotentialField
                     lx ly nx ny depth rods rodLength resolution offset in
  exists stepMatrix : list (list R),
    PotentialField.calculateStepMatrix (PotentialField.matrix fieldData)
    = Some stepMatrix
    /\ List.length stepMatrix = resolution
    /\ Forall (fun row => List.length row = resolution) stepMatrix
    /\ Forall (Forall (fun x => 0 <= x <= 1)) stepMatrix.
Proof.
  intros Hd Hrl Hnx Hny Hres fieldData.
  destruct (calculatePotentialField_matrix
              lx ly nx ny depth rods rodLength resolution offset Hd Hrl Hnx Hny Hres)
    as (_ & _ & _ & Hrows & Hcols & _).
  fold fieldData in Hrows, Hcols.
  assert (Hne : PotentialField.matrix fieldData <> []).
  { intros E. rewrite E in Hrows. cbn in Hrows. lia. }
  destruct (calculateStepMatrix_table (PotentialField.matrix fieldData) resolution
              Hne Hcols)
    as (stepMatrix & Hrun & Hlen & Hshape & Hrange & _).
  exists stepMatrix. split; [ exact Hrun | ].
  split; [ rewrite Hlen; exact Hrows | ]. split; assumption.
Qed.

Lemma calculateStepMatrix_of_field_witness :
  let fieldData := PotentialField.calculatePotentialField 50 40 11 9 0.5
                     [ {| PotentialField.i := 0; PotentialField.j := 0 |} ] 2.4 140 1.5 in
  exists stepMatrix : list (list R),
    PotentialField.calculateStepMatrix (PotentialField.matrix fieldData)
    = Some stepMatrix
    /\ List.length stepMatrix = 140%nat
    /\ Forall (fun row => List.length row = 140%nat) stepMatrix
    /\ Forall (Forall (fun x => 0 <= x <= 1)) stepMatrix.
Proof.
  apply (calculateStepMatrix_of_field 50 40 11 9 0.5
           [ {| PotentialField.i := 0; PotentialField.j := 0 |} ] 2.4 140 1.5);
    try lra; lia.
Defined.

(** ** Further properties: table lookup, mesh factors *)

(** [points[points.length - 1]] is the last point. *)
Lemma nth_length_pred_last {A : Type} (l : list A) (d : A) :
  nth (List.length l - 1) l d = last l d.
Proof.
  induction l as [ | a l IH]; [ reflexivity | ].
  destruct l as [ | b l]; [ reflexivity | ].
  cbn [List.length Nat.sub] in *. rewrite Nat.sub_0_r in *.
  cbn [nth last]. exact IH.
Qed.

(** X29.  [interpolateLogLog] answers 0 on an empty table.  On any other
    table, sorted or not, it never reaches its final [return 0]: the answer
    is the first ordinate (at or below the first abscissa), the last
    ordinate (at or above the last abscissa), or the interpolated value on a
    bracket of consecutive points around the abscissa. *)
Theorem interpolateLogLog_never_falls_through
  (points : list GroundingMath.NBR14039Point) (x : R) :
  (points = [] -> GroundingMath.interpolateLogLog points x = 0)
  /\ (forall first rest, points = first :: rest ->
      (x <= GroundingMath.t first
       /\ GroundingMath.interpolateLogLog points x = GroundingMath.v first)
      \/ (GroundingMath.t first < x
          /\ GroundingMath.t (last points first) <= x
          /\ GroundingMath.interpolateLogLog points x
             = GroundingMath.v (last points first))
      \/ (GroundingMath.t first < x < GroundingMath.t (last points first)
          /\ exists l1 p1 p2 l2,
               points = l1 ++ p1 :: p2 :: l2
               /\ GroundingMath.t p1 <= x <= GroundingMath.t p2
               /\ GroundingMath.interpolateLogLog points x
                  = GroundingMath.interpolateSegment p1 p2 x)).
Proof.
  split; [ intros ->; reflexivity | ].
  intros first rest ->.
  assert (Hlast : nth (List.length (first :: rest) - 1) (first :: rest) first
                  = last (first :: rest) first)
    by apply nth_length_pred_last.
  unfold GroundingMath.interpolateLogLog. cbv zeta. rewrite Hlast.
  set (lastPoint := last (first :: rest) first).
  destruct (Rle_dec x (GroundingMath.t first)) as [H0 | H0].
  - left. replace (x <=? GroundingMath.t first) with true
      by (symmetry; apply leb_true; exact H0).
    split; [ exact H0 | reflexivity ].
  - right. replace (x <=? GroundingMath.t first) with false
      by (symmetry; apply leb_false; lra).
    destruct (Rle_dec (GroundingMath.t lastPoint) x) as [H1 | H1].
    + left. replace (x >=? GroundingMath.t lastPoint) with true
        by (symmetry; apply leb_true; exact H1).
      split; [ lra | split; [ exact H1 | reflexivity ] ].
    + right. replace (x >=? GroundingMath.t lastPoint) with false
        by (symmetry; apply leb_false; lra).
      split; [ lra | ].
      apply interpolateBrackets_bracket.
      * intros ->. subst lastPoint. cbn in H1. lra.
      * lra.
      * fold lastPoint. lra.
Qed.

Lemma PI_gt_3 : 3 < PI.
Proof. pose proof PI2_3_2. lra. Qed.

(** X30.  With at least two parallel conductors, rods on the perimeter
    never raise the touch factor: [Km] computed with [hasRods = true]
    ([Kii = 1]) is at most [Km] computed without them
    ([Kii = 1 / (2n)^(2/n)]). *)
Theorem calculateKm_rods_lower (D h d n : R) :
  0 < D -> 0 < h -> 0 < d -> 2 <= n ->
  GroundingMath.calculateKm D h d n true <= GroundingMath.calculateKm D h d n false.
Proof.
  intros HD Hh Hd Hn. unfold GroundingMath.calculateKm.
  guard_le_false D 0. guard_le_false h 0. guard_le_false d 0. guard_le_false n 0.
  cbn [orb]. cbv zeta.
  pose proof PI_gt_3 as HPI.
  set (ln1 := ln (D * D / (16 * h * d) + (D + 2 * h) ^ 2 / (8 * D * d) - h / (4 * d))).
  set (ln2 := ln (8 / (PI * (2 * n - 1)))).
  set (Kh := sqrt (1 + h)).
  set (P := JS.pow (2 * n) (2 / n)).
  assert (HKh : 0 < Kh) by (apply sqrt_lt_R0; lra).
  assert (Hln2 : ln2 < 0).
  { subst ln2. rewrite <- ln_1. apply ln_increasing.
    - apply Rdiv_lt_0_compat; [ lra | nra ].
    - apply Rmult_lt_reg_r with (PI * (2 * n - 1)); [ nra | ].
      unfold Rdiv. rewrite Rmult_assoc, Rinv_l by nra. nra. }
  assert (HP : 1 <= P).
  { subst P. unfold JS.pow, Rpower. rewrite <- exp_0.
    assert (H2n : 0 <= ln (2 * n)).
    { rewrite <- ln_1. left. apply ln_increasing; lra. }
    assert (H2 : 0 < 2 / n) by (apply Rdiv_lt_0_compat; lra).
    destruct (Rle_lt_or_eq_dec _ _ (Rmult_le_pos _ _ (Rlt_le _ _ H2) H2n)) as [Hlt | Heq].
    - left. apply exp_increasing. exact Hlt.
    - right. rewrite <- Heq. reflexivity. }
  assert (HKii : 0 < 1 / P <= 1).
  { split; [ apply Rdiv_lt_0_compat; lra | ].
    apply Rmult_le_reg_r with P; [ lra | ].
    unfold Rdiv. rewrite Rmult_assoc, Rinv_l by lra. lra. }
  assert (HiKh : 0 < / Kh) by (apply Rinv_0_lt_compat; exact HKh).
  assert (Hterm : 1 / Kh * ln2 <= 1 / P / Kh * ln2).
  { set (q := 1 / P) in *. set (w := / Kh * ln2).
    assert (Hw : w < 0) by (subst w; nra).
    replace (1 / Kh * ln2) with (1 * w) by (subst w; unfold Rdiv; ring).
    replace (q / Kh * ln2) with (q * w) by (subst w; unfold Rdiv; ring).
    nra. }
  assert (Hc : 0 < 1 / (2 * PI)) by (apply Rdiv_lt_0_compat; lra).
  apply Rmult_le_compat_l; lra.
Qed.

Lemma calculateKm_rods_lower_witness :
  GroundingMath.calculateKm 5 0.5 0.00798 10 true
  <= GroundingMath.calculateKm 5 0.5 0.00798 10 false.
Proof.
  apply (calculateKm_rods_lower 5 0.5 0.00798 10); lra.
Defined.

Lemma step_factor_positive (D h n : R) :
  0 < D -> 0 < h -> 2 <= n -> 0 < GroundingMath.calculateKs D h n.
Proof.
  intros HD Hh Hn. unfold GroundingMath.calculateKs.
  rewrite orb3_leb_false by lra. cbv zeta.
  destruct (pow_half_range (n - 2)) as [Hp0 Hp1]; [ lra | ].
  assert (HPI : 0 < 1 / PI) by (apply Rdiv_lt_0_compat; [ lra | apply PI_RGT_0 ]).
  assert (H1 : 0 < 1 / (2 * h)) by (apply Rdiv_lt_0_compat; lra).
  assert (H2 : 0 < 1 / (D + h)) by (apply Rdiv_lt_0_compat; lra).
  assert (H3 : 0 < 1 / D) by (apply Rdiv_lt_0_compat; lra).
  apply Rmult_lt_0_compat; [ exact HPI | ]. nra.
Qed.

(** X10.  The mesh step voltage as the results panel computes it, from
    [calculateKs D h n] and from [ki], which is 1 with rods on the
    perimeter and [calculateKi n] without: it is 0 when the conductor
    length is not positive, and positive for a positive resistivity,
    current, conductor length, spacing and depth and [n >= 2]. *)
Theorem calculateMeshStepVoltage_from_factors
  (rho Im Lt D h n : R) (hasPerimeterRods : bool) :
  let ki := if hasPerimeterRods then 1 else GroundingMath.calculateKi n in
  let ks := GroundingMath.calculateKs D h n in
  (Lt <= 0 -> GroundingMath.calculateMeshStepVoltage rho Im ks ki Lt = 0)
  /\ (0 < rho -> 0 < Im -> 0 < Lt -> 0 < D -> 0 < h -> 2 <= n ->
      0 < GroundingMath.calculateMeshStepVoltage rho Im ks ki Lt).
Proof.
  intros ki ks. unfold GroundingMath.calculateMeshStepVoltage. split.
  - intros HLt. guard_le_true Lt 0. reflexivity.
  - intros Hrho HIm HLt HD Hh Hn. guard_le_false Lt 0.
    assert (HKs : 0 < ks) by (apply step_factor_positive; assumption).
    assert (HKi : 0 < ki).
    { subst ki. destruct hasPerimeterRods; [ lra | ].
      unfold GroundingMath.calculateKi. lra. }
    apply Rdiv_lt_0_compat; [ | exact HLt ].
    repeat apply Rmult_lt_0_compat; assumption.
Qed.
